(** * stk: topology-graph placement and bonding engine

    A shallow embedding of the parts of [stk] that carry the geometric
    and matching logic of cage construction:

    - [stk/molecular/topologies/cage/base.py]: [Vertex], [Edge],
      [CageTopology.pair_bonders_with_positions], [CageTopology.join_mols];
    - [stk/molecular/bond.py]: [Bond.clone];
    - [stk/molecular/molecules/building_block.py]:
      [BuildingBlock.get_bonder_plane_normal];
    - [stk/molecular/molecules/molecule/molecule.py]: the rigid-motion
      interface of [Molecule].

    Conventions.  numpy floats are idealised as real numbers; a NaN is an
    explicit outcome [NaN], a raised exception an explicit outcome
    [Raise].  Python objects that are mutated and shared (vertices,
    edges) live in a store indexed by locations, so object identity is
    location equality. *)

From Stdlib Require Import Reals Lra Lia Psatz RNsatz.
From Stdlib Require Import Sorting.Sorted Sorting.Permutation.
From stdpp Require Import base option list gmap sets strings.

(* ================================================================== *)
(** * Part I: definitions *)
(* ================================================================== *)

(** ** Outcomes of float computations that may raise *)

Inductive exn : Type :=
  | ValueError (msg : string)
  | IndexError
  | EmptyInputError.

Inductive outcome (A : Type) : Type :=
  | Val (a : A)
  | NaN
  | Raise (e : exn).
Arguments Val {A} a.
Arguments NaN {A}.
Arguments Raise {A} e.

Definition obind {A B} (m : outcome A) (k : A -> outcome B) : outcome B :=
  match m with
  | Val a => k a
  | NaN => NaN
  | Raise e => Raise e
  end.

Notation "'do' x <- m ; k" := (obind m (fun x => k))
  (at level 10, x name, m at level 100, k at level 200, only parsing).

(** [for x in xs: acc <- body acc x], stopping at the first NaN or
    exception. *)
Fixpoint ofold {A S} (body : S -> A -> outcome S) (xs : list A) (s : S)
  : outcome S :=
  match xs with
  | [] => Val s
  | x :: xs' => do s' <- body s x; ofold body xs' s'
  end.

(** ** Real vectors (numpy arrays of shape (3,)) *)

Module Vec.
Local Open Scope R_scope.

Record vec : Type := mk { x : R; y : R; z : R }.

Definition zero : vec := mk 0 0 0.
Definition add (a b : vec) : vec := mk (x a + x b) (y a + y b) (z a + z b).
Definition sub (a b : vec) : vec := mk (x a - x b) (y a - y b) (z a - z b).
Definition scale (k : R) (a : vec) : vec := mk (k * x a) (k * y a) (k * z a).
Definition opp (a : vec) : vec := scale (-1) a.
Definition dot (a b : vec) : R := x a * x b + y a * y b + z a * z b.
(** [np.cross] *)
Definition cross (a b : vec) : vec :=
  mk (y a * z b - z a * y b) (z a * x b - x a * z b) (x a * y b - y a * x b).
(** [np.linalg.norm] *)
Definition norm (a : vec) : R := sqrt (dot a a).
(** [sum(...)] of a sequence of arrays. *)
Definition sum (l : list vec) : vec := foldr add zero l.
(** [scipy.spatial.distance.euclidean] *)
Definition euclidean (a b : vec) : R := norm (sub a b).
End Vec.
Abbreviation vec := Vec.vec.

(** Comparison of floats as booleans. *)
#[global] Instance R_eq_dec : EqDecision R := Req_dec_T.
Definition Rltb (a b : R) : bool := if Rlt_dec a b then true else false.
Definition Rleb (a b : R) : bool := if Rle_dec a b then true else false.

(** ** [stk.utilities] *)

Module Utilities.
Local Open Scope R_scope.

(** Modelled from the spec: [centroid(points)], missing from the
    sources; "arithmetic mean of a non-empty sequence of 3D points;
    fails with an EmptyInputError if given zero points". *)
Definition centroid (points : list vec) : outcome vec :=
  match points with
  | [] => Raise EmptyInputError
  | _ => Val (Vec.scale (/ INR (length points)) (Vec.sum points))
  end.

(** Modelled from the spec: [normalize_vector(v)], missing from the
    sources; "returns v / ||v||; result undefined (NaN) if v is the
    zero vector". *)
Definition normalize_vector (v : vec) : outcome vec :=
  if decide (Vec.norm v = 0) then NaN
  else Val (Vec.scale (/ Vec.norm v) v).

Definition clamp (lo hi t : R) : R :=
  if Rltb t lo then lo else if Rltb hi t then hi else t.

(** Modelled from the spec: [vector_angle(a, b)] (imported as
    [vector_theta] by the cage module), missing from the sources;
    "the (0..pi) angle between two vectors via
    acos(clamp(a.b / (|a||b|), -1, 1))".  A zero operand makes the
    quotient 0/0, a NaN. *)
Definition vector_angle (a b : vec) : outcome R :=
  if decide (Vec.norm a * Vec.norm b = 0) then NaN
  else Val (acos (clamp (-1) 1 (Vec.dot a b / (Vec.norm a * Vec.norm b)))).

(** [theta > bound] on a possibly-NaN float: every comparison with NaN
    is false. *)
Definition gt_float (theta : outcome R) (bound : R) : bool :=
  match theta with
  | Val t => Rltb bound t
  | _ => false
  end.
End Utilities.

(** ** Python's stable sort *)

(** [list.sort] and [sorted] are stable and compare with [<] only.  On
    keys that are totally ordered every stable sort returns the same
    list; it is written here as an insertion sort, [lt] being Python's
    [<] on the sort keys. *)
Fixpoint insert_sorted {A} (lt : A -> A -> bool) (a : A) (l : list A) : list A :=
  match l with
  | [] => [a]
  | b :: r => if lt b a then b :: insert_sorted lt a r else a :: b :: r
  end.

Definition stable_sort {A} (lt : A -> A -> bool) (l : list A) : list A :=
  foldr (insert_sorted lt) [] l.

(** [itertools.combinations(l, 2)], in the order Python yields them. *)
Fixpoint combinations2 {A} (l : list A) : list (A * A) :=
  match l with
  | [] => []
  | a :: r => map (pair a) r ++ combinations2 r
  end.

(** ** [topologies/cage/base.py] *)

Module Cage.
Local Open Scope R_scope.

(** A location is the identity of a [Vertex] (or [Edge]) object. *)
Abbreviation loc := nat.
Abbreviation atom_id := nat.

(** class [Vertex]; [Edge] is a subclass that adds no attribute. *)
Record Vertex : Type := mkVertex {
  coord : vec;
  custom_position : bool;
  connected : list loc;
  bonder_ids : list atom_id;
  atom_position_pairs : list (atom_id * loc);
  distances : list (R * atom_id * atom_id);
  id : option nat
}.

#[global] Instance Vertex_inhabited : Inhabited Vertex :=
  populate (mkVertex Vec.zero true [] [] [] [] None).

(** The store of vertex and edge objects. *)
Abbreviation heap := (gmap loc Vertex).

Definition set_connected (f : list loc -> list loc) (v : Vertex) : Vertex :=
  mkVertex (coord v) (custom_position v) (f (connected v)) (bonder_ids v)
           (atom_position_pairs v) (distances v) (id v).
Definition set_atom_position_pairs
    (f : list (atom_id * loc) -> list (atom_id * loc)) (v : Vertex) : Vertex :=
  mkVertex (coord v) (custom_position v) (connected v) (bonder_ids v)
           (f (atom_position_pairs v)) (distances v) (id v).
Definition set_distances
    (f : list (R * atom_id * atom_id) -> list (R * atom_id * atom_id))
    (v : Vertex) : Vertex :=
  mkVertex (coord v) (custom_position v) (connected v) (bonder_ids v)
           (atom_position_pairs v) (f (distances v)) (id v).

(** [Vertex.__init__(self, x, y, z, id_, custom_position)] *)
Definition Vertex_init (xyz : vec) (id_ : option nat) (custom : bool) : Vertex :=
  mkVertex xyz custom [] [] [] [] id_.

(** Allocation of a new object. *)
Definition new_loc (h : heap) : loc := fresh (dom h).

(** [Vertex.vertex_init(cls, *vertices)] *)
Definition vertex_init (h : heap) (vertices : list loc) : outcome (loc * heap) :=
  do c <- Utilities.centroid (map (fun v => coord (h !!! v)) vertices);
  let obj := new_loc h in
  let h := <[obj := Vertex_init c None false]> h in
  let h := alter (set_connected (fun l => l ++ vertices)) obj h in
  let h := foldl (fun h v => alter (set_connected (fun l => l ++ [obj])) v h)
                 h vertices in
  Val (obj, h).

(** [Edge.__init__(self, v1, v2, id_, custom_position)] *)
Definition Edge_init (h : heap) (v1 v2 : loc) (id_ : option nat) (custom : bool)
  : outcome (loc * heap) :=
  do c <- Utilities.centroid [coord (h !!! v1); coord (h !!! v2)];
  let self := new_loc h in
  let h := <[self := Vertex_init c id_ custom]> h in
  let h := alter (set_connected (fun l => l ++ [v1; v2])) self h in
  let h := alter (set_connected (fun l => l ++ [self])) v1 h in
  let h := alter (set_connected (fun l => l ++ [self])) v2 h in
  Val (self, h).

(** Every object mentioned in a [connected] list exists. *)
Definition closed (h : heap) : Prop :=
  forall l v, h !! l = Some v -> Forall (fun c => is_Some (h !! c)) (connected v).

(** Connectivity is mutual: [x in y.connected] iff [y in x.connected]. *)
Definition mutual (h : heap) : Prop :=
  forall a b, a ∈ connected (h !!! b) <-> b ∈ connected (h !!! a).

(** [Vertex.edge_direction_vectors(self, scale)]: the generator, as
    the list of the (lazily computed) values it yields. *)
Definition edge_direction_vectors (h : heap) (self : loc) (scale : R)
  : list (outcome vec) :=
  map (fun '(edge1, edge2) =>
         Utilities.normalize_vector
           (Vec.scale scale (Vec.sub (coord (h !!! edge1)) (coord (h !!! edge2)))))
      (combinations2 (connected (h !!! self))).

(** [Vertex.edge_plane_normal(self, scale)].  [v1, v2 = islice(g, 2)]
    raises [ValueError] unless the generator yields two values, with a
    message that tells how many it got; [self.connected[0]] then
    exists. *)
Definition edge_plane_normal (h : heap) (self : loc) (scale : R) : outcome vec :=
  match take 2 (edge_direction_vectors h self scale) with
  | [d1; d2] =>
      do v1 <- d1;
      do v2 <- d2;
      do normal <- Utilities.normalize_vector (Vec.cross v1 v2);
      match connected (h !!! self) with
      | [] => Raise IndexError
      | c0 :: _ =>
          let theta :=
            Utilities.vector_angle normal (Vec.scale scale (coord (h !!! c0))) in
          if Utilities.gt_float theta (PI / 2)
          then Val (Vec.scale (-1) normal)
          else Val normal
      end
  | [_] => Raise (ValueError "not enough values to unpack (expected 2, got 1)")
  | _ => Raise (ValueError "not enough values to unpack (expected 2, got 0)")
  end.

(** A [MacroMolecule] as far as the matchers use it: the methods
    [atom_coords] and [atom_distance], the bonds of [mol], and the
    counter [bonds_made]. *)
Record MacroMolecule (BondType : Type) : Type := mkMacroMolecule {
  atom_coords : atom_id -> vec;
  atom_distance : atom_id -> atom_id -> R;
  mol_bonds : list (atom_id * atom_id * BondType);
  bonds_made : nat
}.
Arguments mkMacroMolecule {BondType}.
Arguments atom_coords {BondType}.
Arguments atom_distance {BondType}.
Arguments mol_bonds {BondType}.
Arguments bonds_made {BondType}.

(** *** [CageTopology.pair_bonders_with_positions] *)

(** State of the pairing loop. *)
Record PairState : Type := mkPairState {
  paired_pos : gset loc;
  paired_ids : gset atom_id;
  ps_heap : heap
}.

Definition key_lt {A B} (a b : R * A * B) : bool := Rltb (a.1.1) (b.1.1).

Section PairBonders.
Context {BondType : Type}.

(** The first loop: all (distance, atom, position) options. *)
Definition position_distances (h : heap) (scale : R)
    (macro_mol : MacroMolecule BondType) (vertex : loc)
  : list (R * atom_id * loc) :=
  foldl (fun distances bonder_id =>
           let atom_coord := atom_coords macro_mol bonder_id in
           foldl (fun distances position =>
                    let distance :=
                      Vec.euclidean atom_coord
                        (Vec.scale scale (coord (h !!! position))) in
                    distances ++ [(distance, bonder_id, position)])
                 distances (connected (h !!! vertex)))
        [] (bonder_ids (h !!! vertex)).

(** One iteration of the last loop. *)
Definition pair_step (vertex : loc) (st : PairState)
    (d : R * atom_id * loc) : PairState :=
  let '(_, bonder_id, pos) := d in
  if bool_decide (bonder_id ∈ paired_ids st) || bool_decide (pos ∈ paired_pos st)
  then st
  else mkPairState
         ({[pos]} ∪ paired_pos st)
         ({[bonder_id]} ∪ paired_ids st)
         (alter (set_atom_position_pairs (fun l => l ++ [(bonder_id, pos)]))
                vertex (ps_heap st)).

Definition pair_bonders_with_positions (h : heap) (scale : R)
    (macro_mol : MacroMolecule BondType) (vertex : loc) : heap :=
  let distances := position_distances h scale macro_mol vertex in
  let distances := stable_sort key_lt distances in
  let h := alter (set_atom_position_pairs (fun _ => [])) vertex h in
  ps_heap (foldl (pair_step vertex) (mkPairState ∅ ∅ h) distances).
End PairBonders.

(** *** [CageTopology.join_mols] *)

(** Python's [<] on the tuples [(distance, atom1_id, atom2_id)]:
    the first components that differ decide. *)
Definition tuple_lt (a b : R * atom_id * atom_id) : bool :=
  let '(d1, a1, b1) := a in
  let '(d2, a2, b2) := b in
  if decide (d1 = d2)
  then if decide (a1 = a2) then bool_decide (b1 < b2)%nat
       else bool_decide (a1 < a2)%nat
  else Rltb d1 d2.

(** State of the bonding loop: the set [paired], the editable copy of
    the molecule, and the macromolecule (for [bonds_made]). *)
Record JoinState (BondType : Type) : Type := mkJoinState {
  paired : gset atom_id;
  editable_mol : list (atom_id * atom_id * BondType);
  js_mol : MacroMolecule BondType
}.
Arguments mkJoinState {BondType}.
Arguments paired {BondType}.
Arguments editable_mol {BondType}.
Arguments js_mol {BondType}.

(** What a call of [join_mols] leaves behind: the store, the
    macromolecule, and the warnings it issued. *)
Record JoinResult (BondType : Type) : Type := mkJoinResult {
  jr_heap : heap;
  jr_mol : MacroMolecule BondType;
  jr_warnings : list string
}.
Arguments mkJoinResult {BondType}.
Arguments jr_heap {BondType}.
Arguments jr_mol {BondType}.
Arguments jr_warnings {BondType}.

Definition set_bonds_made {BondType} (n : nat) (m : MacroMolecule BondType)
  : MacroMolecule BondType :=
  mkMacroMolecule (atom_coords m) (atom_distance m) (mol_bonds m) n.
Definition set_mol {BondType} (bs : list (atom_id * atom_id * BondType))
    (m : MacroMolecule BondType) : MacroMolecule BondType :=
  mkMacroMolecule (atom_coords m) (atom_distance m) bs (bonds_made m).

Section JoinMols.
Context {BondType : Type}.
(** [Topology.determine_bond_type], defined by the base class. *)
Variable determine_bond_type :
  MacroMolecule BondType -> atom_id -> atom_id -> BondType.

(** The first loop, for one position: the position records the
    distances between each of its paired atoms and all bonder atoms
    of the position the atom is paired with. *)
Definition record_position (macro_mol : MacroMolecule BondType) (h : heap)
    (position : loc) : heap :=
  foldl (fun h '(atom_id, vertex) =>
    foldl (fun h atom2_id =>
             let distance := atom_distance macro_mol atom_id atom2_id in
             alter (set_distances
                      (fun l => l ++ [(distance, atom_id, atom2_id)]))
                   position h)
          h (bonder_ids (h !!! vertex)))
    h (atom_position_pairs (h !!! position)).

(** The first loop. *)
Definition record_distances (h : heap) (macro_mol : MacroMolecule BondType)
    (positions_A : list loc) : heap :=
  foldl (record_position macro_mol) h positions_A.

(** One iteration of the inner bonding loop, when [AddBond] accepts
    the bond: the bond is put behind the bonds of the editable
    molecule.  ([Rdkit.bond_position] below has the exception.) *)
Definition join_step (st : JoinState BondType) (d : R * atom_id * atom_id)
  : JoinState BondType :=
  let '(_, atom1_id, atom2_id) := d in
  if bool_decide (atom1_id ∈ paired st) || bool_decide (atom2_id ∈ paired st)
  then st
  else
    let bond_type := determine_bond_type (js_mol st) atom1_id atom2_id in
    mkJoinState
      ({[atom2_id]} ∪ ({[atom1_id]} ∪ paired st))
      (editable_mol st ++ [(atom1_id, atom2_id, bond_type)])
      (set_bonds_made (S (bonds_made (js_mol st))) (js_mol st)).

(** The second loop. *)
Definition make_bonds (h : heap) (positions_A : list loc)
    (st : JoinState BondType) : JoinState BondType :=
  foldl (fun st position =>
           foldl join_step st (stable_sort tuple_lt (distances (h !!! position))))
        st positions_A.

(** [CageTopology.join_mols(self, macro_mol)] on a run in which
    [AddBond] accepts every bond; [Rdkit.join_mols] below is the method
    with the exception of [AddBond], and returns this result whenever
    it returns.  The code issues no warning and logs nothing, so the
    warnings of the result are none. *)
Definition join_mols (h : heap) (macro_mol : MacroMolecule BondType)
    (positions_A : list loc) : JoinResult BondType :=
  let editable := mol_bonds macro_mol in
  let macro_mol := set_bonds_made 0 macro_mol in
  let h := record_distances h macro_mol positions_A in
  let st := make_bonds h positions_A (mkJoinState ∅ editable macro_mol) in
  mkJoinResult h (set_mol (editable_mol st) (js_mol st)) [].

(** The bonds [join_mols] added to the molecule it was given. *)
Definition new_bonds (before : MacroMolecule BondType)
    (after : JoinResult BondType) : list (atom_id * atom_id * BondType) :=
  drop (length (mol_bonds before)) (mol_bonds (jr_mol after)).
End JoinMols.

(** *** [join_mols] with the exceptions of rdkit *)

Module Rdkit.
(** The exception rdkit raises when a precondition is violated. *)
Inductive exn : Type := RuntimeError.

(** The molecule has a bond between the two atoms, in either order. *)
Definition GetBondBetweenAtoms {BondType}
    (bonds : list (atom_id * atom_id * BondType)) (a1 a2 : atom_id) : bool :=
  existsb (fun b => (bool_decide (b.1.1 = a1) && bool_decide (b.1.2 = a2))
                    || (bool_decide (b.1.1 = a2) && bool_decide (b.1.2 = a1)))
          bonds.

(** [EditableMol.AddBond(beginAtomIdx, endAtomIdx, order)] of rdkit.
    The library is not part of the repository; the model follows its
    behaviour: the bond is put behind the bonds the molecule has, and
    [RuntimeError] is raised for a bond of an atom with itself and
    when the two atoms are bonded already.  (Atom ids are taken to be
    atoms of the molecule, as [atom_coords] and [atom_distance] take
    them.) *)
Definition AddBond {BondType} (bonds : list (atom_id * atom_id * BondType))
    (a1 a2 : atom_id) (bond_type : BondType)
  : exn + list (atom_id * atom_id * BondType) :=
  if bool_decide (a1 = a2) || GetBondBetweenAtoms bonds a1 a2
  then inl RuntimeError
  else inr (bonds ++ [(a1, a2, bond_type)]).

(** [AddBond] accepts the atoms of the pair [b] on a molecule with
    the bonds [bonds]. *)
Definition addable {BondType} (bonds : list (atom_id * atom_id * BondType))
    (b : atom_id * atom_id) : Prop :=
  b.1 <> b.2 /\ GetBondBetweenAtoms bonds b.1 b.2 = false.

Section JoinMols.
Context {BondType : Type}.
Variable determine_bond_type :
  MacroMolecule BondType -> atom_id -> atom_id -> BondType.

(** The inner bonding loop over the sorted distances of one position;
    an exception of [AddBond] ends it, leaving [paired] and
    [bonds_made] as they were before the call. *)
Fixpoint bond_position (st : JoinState BondType)
    (distances : list (R * atom_id * atom_id))
  : exn * JoinState BondType + JoinState BondType :=
  match distances with
  | [] => inr st
  | (_, atom1_id, atom2_id) :: rest =>
      if bool_decide (atom1_id ∈ paired st) || bool_decide (atom2_id ∈ paired st)
      then bond_position st rest
      else
        let bond_type := determine_bond_type (js_mol st) atom1_id atom2_id in
        match AddBond (editable_mol st) atom1_id atom2_id bond_type with
        | inl e => inl (e, st)
        | inr bonds =>
            bond_position
              (mkJoinState
                 ({[atom2_id]} ∪ ({[atom1_id]} ∪ paired st))
                 bonds
                 (set_bonds_made (S (bonds_made (js_mol st))) (js_mol st)))
              rest
        end
  end.

(** The second loop. *)
Fixpoint make_bonds (h : heap) (positions_A : list loc)
    (st : JoinState BondType)
  : exn * JoinState BondType + JoinState BondType :=
  match positions_A with
  | [] => inr st
  | position :: rest =>
      match bond_position st
              (stable_sort tuple_lt (distances (h !!! position))) with
      | inl raised => inl raised
      | inr st => make_bonds h rest st
      end
  end.

(** [CageTopology.join_mols(self, macro_mol)].  When [AddBond] raises,
    the exception leaves the distances recorded and [bonds_made] at
    the bonds made so far, and [macro_mol.mol] is not replaced. *)
Definition join_mols (h : heap) (macro_mol : MacroMolecule BondType)
    (positions_A : list loc)
  : exn * JoinResult BondType + JoinResult BondType :=
  let editable := mol_bonds macro_mol in
  let macro_mol := set_bonds_made 0 macro_mol in
  let h := record_distances h macro_mol positions_A in
  match make_bonds h positions_A (mkJoinState ∅ editable macro_mol) with
  | inl (e, st) => inl (e, mkJoinResult h (js_mol st) [])
  | inr st => inr (mkJoinResult h (set_mol (editable_mol st) (js_mol st)) [])
  end.
End JoinMols.
End Rdkit.

(** *** The matching rule in the words of the specification *)

(** "sort candidate pairs by distance ascending, consume pairs
    greedily, skipping any pair referencing an already-consumed atom or
    position".  [greedy_pairs acc cands] walks [cands] in order; [acc]
    holds the pairs accepted so far. *)
Definition uses_atom_or_position (acc : list (atom_id * loc))
    (a : atom_id) (p : loc) : bool :=
  existsb (fun '(a', p') => bool_decide (a' = a) || bool_decide (p' = p)) acc.

Fixpoint greedy_pairs (acc : list (atom_id * loc))
    (cands : list (R * atom_id * loc)) : list (atom_id * loc) :=
  match cands with
  | [] => acc
  | (_, a, p) :: rest =>
      if uses_atom_or_position acc a p then greedy_pairs acc rest
      else greedy_pairs (acc ++ [(a, p)]) rest
  end.

(** Every (bonder atom, connected position) candidate of a vertex with
    its Euclidean distance. *)
Definition pair_candidates {BondType} (h : heap) (scale : R)
    (macro_mol : MacroMolecule BondType) (vertex : loc)
  : list (R * atom_id * loc) :=
  flat_map (fun b =>
              map (fun p => (Vec.euclidean (atom_coords macro_mol b)
                               (Vec.scale scale (coord (h !!! p))), b, p))
                  (connected (h !!! vertex)))
           (bonder_ids (h !!! vertex)).

(** The same rule on atom pairs: a candidate is skipped when one of its
    atoms belongs to a bond accepted before. *)
Definition uses_atom (acc : list (atom_id * atom_id)) (a : atom_id) : bool :=
  existsb (fun '(a1, a2) => bool_decide (a1 = a) || bool_decide (a2 = a)) acc.

Fixpoint greedy_bonds (acc : list (atom_id * atom_id))
    (cands : list (R * atom_id * atom_id)) : list (atom_id * atom_id) :=
  match cands with
  | [] => acc
  | (_, a1, a2) :: rest =>
      if uses_atom acc a1 || uses_atom acc a2 then greedy_bonds acc rest
      else greedy_bonds (acc ++ [(a1, a2)]) rest
  end.

(** Every (paired atom, bonder atom at the paired position) candidate
    of a position with its distance. *)
Definition bond_candidates {BondType} (h : heap)
    (macro_mol : MacroMolecule BondType) (position : loc)
  : list (R * atom_id * atom_id) :=
  flat_map (fun '(a, v) =>
              map (fun b => (atom_distance macro_mol a b, a, b))
                  (bonder_ids (h !!! v)))
           (atom_position_pairs (h !!! position)).

Definition by_distance {A B} (a b : R * A * B) : Prop := a.1.1 <= b.1.1.

(** Two bonds have no atom in common. *)
Definition pair_apart (b b' : atom_id * atom_id) : Prop :=
  b.1 <> b'.1 /\ b.1 <> b'.2 /\ b.2 <> b'.1 /\ b.2 <> b'.2.
Definition atoms_apart {T} (b b' : atom_id * atom_id * T) : Prop :=
  pair_apart b.1 b'.1.

(** The bonds of [bs] that join an atom of [p] to an atom of [q]. *)
Definition joins (ids_p ids_q : list atom_id) {T}
    (b : atom_id * atom_id * T) : bool :=
  (bool_decide (b.1.1 ∈ ids_p) && bool_decide (b.1.2 ∈ ids_q))
  || (bool_decide (b.1.1 ∈ ids_q) && bool_decide (b.1.2 ∈ ids_p)).

Definition bonds_across {T} (h : heap) (p q : loc)
    (bs : list (atom_id * atom_id * T)) : list (atom_id * atom_id * T) :=
  filter (fun b => joins (bonder_ids (h !!! p)) (bonder_ids (h !!! q)) b) bs.

(** Bond [b] links atom [a] with atom [c]. *)
Definition links {T} (b : atom_id * atom_id * T) (a c : atom_id) : Prop :=
  (b.1.1 = a /\ b.1.2 = c) \/ (b.1.2 = a /\ b.1.1 = c).

(** Atom [a] has a bond in [bs] whose other atom is one of [ids]. *)
Definition bonded_with (ids : list atom_id) {T}
    (bs : list (atom_id * atom_id * T)) (a : atom_id) : bool :=
  existsb (fun b => (bool_decide (b.1.1 = a) && bool_decide (b.1.2 ∈ ids))
                    || (bool_decide (b.1.2 = a) && bool_decide (b.1.1 ∈ ids)))
          bs.
(** *** Further methods of [Vertex] and [Edge] *)

(** [np.matrix(coords)] for a list of arrays of shape (3,): one row for
    each array; for the empty list a matrix of shape (1, 0), one row
    without entries. *)
Definition np_matrix (coords : list vec) : list (list R) :=
  match coords with
  | [] => [[]]
  | _ => map (fun v => [Vec.x v; Vec.y v; Vec.z v]) coords
  end.

(** [Vertex.edge_coord_matrix(self, scale)]: the rows of the matrix. *)
Definition edge_coord_matrix (h : heap) (self : loc) (scale : R)
  : list (list R) :=
  np_matrix
    (foldl (fun coords edge => coords ++ [Vec.scale scale (coord (h !!! edge))])
           [] (connected (h !!! self))).

(** Division of a Python int by the int zero. *)
Inductive arith_exn : Type := ZeroDivisionError.

(** [Vertex.edge_centroid(self, scale)].  [sum] starts from the int 0
    and adds from the left; without connections it returns that 0, and
    [0 / len(self.connected)] divides an int by the int 0. *)
Definition edge_centroid (h : heap) (self : loc) (scale : R) : arith_exn + vec :=
  match connected (h !!! self) with
  | [] => inl ZeroDivisionError
  | _ =>
      let total :=
        foldl (fun acc edge => Vec.add acc (Vec.scale scale (coord (h !!! edge))))
              Vec.zero (connected (h !!! self)) in
      inr (Vec.scale (/ INR (length (connected (h !!! self)))) total)
  end.

(** The loop shared by [bonder_centroid] and [Edge.direction]: the
    atoms that the objects connected to [self] have paired with
    [self] ([edge is self]), in the order the loop meets them. *)
Definition bonders_paired_with (h : heap) (self : loc) : list atom_id :=
  foldl (fun found v =>
           foldl (fun found '(bonder, edge) =>
                    if decide (edge = self) then found ++ [bonder] else found)
                 found (atom_position_pairs (h !!! v)))
        [] (connected (h !!! self)).

(** [Vertex.bonder_centroid(self, macro_mol, scale)].  The sum is a
    numpy array, so with no atom counted [centroid / count] is 0.0 / 0,
    a NaN. *)
Definition bonder_centroid {BondType} (h : heap) (self : loc)
    (macro_mol : option (MacroMolecule BondType)) (scale : R) : outcome vec :=
  match macro_mol with
  | Some m =>
      if custom_position (h !!! self)
      then Val (Vec.scale scale (coord (h !!! self)))
      else
        let '(centroid, count) :=
          foldl (fun '(centroid, count) bonder =>
                   (Vec.add centroid (atom_coords m bonder), S count))
                (Vec.zero, 0%nat) (bonders_paired_with h self) in
        if decide (count = 0%nat) then NaN
        else Val (Vec.scale (/ INR count) centroid)
  | None => Val (Vec.scale scale (coord (h !!! self)))
  end.

(** [v1, v2 = self.connected] *)
Definition unpack2 {A} (l : list A) : outcome (A * A) :=
  match l with
  | [a; b] => Val (a, b)
  | [] | [_] => Raise (ValueError "not enough values to unpack")
  | _ => Raise (ValueError "too many values to unpack")
  end.

(** [Edge.direction(self, macro_mol, scale)] *)
Definition direction {BondType} (h : heap) (self : loc)
    (macro_mol : option (MacroMolecule BondType)) (scale : R) : outcome vec :=
  let along_vertices :=
    do vs <- unpack2 (connected (h !!! self));
    Utilities.normalize_vector
      (Vec.sub (coord (h !!! vs.1)) (coord (h !!! vs.2))) in
  match macro_mol with
  | Some m =>
      if custom_position (h !!! self) then along_vertices
      else
        match map (atom_coords m) (bonders_paired_with h self) with
        | b0 :: b1 :: _ => Utilities.normalize_vector (Vec.sub b0 b1)
        | _ => Raise IndexError
        end
  | None => along_vertices
  end.

(** *** [NoLinkerCageTopology.connect] *)

(** The class attributes [connections] and [connected]; a class
    without the attribute [connected] reads as [False]. *)
Record TopologyClass : Type := mkTopologyClass {
  connections : list (loc * loc);
  cls_connected : bool
}.

Definition connect (cls : TopologyClass) (h : heap) : TopologyClass * heap :=
  if cls_connected cls then (cls, h)
  else
    let h := foldl (fun h '(v1, v2) =>
                      let h := alter (set_connected (fun l => l ++ [v2])) v1 h in
                      alter (set_connected (fun l => l ++ [v1])) v2 h)
                   h (connections cls) in
    (mkTopologyClass (connections cls) true, h).
End Cage.

(** ** [molecules/building_block.py] *)

(** [l[i]] for a Python list and a Python integer: negative indices
    count from the end, anything else out of range raises. *)
Definition py_index {A} (l : list A) (i : Z) : outcome A :=
  let n := Z.of_nat (length l) in
  let j := if (i <? 0)%Z then (n + i)%Z else i in
  if ((0 <=? j) && (j <? n))%Z
  then match l !! Z.to_nat j with
       | Some a => Val a
       | None => Raise IndexError
       end
  else Raise IndexError.

(** The indices Python accepts for [l]. *)
Definition valid_index {A} (l : list A) (i : Z) : Prop :=
  (- Z.of_nat (length l) <= i < Z.of_nat (length l))%Z.

(** An outcome that is not a [ValueError]. *)
Definition no_value_error {A} (o : outcome A) : Prop :=
  forall msg, o <> Raise (ValueError msg).


(** [[f(x) for x in xs]], stopping at the first exception. *)
Fixpoint omap {A B} (f : A -> outcome B) (xs : list A) : outcome (list B) :=
  match xs with
  | [] => Val []
  | x :: xs' => do b <- f x; do bs <- omap f xs'; Val (b :: bs)
  end.

(** [range(n)] *)
Definition range (n : nat) : list Z := map Z.of_nat (seq 0 n).

Module BuildingBlock.
Local Open Scope R_scope.

Abbreviation atom_id := nat.

(** A functional group, as far as the geometry uses it:
    [get_bonder_ids()]. *)
Record FunctionalGroup : Type := mkFunctionalGroup {
  get_fg_bonder_ids : list atom_id
}.

Record BuildingBlock : Type := mkBuildingBlock {
  position_matrix : list vec;
  functional_groups : list FunctionalGroup
}.


Definition insufficient_fgs : exn :=
  ValueError "At least 3 functional groups are necessary to create a plane.".

(** The exception of [get_centroid] for an empty set of atoms. *)
Definition empty_atom_ids : exn := ValueError "atom_ids was of length 0.".

(** Modelled from the spec: [Molecule.get_centroid(atom_ids=None)],
    which the base class in molecule.py only declares; by its docstring
    there it returns "the centroid of atoms specified by atom_ids", of
    all atoms when [atom_ids] is [None], and raises "ValueError: If
    atom_ids has a length of 0". *)
Definition get_centroid (self : BuildingBlock) (atom_ids : option (list atom_id))
  : outcome vec :=
  let atom_ids :=
    match atom_ids with
    | None => seq 0 (length (position_matrix self))
    | Some ids => ids
    end in
  match atom_ids with
  | [] => Raise empty_atom_ids
  | _ =>
      do points <- omap (fun a => py_index (position_matrix self) (Z.of_nat a))
                        atom_ids;
      Utilities.centroid points
  end.

Definition default_fg_ids (self : BuildingBlock) (fg_ids : option (list Z)) : list Z :=
  match fg_ids with
  | None => range (length (functional_groups self))
  | Some ids => ids
  end.

(** [get_bonder_ids(self, fg_ids)], as the list the generator yields. *)
Definition get_bonder_ids (self : BuildingBlock) (fg_ids : option (list Z))
  : outcome (list atom_id) :=
  do groups <- omap (py_index (functional_groups self)) (default_fg_ids self fg_ids);
  Val (concat (map get_fg_bonder_ids groups)).

(** [get_bonder_centroids(self, fg_ids)] *)
Definition get_bonder_centroids (self : BuildingBlock) (fg_ids : option (list Z))
  : outcome (list vec) :=
  omap (fun fg_id =>
          do fg <- py_index (functional_groups self) fg_id;
          get_centroid self (Some (get_fg_bonder_ids fg)))
       (default_fg_ids self fg_ids).

(** [get_centroid_centroid_direction_vector(self, fg_ids)] *)
Definition get_centroid_centroid_direction_vector (self : BuildingBlock)
    (fg_ids : option (list Z)) : outcome vec :=
  do atom_ids <- get_bonder_ids self fg_ids;
  do bonder_centroid <- get_centroid self (Some atom_ids);
  do centroid <- get_centroid self None;
  Val (Vec.sub centroid bonder_centroid).

(** [np.allclose(v, [0, 0, 0], atol=atol)]: every component within
    [atol] (the relative term vanishes against 0). *)
Definition allclose_zero (v : vec) (atol : R) : bool :=
  Rleb (Rabs (Vec.x v)) atol && Rleb (Rabs (Vec.y v)) atol
  && Rleb (Rabs (Vec.z v)) atol.

(** [get_num_functional_groups(self)] *)
Definition get_num_functional_groups (self : BuildingBlock) : nat :=
  length (functional_groups self).

(** The generator [((i, self.get_centroid(fgs[i].get_bonder_ids()))
    for i in fg_ids)]; [itertools.combinations] consumes it whole
    before it yields the first pair. *)
Definition indexed_bonder_centroids (self : BuildingBlock)
    (fg_ids : option (list Z)) : outcome (list (Z * vec)) :=
  omap (fun i =>
          do fg <- py_index (functional_groups self) i;
          do c <- get_centroid self (Some (get_fg_bonder_ids fg));
          Val (i, c))
       (default_fg_ids self fg_ids).

(** [get_bonder_distances(self, fg_ids)], as the list the generator
    yields. *)
Definition get_bonder_distances (self : BuildingBlock) (fg_ids : option (list Z))
  : outcome (list (Z * Z * R)) :=
  do centroids <- indexed_bonder_centroids self fg_ids;
  Val (map (fun '((id1, c1), (id2, c2)) => (id1, id2, Vec.euclidean c1 c2))
           (combinations2 centroids)).

(** [get_bonder_direction_vectors(self, fg_ids)], as the list the
    generator yields. *)
Definition get_bonder_direction_vectors (self : BuildingBlock)
    (fg_ids : option (list Z)) : outcome (list (Z * Z * vec)) :=
  do centroids <- indexed_bonder_centroids self fg_ids;
  Val (map (fun '((id1, c1), (id2, c2)) => (id2, id1, Vec.sub c1 c2))
           (combinations2 centroids)).

(** Modelled from the spec: [Molecule.apply_displacement(displacement)],
    declared by the base class only: "Shift the centroid by
    displacement"; every atom is moved by the displacement vector. *)
Definition apply_displacement (self : BuildingBlock) (displacement : vec)
  : BuildingBlock :=
  mkBuildingBlock (map (Vec.add displacement) (position_matrix self))
                  (functional_groups self).

(** [Molecule.set_centroid(self, position, atom_ids)] *)
Definition set_centroid (self : BuildingBlock) (position : vec)
    (atom_ids : option (list atom_id)) : outcome BuildingBlock :=
  do centroid <- get_centroid self atom_ids;
  Val (apply_displacement self (Vec.sub position centroid)).

Section PlaneNormal.
(** [np.linalg.svd(m)[-1][2, :]]: the right-singular vector of the
    smallest singular value of the matrix of rows [m]. *)
Variable svd_last_row : list vec -> vec.

(** [get_bonder_plane_normal(self, fg_ids)] *)
Definition get_bonder_plane_normal (self : BuildingBlock)
    (fg_ids : option (list Z)) : outcome vec :=
  let fg_ids := default_fg_ids self fg_ids in
  if (length fg_ids <? 3)%nat then Raise insufficient_fgs
  else
    do centroids <- get_bonder_centroids self (Some fg_ids);
    do atom_ids <- get_bonder_ids self (Some fg_ids);
    do bonder_centroid <- get_centroid self (Some atom_ids);
    let normal :=
      svd_last_row (map (fun c => Vec.sub c bonder_centroid) centroids) in
    do cc_vector <- get_centroid_centroid_direction_vector self (Some fg_ids);
    if negb (allclose_zero cc_vector (1 / 100000))
       && Utilities.gt_float (Utilities.vector_angle normal cc_vector) (PI / 2)
    then Val (Vec.scale (-1) normal)
    else Val normal.
(** [get_bonder_plane(self, fg_ids)]: the coefficients [a, b, c] (the
    normal) and [d] of the plane. *)
Definition get_bonder_plane (self : BuildingBlock) (fg_ids : option (list Z))
  : outcome (vec * R) :=
  let fg_ids := default_fg_ids self fg_ids in
  do fg_id <- py_index fg_ids 0;
  do fg <- py_index (functional_groups self) fg_id;
  do centroid <- get_centroid self (Some (get_fg_bonder_ids fg));
  do normal <- get_bonder_plane_normal self (Some fg_ids);
  Val (normal, Vec.dot normal centroid).
End PlaneNormal.
End BuildingBlock.

(** ** [molecular/bond.py] *)

Module Bond.
Abbreviation loc := nat.

(** Attribute values: numbers, strings, and references to objects. *)
Inductive value : Type :=
  | VInt (z : Z)
  | VStr (s : string)
  | VRef (l : loc).

(** Modelled from the spec: class [Atom], missing from the sources; a
    value object with an id, of which [clone()] makes a new object
    with the same content and [get_id()] returns the id. *)
Record Atom : Type := mkAtom {
  atom_id : Z;
  atomic_number : Z;
  charge : Z
}.

(** A [Bond] instance: the four attributes every bond has, and
    [attributes], whatever else [vars(self)] holds. *)
Record Bond : Type := mkBond {
  _atom1 : loc;
  _atom2 : loc;
  _order : Z;
  _periodicity : Z * Z * Z;
  attributes : gmap string value
}.

(** Objects of the store: atoms, bonds, and Python lists. *)
Inductive object : Type :=
  | OAtom (a : Atom)
  | OBond (b : Bond)
  | OList (items : list value).

Abbreviation heap := (gmap loc object).

Inductive error : Type :=
  | AttributeError
  | TypeError.

(** [attr.startswith('_')] *)
Definition is_private (attr : string) : bool := String.prefix "_" attr.

Definition alloc (h : heap) (o : object) : loc * heap :=
  let l := fresh (dom h) in (l, <[l := o]> h).

(** [atom.get_id()] *)
Definition get_id (h : heap) (atom : loc) : error + Z :=
  match h !! atom with
  | Some (OAtom a) => inr (atom_id a)
  | _ => inl AttributeError
  end.

(** [atom.clone()] *)
Definition Atom_clone (h : heap) (atom : loc) : error + (loc * heap) :=
  match h !! atom with
  | Some (OAtom a) => inr (alloc h (OAtom a))
  | _ => inl AttributeError
  end.

(** [Bond.clone(self, atom_map=None)].  The loop over [vars(self)]
    copies the bindings of the public attributes; the four private
    attributes of a bond are set afterwards.  The second argument of
    [atom_map.get] is evaluated whether or not the key is present. *)
Definition clone (h : heap) (self : loc) (atom_map : option (gmap Z loc))
  : error + (loc * heap) :=
  match h !! self with
  | Some (OBond b) =>
      let atom_map := default ∅ atom_map in
      let public := filter (fun kv => negb (is_private kv.1)) (attributes b) in
      let '(clone, h) := alloc h (OBond (mkBond 0 0 0 (0, 0, 0)%Z public)) in
      match get_id h (_atom1 b), Atom_clone h (_atom1 b) with
      | inr id1, inr (fresh1, h) =>
          let atom1 := default fresh1 (atom_map !! id1) in
          match get_id h (_atom2 b), Atom_clone h (_atom2 b) with
          | inr id2, inr (fresh2, h) =>
              let atom2 := default fresh2 (atom_map !! id2) in
              inr (clone,
                   <[clone := OBond (mkBond atom1 atom2 (_order b)
                                            (_periodicity b) public)]> h)
          | inl e, _ | _, inl e => inl e
          end
      | inl e, _ | _, inl e => inl e
      end
  | _ => inl TypeError
  end.



(** [Bond.__init__(self, atom1, atom2, order, periodicity)]: the new
    object holds clones of the two atoms. *)
Definition Bond_init (h : heap) (atom1 atom2 : loc) (order : Z)
    (periodicity : Z * Z * Z) : error + (loc * heap) :=
  let '(self, h) := alloc h (OBond (mkBond 0 0 0 (0, 0, 0)%Z ∅)) in
  match Atom_clone h atom1 with
  | inr (clone1, h) =>
      match Atom_clone h atom2 with
      | inr (clone2, h) =>
          inr (self, <[self := OBond (mkBond clone1 clone2 order periodicity ∅)]> h)
      | inl e => inl e
      end
  | inl e => inl e
  end.

(** [Bond.dangerous_init(cls, atom1, atom2, order, periodicity)] *)
Definition dangerous_init (h : heap) (atom1 atom2 : loc) (order : Z)
    (periodicity : Z * Z * Z) : loc * heap :=
  alloc h (OBond (mkBond atom1 atom2 order periodicity ∅)).

(** [Bond.get_atom1(self)] and [Bond.get_atom2(self)] *)
Definition get_atom1 (h : heap) (self : loc) : error + (loc * heap) :=
  match h !! self with
  | Some (OBond b) => Atom_clone h (_atom1 b)
  | _ => inl TypeError
  end.
Definition get_atom2 (h : heap) (self : loc) : error + (loc * heap) :=
  match h !! self with
  | Some (OBond b) => Atom_clone h (_atom2 b)
  | _ => inl TypeError
  end.

(** [Bond.get_order(self)] and [Bond.get_periodicity(self)] *)
Definition get_order (h : heap) (self : loc) : error + Z :=
  match h !! self with
  | Some (OBond b) => inr (_order b)
  | _ => inl TypeError
  end.
Definition get_periodicity (h : heap) (self : loc) : error + (Z * Z * Z) :=
  match h !! self with
  | Some (OBond b) => inr (_periodicity b)
  | _ => inl TypeError
  end.

(** The [dict] that [to_dict] returns. *)
Record BondDict : Type := mkBondDict {
  atom1_id : Z;
  atom2_id : Z;
  order : Z;
  periodicity : Z * Z * Z
}.

(** [Bond.to_dict(self)] *)
Definition to_dict (h : heap) (self : loc) : error + BondDict :=
  match h !! self with
  | Some (OBond b) =>
      match get_id h (_atom1 b), get_id h (_atom2 b) with
      | inr id1, inr id2 => inr (mkBondDict id1 id2 (_order b) (_periodicity b))
      | inl e, _ | _, inl e => inl e
      end
  | _ => inl TypeError
  end.

(** [Bond.is_periodic(self)] *)
Definition is_periodic (h : heap) (self : loc) : error + bool :=
  match h !! self with
  | Some (OBond b) =>
      let '(px, py, pz) := _periodicity b in
      inr (existsb (fun direction => negb (direction =? 0)%Z) [px; py; pz])
  | _ => inl TypeError
  end.
End Bond.

(** ** [molecules/molecule/molecule.py] *)

Module Molecule.
Local Open Scope R_scope.

(** A molecule, as far as rigid motions are concerned: the position
    matrix, one row per atom. *)
Record Molecule : Type := mkMolecule {
  position_matrix : list vec
}.

(** Rotation of a vector by [angle] about the axis [axis] through the
    origin (Rodrigues' formula). *)
Definition rotate (angle : R) (axis v : vec) : vec :=
  Vec.add (Vec.add (Vec.scale (cos angle) v)
                   (Vec.scale (sin angle) (Vec.cross axis v)))
          (Vec.scale (Vec.dot axis v * (1 - cos angle)) axis).

(** Modelled from the spec: [Molecule.apply_rotation_about_axis(angle,
    axis, origin)], implemented by a subclass missing from the
    sources (the base class only declares it): "Rotate by angle about
    axis on the origin"; every atom is moved by the rotation about the
    line through [origin] along [axis]. *)
Definition apply_rotation_about_axis (self : Molecule) (angle : R)
    (axis origin : vec) : Molecule :=
  mkMolecule
    (map (fun p => Vec.add origin (rotate angle axis (Vec.sub p origin)))
         (position_matrix self)).

(** Modelled from the spec: [Molecule.get_atom_distance(atom1_id,
    atom2_id)], declared by the base class only: "the distance between
    2 atoms". *)
Definition get_atom_distance (self : Molecule) (atom1_id atom2_id : nat)
  : outcome R :=
  match position_matrix self !! atom1_id, position_matrix self !! atom2_id with
  | Some p, Some q => Val (Vec.euclidean p q)
  | _, _ => Raise IndexError
  end.
End Molecule.

(** ** Vertices of topology graphs *)

Module TopologyGraph.
Local Open Scope R_scope.

(** Modelled from the spec: the [Vertex] of a topology graph, missing
    from the sources (its tests are present): "identity (integer id), a
    position in 3D space, a set of incident edge identifiers (ordered),
    and an optional periodic-cell coordinate", with a custom-position
    flag and the attributes callers add. *)
Record Vertex : Type := mkVertex {
  id : nat;
  position : vec;
  edge_ids : list nat;
  cell : Z * Z * Z;
  custom_position : bool;
  attributes : gmap string Z
}.

Definition get_position (v : Vertex) : vec := position v.

(** Modelled from the spec: [apply_scale(factor)], "scales position
    and any cached geometric derivations by factor, preserving
    custom-position flags"; the test expects [get_position()] to be
    [scale * before]. *)
Definition apply_scale (v : Vertex) (scale : R) : Vertex :=
  mkVertex (id v) (Vec.scale scale (position v)) (edge_ids v) (cell v)
           (custom_position v) (attributes v).
End TopologyGraph.

(** ** [CageTopology._bb_maps] *)

Module CageTopology.
Section BbMaps.
(** A building block, as far as [_bb_maps] looks at it:
    [len(bb.functional_group_atoms())]. *)
Context {BB : Type}.
Variable n_fgs : BB -> nat.

(** [max(len(bb.functional_group_atoms()) for bb in
    macro_mol.building_blocks)] *)
Definition max_fgs (building_blocks : list BB) : outcome nat :=
  match building_blocks with
  | [] => Raise (ValueError "max() arg is an empty sequence")
  | bb :: rest => Val (foldl (fun m b => Nat.max m (n_fgs b)) (n_fgs bb) rest)
  end.

(** [for position in positions: map_[position] = bb] *)
Definition assign (bb : BB) (positions : list nat) (map_ : gmap nat BB)
  : gmap nat BB :=
  foldl (fun map_ position => <[position := bb]> map_) map_ positions.

(** [_bb_maps(self, macro_mol)] when [self.bb_assignments] is given;
    the dict is the list of its items, in the order of iteration.  (The
    other branch draws the building blocks with [np.random.choice].) *)
Definition _bb_maps (building_blocks : list BB)
    (bb_assignments : list (Z * list nat))
  : outcome (gmap nat BB * gmap nat BB) :=
  do bb_fgs <- max_fgs building_blocks;
  ofold (fun '(bb_map, lk_map) '(bb_index, positions) =>
           do bb <- py_index building_blocks bb_index;
           if decide (n_fgs bb = bb_fgs)
           then Val (assign bb positions bb_map, lk_map)
           else Val (bb_map, assign bb positions lk_map))
        bb_assignments (∅, ∅).
End BbMaps.
End CageTopology.

(** ** [functional_groups/bromo.py] *)

Module Bromo.
Import Bond.

Inductive error : Type :=
  | AttributeError
  | KeyError (key : Z).

Definition ebind {A B} (m : error + A) (k : A -> error + B) : error + B :=
  match m with
  | inl e => inl e
  | inr a => k a
  end.

(** A Python [dict] with integer keys: its items in insertion order.
    [d[k] = v] replaces the value of a key already present, in place. *)
Fixpoint dict_set {V} (d : list (Z * V)) (k : Z) (v : V) : list (Z * V) :=
  match d with
  | [] => [(k, v)]
  | (k', v') :: rest =>
      if decide (k' = k) then (k, v) :: rest else (k', v') :: dict_set rest k v
  end.

(** [d[k]] *)
Fixpoint dict_get {V} (d : list (Z * V)) (k : Z) : error + V :=
  match d with
  | [] => inl (KeyError k)
  | (k', v) :: rest => if decide (k' = k) then inr v else dict_get rest k
  end.

(** [atom.id] *)
Definition id_of (h : heap) (atom : loc) : error + Z :=
  match h !! atom with
  | Some (OAtom a) => inr (atom_id a)
  | _ => inl AttributeError
  end.

(** [atom.clone()] *)
Definition clone_atom (h : heap) (atom : loc) : error + (loc * heap) :=
  match h !! atom with
  | Some (OAtom a) => inr (alloc h (OAtom a))
  | _ => inl AttributeError
  end.

(** [tuple(atom_map[a.id] for a in atoms)] *)
Fixpoint mapped (h : heap) (atom_map : list (Z * loc)) (atoms : list loc)
  : error + list loc :=
  match atoms with
  | [] => inr []
  | a :: rest =>
      ebind (id_of h a) (fun i =>
      ebind (dict_get atom_map i) (fun a' =>
      ebind (mapped h atom_map rest) (fun rest' =>
      inr (a' :: rest'))))
  end.

(** A [Bromo] instance: [_bromine], [_atom], and the three tuples
    handed to [FunctionalGroup_._init]. *)
Record Bromo : Type := mkBromo {
  _bromine : loc;
  _atom : loc;
  _atoms : list loc;
  _bonders : list loc;
  _deleters : list loc
}.

(** [Bromo.__init__(self, bromine, atom, bonders, deleters)] *)
Definition Bromo_init (h : heap) (bromine atom : loc) (bonders deleters : list loc)
  : error + (Bromo * heap) :=
  ebind (id_of h bromine) (fun bromine_id =>
  ebind (clone_atom h bromine) (fun '(bromine_clone, h) =>
  ebind (id_of h atom) (fun atom_id =>
  ebind (clone_atom h atom) (fun '(atom_clone, h) =>
  let atom_map := dict_set (dict_set [] bromine_id bromine_clone)
                           atom_id atom_clone in
  ebind (id_of h bromine) (fun bromine_id =>
  ebind (dict_get atom_map bromine_id) (fun _bromine =>
  ebind (id_of h atom) (fun atom_id =>
  ebind (dict_get atom_map atom_id) (fun _atom =>
  ebind (mapped h atom_map bonders) (fun bonders =>
  ebind (mapped h atom_map deleters) (fun deleters =>
  inr (mkBromo _bromine _atom (map snd atom_map) bonders deleters, h))))))))))).
End Bromo.

(** ** Concrete inputs *)

Module Examples.
Import Cage.
Local Open Scope R_scope.

(** Two vertices (objects 0 and 1), each with one bonder atom (atoms 0
    and 1) paired with the same edge (object 2), which carries the
    bonder atoms 2 and 3.  The four atoms lie on a line, at 4, 1, 0
    and 10. *)
Definition line_distance (a b : atom_id) : R :=
  match a, b with
  | 0%nat, 2%nat => 4
  | 0%nat, 3%nat => 6
  | 1%nat, 2%nat => 1
  | 1%nat, 3%nat => 9
  | _, _ => 0
  end.

Definition line_mol : MacroMolecule unit :=
  mkMacroMolecule
    (fun a => match a with
              | 0%nat => Vec.mk 4 0 0
              | 1%nat => Vec.mk 1 0 0
              | 2%nat => Vec.mk 0 0 0
              | _ => Vec.mk 10 0 0
              end)
    line_distance [] 0.

Definition line_heap : heap :=
  <[0%nat := mkVertex (Vec.mk 4 0 0) true [2%nat] [0%nat] [(0%nat, 2%nat)] [] None]>
  (<[1%nat := mkVertex (Vec.mk 1 0 0) true [2%nat] [1%nat] [(1%nat, 2%nat)] [] None]>
  (<[2%nat := mkVertex (Vec.mk 5 0 0) false [0%nat; 1%nat] [2%nat; 3%nat] [] [] None]>
   ∅)).

Definition single_bond (_ : MacroMolecule unit) (_ _ : atom_id) : unit := tt.

(** [line_mol] after a bond between the atoms 2 and 0 has been made. *)
Definition bonded_line_mol : MacroMolecule unit :=
  mkMacroMolecule (atom_coords line_mol) line_distance [(2%nat, 0%nat, tt)] 1.

(** A vertex (object 0) with three connected edges at (1,0,0),
    (0,1,0) and (0,0,1). *)
Definition corner_heap : heap :=
  <[0%nat := mkVertex (Vec.mk 1 1 1) true [1%nat; 2%nat; 3%nat] [] [] [] None]>
  (<[1%nat := mkVertex (Vec.mk 1 0 0) false [0%nat] [] [] [] None]>
  (<[2%nat := mkVertex (Vec.mk 0 1 0) false [0%nat] [] [] [] None]>
  (<[3%nat := mkVertex (Vec.mk 0 0 1) false [0%nat] [] [] [] None]> ∅))).

(** A building block with three functional groups, one bonder atom
    each, in the plane z = 0 around the origin, and a fourth atom on
    the z axis at height [z3]: the centroid of the molecule is
    (0, 0, z3/4), that of the bonder atoms the origin. *)
Definition flat_block (z3 : R) : BuildingBlock.BuildingBlock :=
  BuildingBlock.mkBuildingBlock
    [Vec.mk 1 0 0; Vec.mk 0 1 0; Vec.mk (-1) (-1) 0; Vec.mk 0 0 z3]
    [BuildingBlock.mkFunctionalGroup [0%nat];
     BuildingBlock.mkFunctionalGroup [1%nat];
     BuildingBlock.mkFunctionalGroup [2%nat]].

(** The bonder centroids of [flat_block], relative to their centroid. *)
Definition flat_rows : list vec :=
  [Vec.mk 1 0 0; Vec.mk 0 1 0; Vec.mk (-1) (-1) 0].

(** The two unit normals of the plane z = 0, as the value of the
    singular-value decomposition. *)
Definition fit_up (_ : list vec) : vec := Vec.mk 0 0 1.
Definition fit_down (_ : list vec) : vec := Vec.mk 0 0 (-1).

(** A bond (object 3) between two atoms (objects 0 and 1) to which a
    caller added a public attribute [tags], bound to a list (object 2),
    and a private attribute [_cache]. *)
Definition tagged_bond : Bond.Bond :=
  Bond.mkBond 0 1 1 (0, 0, 0)%Z
    (<["tags" := Bond.VRef 2]> (<["_cache" := Bond.VInt 7]> ∅)).

Definition bond_heap : Bond.heap :=
  <[0%nat := Bond.OAtom (Bond.mkAtom 0 6 0)]>
  (<[1%nat := Bond.OAtom (Bond.mkAtom 5 6 0)]>
  (<[2%nat := Bond.OList [Bond.VInt 1]]>
  (<[3%nat := Bond.OBond tagged_bond]> ∅))).

End Examples.

(* ================================================================== *)
(** * Part II: properties *)
(* ================================================================== *)

(** ** The stable sort *)

Section StableSort.
Context {A : Type} (lt : A -> A -> bool).

Lemma insert_sorted_perm a l : insert_sorted lt a l ≡ₚ a :: l.
Proof.
  induction l as [|b r IH]; simpl; [done|].
  destruct (lt b a); [|done].
  rewrite IH. apply Permutation_swap.
Qed.

Lemma stable_sort_perm l : stable_sort lt l ≡ₚ l.
Proof.
  induction l as [|a r IH]; simpl; [done|].
  rewrite insert_sorted_perm. by f_equiv.
Qed.

(** Sortedness, for any relation [le] that [lt] decides. *)
Context (le : A -> A -> Prop).
Hypothesis lt_le : forall a b, lt a b = true -> le a b.
Hypothesis not_lt_le : forall a b, lt b a = false -> le a b.

Lemma insert_sorted_HdRel a b l :
  le b a -> HdRel le b l -> HdRel le b (insert_sorted lt a l).
Proof.
  intros Hba Hhd. destruct l as [|c r]; simpl.
  - by constructor.
  - inversion_clear Hhd. destruct (lt c a); by constructor.
Qed.

Lemma insert_sorted_Sorted a l :
  Sorted le l -> Sorted le (insert_sorted lt a l).
Proof.
  induction 1 as [|b r Hs IH Hhd]; simpl.
  - repeat constructor.
  - destruct (lt b a) eqn:Hlt.
    + constructor; [done|]. apply insert_sorted_HdRel; auto.
    + constructor; [by constructor|]. constructor. by apply not_lt_le.
Qed.

Lemma stable_sort_Sorted l : Sorted le (stable_sort lt l).
Proof.
  induction l as [|a r IH]; simpl; [constructor|].
  by apply insert_sorted_Sorted.
Qed.
End StableSort.

Lemma Rltb_true a b : (a < b)%R -> Rltb a b = true.
Proof. unfold Rltb. by destruct (Rlt_dec a b). Qed.

Lemma Rltb_false a b : (b <= a)%R -> Rltb a b = false.
Proof. unfold Rltb. destruct (Rlt_dec a b); [lra|done]. Qed.

Lemma Rltb_spec a b : reflect (a < b)%R (Rltb a b).
Proof. unfold Rltb. destruct (Rlt_dec a b); by constructor. Qed.

(** Nested appending loops enumerate the product in row order. *)
Lemma foldl_snoc_nested {A B C} (f : A -> B -> C) (xs : list A) (ys : list B) acc :
  foldl (fun acc a => foldl (fun acc b => acc ++ [f a b]) acc ys) acc xs
  = acc ++ flat_map (fun a => map (f a) ys) xs.
Proof.
  assert (Hin : forall a acc, foldl (fun acc b => acc ++ [f a b]) acc ys
                              = acc ++ map (f a) ys).
  { intros a. induction ys as [|b r IH]; intros acc'; simpl.
    - by rewrite app_nil_r.
    - by rewrite IH, <- app_assoc. }
  revert acc. induction xs as [|a r IH]; intros acc; simpl.
  - by rewrite app_nil_r.
  - by rewrite Hin, IH, <- app_assoc.
Qed.

Lemma ForallOrdPairs_snoc {A} (R : A -> A -> Prop) l a :
  ForallOrdPairs R l -> Forall (fun b => R b a) l -> ForallOrdPairs R (l ++ [a]).
Proof.
  induction 1 as [|b r Hb Hr IH]; intros Hall; simpl.
  - repeat constructor.
  - inversion_clear Hall. constructor; [|by apply IH].
    apply Forall_app. split; [done|]. by constructor.
Qed.

Lemma ForallOrdPairs_filter {A} (R : A -> A -> Prop) (P : A -> Prop)
    `{!forall a, Decision (P a)} l :
  ForallOrdPairs R l -> ForallOrdPairs R (filter P l).
Proof.
  induction 1 as [|b r Hb Hr IH]; [constructor|].
  rewrite filter_cons. destruct (decide (P b)); [|done].
  constructor; [|done].
  apply Forall_forall. intros c [_ Hc]%list_elem_of_filter.
  by eapply Forall_forall in Hb.
Qed.

(** ** The atom-to-position matcher *)

Section PairFacts.
Import Cage.
Context {BondType : Type}.
Implicit Types (h : heap) (acc : list (atom_id * loc)).

Lemma position_distances_candidates h scale (m : MacroMolecule BondType) vertex :
  position_distances h scale m vertex = pair_candidates h scale m vertex.
Proof.
  unfold position_distances, pair_candidates.
  exact (foldl_snoc_nested
           (fun b p => (Vec.euclidean (atom_coords m b)
                          (Vec.scale scale (coord (h !!! p))), b, p)) _ _ []).
Qed.

Lemma uses_atom_or_position_true acc a p :
  uses_atom_or_position acc a p = true <-> a ∈ acc.*1 \/ p ∈ acc.*2.
Proof.
  unfold uses_atom_or_position. rewrite existsb_exists. split.
  - intros [[a' p'] [Hin Hb]]. apply list_elem_of_In in Hin.
    apply orb_true_iff in Hb as [Hb|Hb]; apply bool_decide_eq_true in Hb; subst.
    + left. apply list_elem_of_fmap. by exists (a, p').
    + right. apply list_elem_of_fmap. by exists (a', p).
  - intros [Hin|Hin]; apply list_elem_of_fmap in Hin as [[a' p'] [-> Hin]];
      exists (a', p'); (split; [by apply list_elem_of_In|]); simpl;
      apply orb_true_iff; [left|right]; by apply bool_decide_eq_true.
Qed.

(** The loop over the sorted options and the rule of the
    specification accept the same pairs, in the same order. *)
Lemma pair_loop_greedy vertex cands : forall st acc v,
  ps_heap st !! vertex = Some v ->
  atom_position_pairs v = acc ->
  (forall a, a ∈ paired_ids st <-> a ∈ acc.*1) ->
  (forall p, p ∈ paired_pos st <-> p ∈ acc.*2) ->
  atom_position_pairs (ps_heap (foldl (pair_step vertex) st cands) !!! vertex)
  = greedy_pairs acc cands.
Proof.
  induction cands as [|[[d a] p] rest IH]; intros st acc v Hv Hacc Hids Hpos; simpl.
  - by rewrite (lookup_total_correct _ _ _ Hv).
  - assert (Hcond : bool_decide (a ∈ paired_ids st) || bool_decide (p ∈ paired_pos st)
                    = uses_atom_or_position acc a p).
    { apply eq_true_iff_eq. rewrite uses_atom_or_position_true, orb_true_iff,
        !bool_decide_eq_true, Hids, Hpos. done. }
    rewrite Hcond. destruct (uses_atom_or_position acc a p).
    + by eapply IH.
    + eapply IH; simpl.
      * rewrite lookup_alter_eq, Hv. reflexivity.
      * simpl. by rewrite Hacc.
      * intros a'. rewrite fmap_app, elem_of_union, elem_of_singleton,
          elem_of_app, Hids. simpl. rewrite list_elem_of_singleton. tauto.
      * intros p'. rewrite fmap_app, elem_of_union, elem_of_singleton,
          elem_of_app, Hpos. simpl. rewrite list_elem_of_singleton. tauto.
Qed.

Lemma pair_loop_dangling vertex cands : forall st,
  ps_heap st !! vertex = None ->
  ps_heap (foldl (pair_step vertex) st cands) !! vertex = None.
Proof.
  induction cands as [|[[d a] p] rest IH]; intros st Hst; simpl; [done|].
  destruct (_ || _); apply IH; [done|]. simpl.
  by rewrite lookup_alter_eq, Hst.
Qed.

(** What [pair_bonders_with_positions] stores on an existing vertex. *)
Lemma pair_bonders_stored h scale (m : MacroMolecule BondType) vertex :
  is_Some (h !! vertex) ->
  atom_position_pairs (pair_bonders_with_positions h scale m vertex !!! vertex)
  = greedy_pairs [] (stable_sort key_lt (pair_candidates h scale m vertex)).
Proof.
  intros [v Hv]. unfold pair_bonders_with_positions.
  rewrite position_distances_candidates.
  eapply pair_loop_greedy; simpl.
  - rewrite lookup_alter_eq, Hv. reflexivity.
  - done.
  - intros a. set_solver.
  - intros p. set_solver.
Qed.

Lemma pair_bonders_dangling h scale (m : MacroMolecule BondType) vertex :
  h !! vertex = None ->
  atom_position_pairs (pair_bonders_with_positions h scale m vertex !!! vertex) = [].
Proof.
  intros Hv. unfold pair_bonders_with_positions.
  rewrite lookup_total_alt, pair_loop_dangling; [done|].
  simpl. by rewrite lookup_alter_eq, Hv.
Qed.

(** The rule never accepts an atom or a position twice. *)
Lemma greedy_pairs_NoDup cands : forall acc,
  NoDup acc.*1 -> NoDup acc.*2 ->
  NoDup (greedy_pairs acc cands).*1 /\ NoDup (greedy_pairs acc cands).*2.
Proof.
  induction cands as [|[[d a] p] rest IH]; intros acc H1 H2; simpl; [done|].
  destruct (uses_atom_or_position acc a p) eqn:Hu; [by apply IH|].
  assert (Hn : ~ (a ∈ acc.*1 \/ p ∈ acc.*2)).
  { rewrite <- uses_atom_or_position_true, Hu. done. }
  apply IH; rewrite fmap_app; simpl; apply NoDup_app; (split; [done|]);
    (split; [|apply NoDup_singleton]);
    intros b Hb ->%list_elem_of_singleton; tauto.
Qed.

Lemma key_lt_by_distance {A B} (a b : R * A * B) :
  key_lt a b = true -> by_distance a b.
Proof. unfold key_lt, by_distance. destruct (Rltb_spec a.1.1 b.1.1); [lra|done]. Qed.

Lemma not_key_lt_by_distance {A B} (a b : R * A * B) :
  key_lt b a = false -> by_distance a b.
Proof. unfold key_lt, by_distance. destruct (Rltb_spec b.1.1 a.1.1); [done|lra]. Qed.
End PairFacts.

Lemma ForallOrdPairs_fmap {A B} (f : A -> B) (R : B -> B -> Prop) l :
  ForallOrdPairs (fun a b => R (f a) (f b)) l <-> ForallOrdPairs R (f <$> l).
Proof.
  induction l as [|a r IH]; simpl.
  - split; constructor.
  - split; inversion_clear 1; constructor;
      try (by apply IH); by apply Forall_fmap.
Qed.

Lemma foldl_concat {A B S} (step : S -> B -> S) (g : A -> list B) (xs : list A) s :
  foldl (fun s a => foldl step s (g a)) s xs = foldl step s (concat (map g xs)).
Proof.
  revert s. induction xs as [|a r IH]; intros s; simpl; [done|].
  by rewrite foldl_app, IH.
Qed.

(** ** The atom-to-atom matcher *)

Section JoinFacts.
Import Cage.
Context {BondType : Type}.
Variable determine_bond_type :
  MacroMolecule BondType -> atom_id -> atom_id -> BondType.
Implicit Types (h : heap) (acc : list (atom_id * atom_id))
  (st : JoinState BondType).

Lemma uses_atom_true acc a :
  uses_atom acc a = true <-> a ∈ acc.*1 \/ a ∈ acc.*2.
Proof.
  unfold uses_atom. rewrite existsb_exists. split.
  - intros [[a1 a2] [Hin Hb]]. apply list_elem_of_In in Hin.
    apply orb_true_iff in Hb as [Hb|Hb]; apply bool_decide_eq_true in Hb; subst.
    + left. apply list_elem_of_fmap. by exists (a, a2).
    + right. apply list_elem_of_fmap. by exists (a1, a).
  - intros [Hin|Hin]; apply list_elem_of_fmap in Hin as [[a1 a2] [-> Hin]];
      exists (a1, a2); (split; [by apply list_elem_of_In|]); simpl;
      apply orb_true_iff; [left|right]; by apply bool_decide_eq_true.
Qed.

Lemma uses_atom_false acc a :
  uses_atom acc a = false -> Forall (fun b => b.1 <> a /\ b.2 <> a) acc.
Proof.
  intros Hu. apply Forall_forall. intros [a1 a2] Hin. simpl.
  assert (Hn : ~ (a ∈ acc.*1 \/ a ∈ acc.*2)).
  { rewrite <- uses_atom_true, Hu. done. }
  split; intros ->; apply Hn; [left|right];
    apply list_elem_of_fmap; by eexists (_, _).
Qed.

(** The bonding loop and the rule of the specification accept the
    same atom pairs; [bonds_made] counts them. *)
Lemma join_loop_greedy cands : forall st old nb n0,
  editable_mol st = old ++ nb ->
  bonds_made (js_mol st) = n0 + length nb ->
  (forall a, a ∈ paired st <-> a ∈ nb.*1.*1 \/ a ∈ nb.*1.*2) ->
  exists nb',
    editable_mol (foldl (join_step determine_bond_type) st cands) = old ++ nb'
    /\ nb'.*1 = greedy_bonds nb.*1 cands
    /\ bonds_made (js_mol (foldl (join_step determine_bond_type) st cands))
       = n0 + length nb'.
Proof.
  induction cands as [|[[d a1] a2] rest IH]; intros st old nb n0 Hed Hn Hp; simpl.
  - by exists nb.
  - assert (Hcond : bool_decide (a1 ∈ paired st) || bool_decide (a2 ∈ paired st)
                    = uses_atom nb.*1 a1 || uses_atom nb.*1 a2).
    { apply eq_true_iff_eq.
      rewrite !orb_true_iff, !uses_atom_true, !bool_decide_eq_true, !Hp. done. }
    rewrite Hcond. destruct (uses_atom nb.*1 a1 || uses_atom nb.*1 a2).
    + by apply IH.
    + set (b := (a1, a2, determine_bond_type (js_mol st) a1 a2)).
      destruct (IH (mkJoinState ({[a2]} ∪ ({[a1]} ∪ paired st))
                      (editable_mol st ++ [b])
                      (set_bonds_made (S (bonds_made (js_mol st))) (js_mol st)))
                   old (nb ++ [b]) n0) as (nb' & He & Hg & Hm); simpl.
      * by rewrite Hed, <- app_assoc.
      * rewrite Hn, length_app. simpl. lia.
      * intros a. rewrite !fmap_app, !elem_of_union, !elem_of_singleton,
          !elem_of_app, Hp. simpl. rewrite !list_elem_of_singleton. tauto.
      * exists nb'. rewrite fmap_app in Hg. done.
Qed.

Lemma greedy_bonds_apart cands : forall acc,
  ForallOrdPairs pair_apart acc ->
  ForallOrdPairs pair_apart (greedy_bonds acc cands).
Proof.
  induction cands as [|[[d a1] a2] rest IH]; intros acc Hacc; simpl; [done|].
  destruct (uses_atom acc a1) eqn:H1; simpl; [by apply IH|].
  destruct (uses_atom acc a2) eqn:H2; simpl; [by apply IH|].
  apply IH, ForallOrdPairs_snoc; [done|].
  apply uses_atom_false in H1, H2.
  apply Forall_forall. intros b Hb.
  eapply Forall_forall in H1, H2; [|done..].
  unfold pair_apart. simpl. tauto.
Qed.

Lemma make_bonds_concat h positions_A st :
  make_bonds determine_bond_type h positions_A st
  = foldl (join_step determine_bond_type) st
      (concat (map (fun p => stable_sort tuple_lt (distances (h !!! p)))
                   positions_A)).
Proof. unfold make_bonds. apply foldl_concat. Qed.

(** What [join_mols] adds to the molecule, whatever it was given. *)
Lemma join_mols_new_bonds h (m : MacroMolecule BondType) positions_A :
  let r := join_mols determine_bond_type h m positions_A in
  mol_bonds (jr_mol r) = mol_bonds m ++ new_bonds m r
  /\ (new_bonds m r).*1
     = greedy_bonds []
         (concat (map (fun p => stable_sort tuple_lt (distances (jr_heap r !!! p)))
                      positions_A))
  /\ bonds_made (jr_mol r) = length (new_bonds m r).
Proof.
  simpl. unfold new_bonds, join_mols. simpl.
  rewrite make_bonds_concat.
  edestruct (join_loop_greedy
    (concat (map (fun p => stable_sort tuple_lt
               (distances (record_distances h (set_bonds_made 0 m) positions_A !!! p)))
             positions_A))
    (mkJoinState ∅ (mol_bonds m) (set_bonds_made 0 m)) (mol_bonds m) [] 0)
    as (nb' & He & Hg & Hm); simpl.
  - by rewrite app_nil_r.
  - done.
  - intros a. set_solver.
  - rewrite He, Hm, drop_app_length. done.
Qed.
End JoinFacts.

(** ** The distances [join_mols] records *)

Section RecordFacts.
Import Cage.
Context {BondType : Type}.
Implicit Types (h : heap) (m : MacroMolecule BondType).

Lemma lookup_total_set_distances f q h l :
  let v' := alter (set_distances f) q h !!! l in
  let v := h !!! l in
  coord v' = coord v /\ connected v' = connected v
  /\ bonder_ids v' = bonder_ids v
  /\ atom_position_pairs v' = atom_position_pairs v.
Proof.
  simpl. rewrite lookup_total_alter, (lookup_total_alt h).
  case_decide; subst; [|done]. by destruct (h !! l).
Qed.

Lemma bond_candidates_set_distances f q h m p :
  bond_candidates (alter (set_distances f) q h) m p = bond_candidates h m p.
Proof.
  unfold bond_candidates.
  destruct (lookup_total_set_distances f q h p) as (_ & _ & _ & ->).
  apply flat_map_ext. intros [a v].
  by destruct (lookup_total_set_distances f q h v) as (_ & _ & -> & _).
Qed.

Lemma record_distances_fold h m positions_A :
  record_distances h m positions_A = foldl (record_position m) h positions_A.
Proof. reflexivity. Qed.

Lemma record_atom h m position a ids L :
  foldl (fun h atom2_id =>
           alter (set_distances
                    (fun l => l ++ [(atom_distance m a atom2_id, a, atom2_id)]))
                 position h)
        (alter (set_distances (fun l => l ++ L)) position h) ids
  = alter (set_distances
             (fun l => l ++ (L ++ map (fun b => (atom_distance m a b, a, b)) ids)))
          position h.
Proof.
  revert L. induction ids as [|b r IH]; intros L; simpl.
  - by rewrite app_nil_r.
  - rewrite alter_alter_eq.
    rewrite (alter_ext _ (set_distances (fun l => l ++ (L ++ [(atom_distance m a b, a, b)])))).
    + rewrite IH. by rewrite <- app_assoc.
    + intros v _. unfold set_distances. simpl. by rewrite <- app_assoc.
Qed.

Lemma record_position_alter h m position :
  record_position m h position
  = alter (set_distances (fun l => l ++ bond_candidates h m position)) position h.
Proof.
  unfold record_position, bond_candidates.
  assert (Hgen : forall pairs L,
    foldl (fun h '(atom_id, vertex) =>
      foldl (fun h atom2_id =>
               alter (set_distances
                        (fun l => l ++ [(atom_distance m atom_id atom2_id,
                                         atom_id, atom2_id)]))
                     position h)
            h (bonder_ids (h !!! vertex)))
      (alter (set_distances (fun l => l ++ L)) position h) pairs
    = alter (set_distances
               (fun l => l ++ (L ++ flat_map
                  (fun '(a, v) => map (fun b => (atom_distance m a b, a, b))
                                      (bonder_ids (h !!! v))) pairs)))
            position h).
  { induction pairs as [|[a v] r IH]; intros L; simpl.
    - by rewrite app_nil_r.
    - destruct (lookup_total_set_distances (fun l => l ++ L) position h v)
        as (_ & _ & -> & _).
      rewrite record_atom, IH. by rewrite <- app_assoc. }
  specialize (Hgen (atom_position_pairs (h !!! position)) []).
  simpl in Hgen. rewrite <- Hgen. f_equal.
  symmetry. apply alter_id. intros [] _. unfold set_distances. simpl.
  by rewrite app_nil_r.
Qed.

Lemma record_distances_frame positions : forall h m p,
  p ∉ positions -> record_distances h m positions !!! p = h !!! p.
Proof.
  induction positions as [|q r IH]; intros h m p Hp; [done|].
  rewrite record_distances_fold. simpl. rewrite <- record_distances_fold.
  rewrite IH by set_solver.
  rewrite record_position_alter, lookup_total_alter_ne; [done|set_solver].
Qed.

Lemma bond_candidates_record positions : forall h m p,
  bond_candidates (record_distances h m positions) m p = bond_candidates h m p.
Proof.
  induction positions as [|q r IH]; intros h m p; [done|].
  rewrite record_distances_fold. simpl. rewrite <- record_distances_fold.
  by rewrite IH, record_position_alter, bond_candidates_set_distances.
Qed.

(** After the first loop a position holds, behind what it held before,
    exactly its candidates. *)
Lemma record_distances_spec positions : forall h m,
  NoDup positions ->
  (forall p, p ∈ positions -> is_Some (h !! p)) ->
  forall p, p ∈ positions ->
    distances (record_distances h m positions !!! p)
    = distances (h !!! p) ++ bond_candidates h m p.
Proof.
  induction positions as [|q r IH]; intros h m Hnd Hall p Hp; [set_solver|].
  apply NoDup_cons in Hnd as [Hq Hnd].
  rewrite record_distances_fold. simpl. rewrite <- record_distances_fold.
  rewrite record_position_alter.
  destruct (decide (p = q)) as [->|Hne].
  - rewrite record_distances_frame by done.
    destruct (Hall q) as [v Hv]; [set_solver|].
    rewrite lookup_total_alter_eq, (lookup_total_alt h), Hv. done.
  - rewrite IH; [|done| |set_solver].
    + rewrite bond_candidates_set_distances.
      by rewrite lookup_total_alter_ne.
    + intros p' Hp'. rewrite lookup_alter_is_Some. apply Hall. set_solver.
Qed.
End RecordFacts.

(** ** Counting bonds *)

Section BondCount.
Import Cage.
Context {T : Type}.
Implicit Types (bs : list (atom_id * atom_id * T)) (ids : list atom_id).

Lemma joins_sym ids_p ids_q (b : atom_id * atom_id * T) :
  joins ids_p ids_q b = joins ids_q ids_p b.
Proof.
  unfold joins. rewrite orb_comm.
  by rewrite (andb_comm (bool_decide (b.1.1 ∈ ids_q))),
             (andb_comm (bool_decide (b.1.1 ∈ ids_p))).
Qed.

(** Choosing one atom from each of pairwise disjoint bonds never picks
    an atom twice. *)
Lemma apart_choice_NoDup (f : atom_id * atom_id * T -> atom_id) bs :
  (forall b, f b = b.1.1 \/ f b = b.1.2) ->
  ForallOrdPairs atoms_apart bs -> NoDup (f <$> bs).
Proof.
  intros Hf. induction 1 as [|b r Hb Hr IH]; simpl; constructor; [|done].
  intros (b' & Heq & Hin)%list_elem_of_fmap.
  eapply Forall_forall in Hb; [|done].
  destruct Hb as (H1 & H2 & H3 & H4).
  destruct (Hf b) as [Eb|Eb], (Hf b') as [Eb'|Eb']; congruence.
Qed.

Lemma bonds_joining_le ids_p ids_q bs :
  ForallOrdPairs atoms_apart bs ->
  length (filter (fun b => joins ids_p ids_q b) bs) <= length ids_p.
Proof.
  intros Hap.
  set (f := fun b : atom_id * atom_id * T =>
              if bool_decide (b.1.1 ∈ ids_p) then b.1.1 else b.1.2).
  set (l := filter (fun b => joins ids_p ids_q b) bs).
  rewrite <- (length_fmap f l).
  apply submseteq_length, NoDup_submseteq.
  - apply apart_choice_NoDup.
    + intros b. unfold f. destruct (bool_decide _); auto.
    + by apply ForallOrdPairs_filter.
  - intros a (b & -> & [Hj _]%list_elem_of_filter)%list_elem_of_fmap.
    unfold f. destruct (bool_decide (b.1.1 ∈ ids_p)) eqn:E.
    + by apply bool_decide_eq_true in E.
    + unfold joins in Hj. rewrite E in Hj. simpl in Hj.
      apply Is_true_true, andb_true_iff in Hj as [_ Hj].
      by apply bool_decide_eq_true in Hj.
Qed.

Lemma bonds_across_le h p q bs :
  ForallOrdPairs atoms_apart bs ->
  length (bonds_across h p q bs)
  <= Nat.min (length (bonder_ids (h !!! p))) (length (bonder_ids (h !!! q))).
Proof.
  intros Hap. unfold bonds_across. apply Nat.min_glb.
  - by apply bonds_joining_le.
  - erewrite list_filter_iff; [by apply (bonds_joining_le _ (bonder_ids (h !!! p)))|].
    intros b. by rewrite joins_sym.
Qed.
End BondCount.

Section CageTheorems.
Import Cage.
Context {BondType : Type}.
Variable determine_bond_type :
  MacroMolecule BondType -> atom_id -> atom_id -> BondType.

Lemma new_bonds_apart h (m : MacroMolecule BondType) positions_A :
  ForallOrdPairs atoms_apart
    (new_bonds m (join_mols determine_bond_type h m positions_A)).
Proof.
  destruct (join_mols_new_bonds determine_bond_type h m positions_A)
    as (_ & Hg & _).
  unfold atoms_apart.
  apply (ForallOrdPairs_fmap fst pair_apart). rewrite Hg.
  apply greedy_bonds_apart. constructor.
Qed.

Lemma join_mols_bonder_ids h (m : MacroMolecule BondType) positions_A l :
  bonder_ids (jr_heap (join_mols determine_bond_type h m positions_A) !!! l)
  = bonder_ids (h !!! l).
Proof.
  unfold join_mols. simpl.
  generalize (set_bonds_made 0 m). intros m'. revert h.
  induction positions_A as [|q r IH]; intros h; [done|].
  rewrite record_distances_fold. simpl. rewrite <- record_distances_fold.
  rewrite IH, record_position_alter.
  by destruct (lookup_total_set_distances
                 (fun l0 => l0 ++ bond_candidates h m' q) q h l) as (_ & _ & -> & _).
Qed.

(** C1 (pairing bijectivity).  Whatever the store, the scale and the
    molecule: in the atom-position pairs that
    [pair_bonders_with_positions] leaves on a vertex no atom id and no
    position occurs twice; and any two of the bonds that [join_mols]
    adds have no atom in common.  So an atom is paired with at most
    one position and gets at most one new bond. *)
Theorem pairing_bijectivity h scale (m : MacroMolecule BondType) vertex positions_A :
  let pairs :=
    atom_position_pairs (pair_bonders_with_positions h scale m vertex !!! vertex) in
  let bonds := new_bonds m (join_mols determine_bond_type h m positions_A) in
  NoDup pairs.*1 /\ NoDup pairs.*2 /\ ForallOrdPairs atoms_apart bonds.
Proof.
  cbv zeta.
  enough (Hpairs :
    NoDup (atom_position_pairs
             (pair_bonders_with_positions h scale m vertex !!! vertex)).*1
    /\ NoDup (atom_position_pairs
                (pair_bonders_with_positions h scale m vertex !!! vertex)).*2).
  { destruct Hpairs. repeat split; [done..|apply new_bonds_apart]. }
  destruct (h !! vertex) as [v|] eqn:Hv.
  - rewrite pair_bonders_stored by done.
    apply greedy_pairs_NoDup; constructor.
  - rewrite pair_bonders_dangling by done. split; constructor.
Qed.

(** C3 (bond count).  After [join_mols], [bonds_made] is the number of
    atom pairs the greedy matcher consumed, which is the number of
    bonds added; and the bonds added between the atoms of any two
    positions are at most as many as the bonder atoms of either. *)
Theorem bond_count h (m : MacroMolecule BondType) positions_A :
  let r := join_mols determine_bond_type h m positions_A in
  bonds_made (jr_mol r)
  = length (greedy_bonds []
      (concat (map (fun p => stable_sort tuple_lt (distances (jr_heap r !!! p)))
                   positions_A)))
  /\ bonds_made (jr_mol r) = length (new_bonds m r)
  /\ forall p q,
       length (bonds_across h p q (new_bonds m r))
       <= Nat.min (length (bonder_ids (h !!! p))) (length (bonder_ids (h !!! q))).
Proof.
  cbv zeta.
  destruct (join_mols_new_bonds determine_bond_type h m positions_A)
    as (_ & Hg & Hm).
  split; [|split; [done|]].
  - by rewrite <- Hg, length_fmap.
  - intros p q. apply bonds_across_le, new_bonds_apart.
Qed.
End CageTheorems.

(** ** Ascending orders *)


Lemma by_distance_trans {A B} :
  Relations_1.Transitive (@Cage.by_distance A B).
Proof. intros a b c. unfold Cage.by_distance. lra. Qed.

Lemma tuple_lt_lt d1 a1 b1 d2 a2 b2 :
  (d1 < d2)%R -> Cage.tuple_lt (d1, a1, b1) (d2, a2, b2) = true.
Proof. intros. unfold Cage.tuple_lt. rewrite decide_False by lra. by apply Rltb_true. Qed.

Lemma tuple_lt_gt d1 a1 b1 d2 a2 b2 :
  (d2 < d1)%R -> Cage.tuple_lt (d1, a1, b1) (d2, a2, b2) = false.
Proof.
  intros. unfold Cage.tuple_lt. rewrite decide_False by lra.
  apply Rltb_false. lra.
Qed.



(** Evaluation of a sort of tuples with distinct, known distances. *)
Ltac sort_tuples :=
  unfold stable_sort; cbn [foldr insert_sorted];
  repeat (match goal with
          | |- context [Cage.tuple_lt (?d1, ?a1, ?b1) (?d2, ?a2, ?b2)] =>
              first [rewrite (tuple_lt_lt d1 a1 b1 d2 a2 b2) by lra
                    |rewrite (tuple_lt_gt d1 a1 b1 d2 a2 b2) by lra]
          end; cbn [insert_sorted]).

Section MatchingTheorems.
Import Cage.
Context {BondType : Type}.
Variable determine_bond_type :
  MacroMolecule BondType -> atom_id -> atom_id -> BondType.

(** With the distances flushed (as [place_mol] leaves them),
    [join_mols] consumes, position after position, the sorted
    candidates of that position. *)
Lemma join_mols_per_position h (m : MacroMolecule BondType) positions_A :
  NoDup positions_A ->
  (forall p, p ∈ positions_A -> exists v, h !! p = Some v /\ distances v = []) ->
  (new_bonds m (join_mols determine_bond_type h m positions_A)).*1
  = greedy_bonds []
      (concat (map (fun p => stable_sort tuple_lt (bond_candidates h m p))
                   positions_A)).
Proof.
  intros Hnd Hall.
  destruct (join_mols_new_bonds determine_bond_type h m positions_A)
    as (_ & -> & _).
  do 2 f_equal. apply map_ext_in. intros p Hp%list_elem_of_In.
  f_equal. unfold join_mols. simpl.
  rewrite record_distances_spec; [|done| |done].
  - destruct (Hall p Hp) as (v & Hv & Hd).
    by rewrite (lookup_total_correct _ _ _ Hv), Hd.
  - intros q Hq. destruct (Hall q Hq) as (v & Hv & _). by exists v.
Qed.

End MatchingTheorems.

Lemma line_heap_flushed p :
  p ∈ [0; 1] ->
  exists v, Examples.line_heap !! p = Some v /\ Cage.distances v = [].
Proof.
  intros [->|[->|[]%elem_of_nil]%elem_of_cons]%elem_of_cons;
    eexists; (split; [reflexivity|reflexivity]).
Qed.



(** ** Atoms left without a bond *)

Section Unpaired.
Import Cage.
Context {T : Type}.
Implicit Types (bs : list (atom_id * atom_id * T)) (ids : list atom_id).

Lemma bonded_with_links ids bs a :
  bonded_with ids bs a = true -> exists b c, b ∈ bs /\ c ∈ ids /\ links b a c.
Proof.
  unfold bonded_with. rewrite existsb_exists.
  intros (b & Hb%list_elem_of_In & Hl). unfold links.
  apply orb_true_iff in Hl as [Hl|Hl]; apply andb_true_iff in Hl as [H1 H2];
    apply bool_decide_eq_true in H1, H2; eauto 8.
Qed.

Lemma links_partner bs b b' a a' c :
  ForallOrdPairs atoms_apart bs -> b ∈ bs -> b' ∈ bs ->
  links b a c -> links b' a' c -> a = a'.
Proof.
  intros Hap Hb%list_elem_of_In Hb'%list_elem_of_In Hl Hl'.
  destruct (ForallOrdPairs_In Hap _ _ Hb Hb') as [->|[Hx|Hx]];
    unfold atoms_apart, pair_apart, links in *; intuition congruence.
Qed.

Lemma partners_exist ids bs l :
  ForallOrdPairs atoms_apart bs -> NoDup l ->
  (forall a, a ∈ l -> bonded_with ids bs a = true) ->
  exists l', length l' = length l /\ NoDup l'
             /\ forall c, c ∈ l' ->
                  c ∈ ids /\ exists a b, a ∈ l /\ b ∈ bs /\ links b a c.
Proof.
  intros Hap. induction 1 as [|a r Ha Hr IH]; intros Hall.
  - exists []. split; [done|]. split; [constructor|]. intros c []%elem_of_nil.
  - destruct IH as (l' & Hlen & Hnd & Hl'); [intros; apply Hall; by right|].
    destruct (bonded_with_links ids bs a) as (b & c & Hb & Hc & Hl);
      [apply Hall; left|].
    exists (c :: l'). split; [simpl; by rewrite Hlen|]. split.
    + constructor; [|done]. intros Hin.
      destruct (Hl' c Hin) as (_ & a' & b' & Ha' & Hb' & Hlk).
      assert (a = a') by eauto using links_partner. by subst.
    + intros c' [->|Hc']%elem_of_cons.
      * split; [done|]. exists a, b. repeat split; [left|done..].
      * destruct (Hl' c' Hc') as (? & a' & b' & ? & ? & ?).
        split; [done|]. exists a', b'. repeat split; [by right|done..].
Qed.

Lemma bonded_le ids_p ids_q bs :
  ForallOrdPairs atoms_apart bs -> NoDup ids_q ->
  length (filter (fun a => bonded_with ids_p bs a) ids_q) <= length ids_p.
Proof.
  intros Hap Hnd.
  destruct (partners_exist ids_p bs
              (filter (fun a => bonded_with ids_p bs a) ids_q))
    as (l' & <- & Hnd' & Hl'); [done|by apply NoDup_filter| |].
  - intros a [Ha _]%list_elem_of_filter. by apply Is_true_true.
  - apply submseteq_length, NoDup_submseteq; [done|]. intros c Hc.
    by destruct (Hl' c Hc).
Qed.

Lemma unbonded_ge ids_p ids_q bs :
  ForallOrdPairs atoms_apart bs -> NoDup ids_q ->
  length ids_q - length ids_p
  <= length (filter (fun a => negb (bonded_with ids_p bs a)) ids_q).
Proof.
  intros Hap Hnd. pose proof (bonded_le ids_p ids_q bs Hap Hnd) as Hle.
  pose proof (filter_app_complement
                (fun a => bonded_with ids_p bs a) ids_q) as Hp.
  apply Permutation_length in Hp. rewrite length_app in Hp.
  erewrite (list_filter_iff (fun a => negb (bonded_with ids_p bs a))
              (fun a => ~ bonded_with ids_p bs a)).
  - lia.
  - intros a. apply negb_True.
Qed.
End Unpaired.

(** ** [join_mols] and the exceptions of rdkit *)

Section RdkitFacts.
Import Cage.
Context {BondType : Type}.
Variable determine_bond_type :
  MacroMolecule BondType -> atom_id -> atom_id -> BondType.
Implicit Types (h : heap) (m : MacroMolecule BondType)
  (st : JoinState BondType) (bs : list (atom_id * atom_id * BondType)).

Lemma GetBondBetweenAtoms_app bs bs' a1 a2 :
  Rdkit.GetBondBetweenAtoms (bs ++ bs') a1 a2
  = Rdkit.GetBondBetweenAtoms bs a1 a2 || Rdkit.GetBondBetweenAtoms bs' a1 a2.
Proof. apply existsb_app. Qed.

Lemma GetBondBetweenAtoms_unused bs a1 a2 :
  ~ (a1 ∈ bs.*1.*1 \/ a1 ∈ bs.*1.*2) ->
  Rdkit.GetBondBetweenAtoms bs a1 a2 = false.
Proof.
  intros Hn. apply not_true_is_false. intros Hb. apply Hn.
  apply existsb_exists in Hb as ([[b1 b2] t] & Hin%list_elem_of_In & Hb).
  simpl in Hb.
  apply orb_true_iff in Hb as [Hb|Hb]; apply andb_true_iff in Hb as [H1 H2];
    apply bool_decide_eq_true in H1, H2; subst.
  - left. apply list_elem_of_fmap. exists (a1, a2). split; [done|].
    apply list_elem_of_fmap. by exists (a1, a2, t).
  - right. apply list_elem_of_fmap. exists (a2, a1). split; [done|].
    apply list_elem_of_fmap. by exists (a2, a1, t).
Qed.

Lemma AddBond_inr bs a1 a2 t bs' :
  Rdkit.AddBond bs a1 a2 t = inr bs'
  <-> (a1 <> a2 /\ Rdkit.GetBondBetweenAtoms bs a1 a2 = false)
      /\ bs' = bs ++ [(a1, a2, t)].
Proof.
  unfold Rdkit.AddBond. case_bool_decide as Heq; simpl.
  - split; [done|]. by intros [[] _].
  - destruct (Rdkit.GetBondBetweenAtoms bs a1 a2).
    + split; [done|]. by intros [[] _].
    + split; [by intros [= <-]|by intros [_ ->]].
Qed.

Lemma greedy_bonds_keeps cands : forall acc b,
  b ∈ acc -> b ∈ greedy_bonds acc cands.
Proof.
  induction cands as [|[[d a1] a2] rest IH]; intros acc b Hb; simpl; [done|].
  destruct (uses_atom acc a1 || uses_atom acc a2); apply IH; [done|].
  apply elem_of_app. by left.
Qed.

Lemma greedy_bonds_from cands : forall acc a1 a2,
  (a1, a2) ∈ greedy_bonds acc cands ->
  (a1, a2) ∈ acc \/ exists d, (d, a1, a2) ∈ cands.
Proof.
  induction cands as [|[[d b1] b2] rest IH]; intros acc a1 a2 Hin; simpl in Hin.
  - by left.
  - destruct (uses_atom acc b1 || uses_atom acc b2).
    + destruct (IH _ _ _ Hin) as [?|[d' ?]]; [by left|].
      right. exists d'. by right.
    + destruct (IH _ _ _ Hin) as [Hacc|[d' ?]].
      * apply elem_of_app in Hacc as [?|Hx]; [by left|].
        apply list_elem_of_singleton in Hx as [= -> ->].
        right. exists d. by left.
      * right. exists d'. by right.
Qed.

Lemma bond_position_app cands cands' : forall st,
  Rdkit.bond_position determine_bond_type st (cands ++ cands')
  = match Rdkit.bond_position determine_bond_type st cands with
    | inl raised => inl raised
    | inr st => Rdkit.bond_position determine_bond_type st cands'
    end.
Proof.
  induction cands as [|[[d a1] a2] rest IH]; intros st; simpl; [done|].
  destruct (bool_decide (a1 ∈ paired st) || bool_decide (a2 ∈ paired st));
    [apply IH|].
  destruct (Rdkit.AddBond _ _ _ _); [done|apply IH].
Qed.

Lemma make_bonds_checked_concat h positions_A : forall st,
  Rdkit.make_bonds determine_bond_type h positions_A st
  = Rdkit.bond_position determine_bond_type st
      (concat (map (fun p => stable_sort tuple_lt (distances (h !!! p)))
                   positions_A)).
Proof.
  induction positions_A as [|p r IH]; intros st; simpl; [done|].
  rewrite bond_position_app.
  destruct (Rdkit.bond_position _ _ _); [done|apply IH].
Qed.

(** The two bonding loops agree for as long as [AddBond] accepts; it
    accepts exactly the pairs that are no self pairs and not bonded in
    the molecule [join_mols] was given. *)
Lemma bond_position_cases cands : forall st old nb,
  editable_mol st = old ++ nb ->
  (forall a, a ∈ paired st <-> a ∈ nb.*1.*1 \/ a ∈ nb.*1.*2) ->
  Forall (Rdkit.addable old) nb.*1 ->
  match Rdkit.bond_position determine_bond_type st cands with
  | inr st' =>
      st' = foldl (join_step determine_bond_type) st cands
      /\ Forall (Rdkit.addable old) (greedy_bonds nb.*1 cands)
  | inl (e, st') =>
      ~ Forall (Rdkit.addable old) (greedy_bonds nb.*1 cands)
      /\ mol_bonds (js_mol st') = mol_bonds (js_mol st)
  end.
Proof.
  induction cands as [|[[d a1] a2] rest IH]; intros st old nb Hed Hp Hok;
    simpl; [done|].
  assert (Hcond : bool_decide (a1 ∈ paired st) || bool_decide (a2 ∈ paired st)
                  = uses_atom nb.*1 a1 || uses_atom nb.*1 a2).
  { apply eq_true_iff_eq.
    rewrite !orb_true_iff, !uses_atom_true, !bool_decide_eq_true, !Hp. done. }
  rewrite Hcond.
  destruct (uses_atom nb.*1 a1 || uses_atom nb.*1 a2) eqn:Hu; [by apply IH|].
  apply orb_false_iff in Hu as [Hu1 _].
  assert (Hn1 : ~ (a1 ∈ nb.*1.*1 \/ a1 ∈ nb.*1.*2)).
  { rewrite <- uses_atom_true, Hu1. done. }
  set (b := (a1, a2, determine_bond_type (js_mol st) a1 a2)).
  assert (Hsame : Rdkit.GetBondBetweenAtoms (editable_mol st) a1 a2
                  = Rdkit.GetBondBetweenAtoms old a1 a2).
  { rewrite Hed, GetBondBetweenAtoms_app,
      (GetBondBetweenAtoms_unused nb) by done. apply orb_false_r. }
  destruct (Rdkit.AddBond (editable_mol st) a1 a2
              (determine_bond_type (js_mol st) a1 a2)) as [e|bonds] eqn:Hadd.
  - destruct e. split; [|done]. intros Hall.
    assert (Hb : Rdkit.addable old (a1, a2)).
    { apply (proj1 (Forall_forall _ _) Hall (a1, a2)).
      apply greedy_bonds_keeps, elem_of_app. right. by left. }
    unfold Rdkit.addable in Hb. simpl in Hb. rewrite <- Hsame in Hb.
    assert (Hr : Rdkit.AddBond (editable_mol st) a1 a2
                   (determine_bond_type (js_mol st) a1 a2)
                 = inr (editable_mol st ++ [b])) by by apply AddBond_inr.
    congruence.
  - apply AddBond_inr in Hadd as [[Hne Hnb] ->]. rewrite Hsame in Hnb.
    specialize (IH (mkJoinState ({[a2]} ∪ ({[a1]} ∪ paired st))
                      (editable_mol st ++ [b])
                      (set_bonds_made (S (bonds_made (js_mol st))) (js_mol st)))
                   old (nb ++ [b])).
    rewrite fmap_app in IH. simpl in IH.
    apply IH.
    + by rewrite Hed, <- app_assoc.
    + intros a. rewrite !fmap_app, !elem_of_union, !elem_of_singleton,
        !elem_of_app, Hp. simpl. rewrite !list_elem_of_singleton. tauto.
    + apply Forall_app. split; [done|]. by constructor.
Qed.

(** The candidates the bonding loop reads are those the positions held
    before and those the first loop records. *)
Lemma elem_of_record_distances positions : forall h m p x,
  x ∈ distances (record_distances h m positions !!! p) ->
  x ∈ distances (h !!! p) \/ (p ∈ positions /\ x ∈ bond_candidates h m p).
Proof.
  induction positions as [|q r IH]; intros h m p x Hx; [by left|].
  rewrite record_distances_fold in Hx. simpl in Hx.
  rewrite <- record_distances_fold in Hx.
  apply IH in Hx as [Hx|[Hp Hx]].
  - rewrite record_position_alter in Hx.
    rewrite lookup_total_alt, lookup_alter in Hx.
    rewrite (lookup_total_alt h).
    destruct (decide (q = p)) as [->|Hne].
    + destruct (h !! p) as [v|]; simpl in *; [|by left].
      apply elem_of_app in Hx as [?|?]; [by left|].
      right. split; [left|done].
    + by left.
  - rewrite record_position_alter, bond_candidates_set_distances in Hx.
    right. split; [by right|done].
Qed.

(** [join_mols] returns exactly when every bond of the loop is one
    that [AddBond] accepts on the molecule it was given; the result is
    then that of the loop.  An exception leaves the bonds of the
    molecule as they were. *)
Lemma join_mols_cases h m positions_A :
  let total := join_mols determine_bond_type h m positions_A in
  match Rdkit.join_mols determine_bond_type h m positions_A with
  | inr r => r = total /\ Forall (Rdkit.addable (mol_bonds m)) (new_bonds m total).*1
  | inl (e, r) =>
      ~ Forall (Rdkit.addable (mol_bonds m)) (new_bonds m total).*1
      /\ mol_bonds (jr_mol r) = mol_bonds m
      /\ jr_heap r = jr_heap total
      /\ jr_warnings r = []
  end.
Proof.
  cbv zeta.
  destruct (join_mols_new_bonds determine_bond_type h m positions_A)
    as (_ & -> & _).
  unfold Rdkit.join_mols, join_mols. simpl.
  rewrite make_bonds_checked_concat, make_bonds_concat.
  pose proof (bond_position_cases
    (concat (map (fun p => stable_sort tuple_lt
               (distances (record_distances h (set_bonds_made 0 m) positions_A !!! p)))
             positions_A))
    (mkJoinState ∅ (mol_bonds m) (set_bonds_made 0 m)) (mol_bonds m) []
    (eq_sym (app_nil_r _)) ltac:(set_solver) (Forall_nil_2 _)) as Hc.
  simpl in Hc.
  destruct (Rdkit.bond_position _ _ _) as [[e st']|st'].
  - destruct Hc as [Hn Hm]. by split_and!.
  - destruct Hc as [-> Hall]. by split.
Qed.

(** Every bond of the loop comes from a candidate of a position. *)
Lemma new_bonds_from_candidates h m positions_A a1 a2 :
  (a1, a2) ∈ (new_bonds m (join_mols determine_bond_type h m positions_A)).*1 ->
  exists p d, p ∈ positions_A
    /\ (d, a1, a2) ∈ distances (h !!! p) ++ bond_candidates h m p.
Proof.
  destruct (join_mols_new_bonds determine_bond_type h m positions_A)
    as (_ & -> & _).
  intros [[]%elem_of_nil|[d Hd]]%greedy_bonds_from.
  apply list_elem_of_In, in_concat in Hd as (cs & Hcs & Hd).
  apply in_map_iff in Hcs as (p & <- & Hp).
  apply list_elem_of_In in Hd, Hp.
  rewrite stable_sort_perm in Hd. unfold join_mols in Hd. simpl in Hd.
  exists p, d. split; [done|]. apply elem_of_app.
  apply elem_of_record_distances in Hd as [?|[_ ?]]; [by left|by right].
Qed.

(** [join_mols] returns when no candidate is a self pair or a pair of
    atoms the molecule has bonded already. *)
Lemma join_mols_returns h m positions_A :
  (forall p d a1 a2, p ∈ positions_A ->
     (d, a1, a2) ∈ distances (h !!! p) ++ bond_candidates h m p ->
     a1 <> a2 /\ Rdkit.GetBondBetweenAtoms (mol_bonds m) a1 a2 = false) ->
  Rdkit.join_mols determine_bond_type h m positions_A
  = inr (join_mols determine_bond_type h m positions_A).
Proof.
  intros Hall.
  pose proof (join_mols_cases h m positions_A) as Hc. cbv zeta in Hc.
  destruct (Rdkit.join_mols _ _ _ _) as [[e r]|r].
  - destruct Hc as [Hn _]. destruct Hn.
    apply Forall_forall. intros [a1 a2] Hin. simpl.
    apply new_bonds_from_candidates in Hin as (p & d & Hp & Hd).
    apply (Hall p d a1 a2 Hp Hd).
  - by destruct Hc as [-> _].
Qed.
End RdkitFacts.

Section Stoichiometry.
Import Cage.
Context {BondType : Type}.
Variable determine_bond_type :
  MacroMolecule BondType -> atom_id -> atom_id -> BondType.

(** C5 (stoichiometry mismatch), as the code has it.  [join_mols]
    returns when no candidate pair it reads (held by a position of
    [positions_A] before the call or recorded by the first loop) is a
    pair of an atom with itself or of two atoms the molecule has bonded
    already: these make [AddBond] raise.  When it returns, of the
    (distinct) bonder atoms of a position [q] at least as many as [q]
    has more than a position [p] get no bond with an atom of [p],
    [bonds_made] is the number of bonds added, and no warning has been
    issued (the code has no call that issues one). *)
Theorem stoichiometry_mismatch h (m : MacroMolecule BondType) positions_A p q :
  NoDup (bonder_ids (h !!! q)) ->
  (forall p' d a1 a2, p' ∈ positions_A ->
     (d, a1, a2) ∈ distances (h !!! p') ++ bond_candidates h m p' ->
     a1 <> a2 /\ Rdkit.GetBondBetweenAtoms (mol_bonds m) a1 a2 = false) ->
  exists r,
    Rdkit.join_mols determine_bond_type h m positions_A = inr r
    /\ length (bonder_ids (h !!! q)) - length (bonder_ids (h !!! p))
       <= length (filter (fun a => negb (bonded_with (bonder_ids (h !!! p))
                                           (new_bonds m r) a))
                         (bonder_ids (h !!! q)))
    /\ bonds_made (jr_mol r) = length (new_bonds m r)
    /\ jr_warnings r = [].
Proof.
  intros Hnd Hadd. eexists. split; [by apply join_mols_returns|].
  split_and!.
  - by apply unbonded_ge; [apply new_bonds_apart|].
  - apply (join_mols_new_bonds determine_bond_type h m positions_A).
  - reflexivity.
Qed.
End Stoichiometry.

Lemma line_candidates_0 :
  Cage.distances (Examples.line_heap !!! 0)
    ++ Cage.bond_candidates Examples.line_heap Examples.line_mol 0
  = [(4%R, 0, 2); (6%R, 0, 3)].
Proof. reflexivity. Qed.

Lemma stoichiometry_mismatch_witness :
  exists r,
    Cage.Rdkit.join_mols Examples.single_bond Examples.line_heap
      Examples.line_mol [0] = inr r
    /\ 2 - 1 <= length (filter (fun a => negb (Cage.bonded_with [0]
                                                 (Cage.new_bonds Examples.line_mol r) a))
                               [2; 3])
    /\ Cage.bonds_made (Cage.jr_mol r)
       = length (Cage.new_bonds Examples.line_mol r)
    /\ Cage.jr_warnings r = [].
Proof.
  refine (stoichiometry_mismatch Examples.single_bond Examples.line_heap
            Examples.line_mol [0] 0 2 _ _).
  - change (NoDup [2; 3]).
    apply NoDup_cons. split; [|apply NoDup_singleton].
    intros ?%list_elem_of_singleton. lia.
  - intros p' d a1 a2 ->%list_elem_of_singleton. rewrite line_candidates_0.
    intros [[= -> -> ->]|[[= -> -> ->]|[]%elem_of_nil]%elem_of_cons]%elem_of_cons;
      (split; [lia|reflexivity]).
Defined.

(** C5, as stated, fails.  The edge (object 2) has two bonder atoms,
    the vertex paired with it (object 0) has one.  [join_mols] bonds
    atom 0 to atom 2, leaves atom 3 without a bond, and reports
    nothing; and on a molecule in which the atoms 2 and 0 are bonded
    already it does not complete: [AddBond] raises [RuntimeError]. *)
Lemma stoichiometry_mismatch_silent :
  2 ∈ Cage.connected (Examples.line_heap !!! 0)
  /\ length (Cage.bonder_ids (Examples.line_heap !!! 0))
     <> length (Cage.bonder_ids (Examples.line_heap !!! 2))
  /\ (exists r,
        Cage.Rdkit.join_mols Examples.single_bond Examples.line_heap
          Examples.line_mol [0] = inr r
        /\ (Cage.new_bonds Examples.line_mol r).*1 = [(0, 2)]
        /\ Cage.jr_warnings r = [])
  /\ (exists r,
        Cage.Rdkit.join_mols Examples.single_bond Examples.line_heap
          Examples.bonded_line_mol [0] = inl (Cage.Rdkit.RuntimeError, r)
        /\ Cage.jr_warnings r = []).
Proof.
  assert (Hnew : forall m,
    Cage.atom_distance m = Examples.line_distance ->
    (Cage.new_bonds m
       (Cage.join_mols Examples.single_bond Examples.line_heap m [0])).*1
    = [(0, 2)]).
  { intros m Hm. rewrite join_mols_per_position.
    - unfold Cage.bond_candidates. rewrite Hm.
      change (Cage.greedy_bonds []
        (stable_sort Cage.tuple_lt [(4%R, 0, 2); (6%R, 0, 3)] ++ []) = [(0, 2)]).
      sort_tuples. reflexivity.
    - apply NoDup_singleton.
    - intros p' ->%list_elem_of_singleton. eexists. split; reflexivity. }
  split; [left|]. split; [done|]. split.
  - pose proof (join_mols_cases Examples.single_bond Examples.line_heap
                  Examples.line_mol [0]) as Hc.
    cbv zeta in Hc. rewrite (Hnew Examples.line_mol eq_refl) in Hc.
    destruct (Cage.Rdkit.join_mols _ _ _ _) as [[e r]|r].
    + destruct Hc as [Hn _]. destruct Hn.
      constructor; [|constructor]. split; [simpl; lia|reflexivity].
    + destruct Hc as [-> _]. eexists. split; [done|].
      split; [by apply Hnew|reflexivity].
  - pose proof (join_mols_cases Examples.single_bond Examples.line_heap
                  Examples.bonded_line_mol [0]) as Hc.
    cbv zeta in Hc. rewrite (Hnew Examples.bonded_line_mol eq_refl) in Hc.
    destruct (Cage.Rdkit.join_mols _ _ _ _) as [[[] r]|r].
    + exists r. split; [done|]. apply Hc.
    + destruct Hc as [_ Hall]. apply Forall_cons in Hall as [[_ Hb] _].
      discriminate Hb.
Qed.

(** ** Construction of edges and derived vertices *)

Section Construction.
Import Cage.
Implicit Types (h : heap) (vs : list loc).

Lemma set_connected_compose f g v :
  set_connected f (set_connected g v) = set_connected (f ∘ g) v.
Proof. by destruct v. Qed.

(** The loop [for v in vertices: v.connected.append(obj)]. *)
Lemma connect_all_lookup obj vs : forall h y,
  foldl (fun h v => alter (set_connected (fun l => l ++ [obj])) v h) h vs !! y
  = set_connected (fun l => l ++ replicate (count_occ Nat.eq_dec vs y) obj)
      <$> h !! y.
Proof.
  induction vs as [|v r IH]; intros h y.
  - simpl. destruct (h !! y) as [[]|]; simpl; [|done].
    unfold set_connected. simpl. by rewrite app_nil_r.
  - cbn [foldl]. rewrite IH, lookup_alter. cbn [count_occ].
    destruct (Nat.eq_dec v y) as [->|Hne].
    + rewrite decide_True by done. destruct (h !! y) as [w|]; simpl; [|done].
      rewrite set_connected_compose. f_equal. destruct w. unfold set_connected.
      simpl. by rewrite <- app_assoc.
    + by rewrite decide_False.
Qed.

Lemma new_loc_fresh h : h !! new_loc h = None.
Proof. unfold new_loc. apply (not_elem_of_dom (D := gset nat)). apply is_fresh. Qed.

Lemma closed_unreferenced h y :
  closed h -> new_loc h ∉ connected (h !!! y).
Proof.
  intros Hc Hin. rewrite lookup_total_alt in Hin.
  destruct (h !! y) as [v|] eqn:Hy; simpl in Hin; [|by apply elem_of_nil in Hin].
  specialize (Hc y v Hy). eapply Forall_forall in Hc; [|done].
  rewrite new_loc_fresh in Hc. by destruct Hc.
Qed.

(** The store after a new object [obj] has been created and connected
    to [vs]. *)
Lemma connect_new_lookup h obj c id_ custom vs y :
  foldl (fun h v => alter (set_connected (fun l => l ++ [obj])) v h)
    (alter (set_connected (fun l => l ++ vs)) obj
       (<[obj := Vertex_init c id_ custom]> h)) vs !! y
  = if decide (y = obj)
    then Some (mkVertex c custom (vs ++ replicate (count_occ Nat.eq_dec vs obj) obj)
                        [] [] [] id_)
    else set_connected (fun l => l ++ replicate (count_occ Nat.eq_dec vs y) obj)
           <$> h !! y.
Proof.
  rewrite connect_all_lookup, lookup_alter.
  destruct (decide (y = obj)) as [->|Hne].
  - rewrite decide_True by done. by rewrite lookup_insert_eq.
  - rewrite decide_False by done. by rewrite lookup_insert_ne.
Qed.

Lemma connect_new_connected h obj c id_ custom vs y :
  h !! obj = None ->
  Forall (fun v => is_Some (h !! v)) vs ->
  connected
    (foldl (fun h v => alter (set_connected (fun l => l ++ [obj])) v h)
       (alter (set_connected (fun l => l ++ vs)) obj
          (<[obj := Vertex_init c id_ custom]> h)) vs !!! y)
  = if decide (y = obj) then vs
    else connected (h !!! y) ++ replicate (count_occ Nat.eq_dec vs y) obj.
Proof.
  intros Hobj Hvs.
  rewrite lookup_total_alt, connect_new_lookup.
  destruct (decide (y = obj)) as [->|Hne]; simpl.
  - rewrite (proj1 (count_occ_not_In Nat.eq_dec vs obj)); [by rewrite app_nil_r|].
    intros Hin%list_elem_of_In. eapply Forall_forall in Hvs; [|done].
    rewrite Hobj in Hvs. by destruct Hvs.
  - rewrite (lookup_total_alt h). destruct (h !! y) as [w|] eqn:Hy; simpl; [done|].
    rewrite (proj1 (count_occ_not_In Nat.eq_dec vs y)); [done|].
    intros Hin%list_elem_of_In. eapply Forall_forall in Hvs; [|done].
    rewrite Hy in Hvs. by destruct Hvs.
Qed.

Lemma elem_of_replicate_count vs (y obj : loc) :
  obj ∈ replicate (count_occ Nat.eq_dec vs y) obj <-> y ∈ vs.
Proof.
  rewrite elem_of_replicate, list_elem_of_In, (count_occ_In Nat.eq_dec).
  split; [intros [_ ?]; lia|intros; split; [done|lia]].
Qed.

(** Connecting a new object keeps, and for the new object establishes,
    mutual connectivity. *)
Lemma connect_new_mutual h obj c id_ custom vs :
  h !! obj = None ->
  (forall y, obj ∉ connected (h !!! y)) ->
  Forall (fun v => is_Some (h !! v)) vs ->
  let h' := foldl (fun h v => alter (set_connected (fun l => l ++ [obj])) v h)
              (alter (set_connected (fun l => l ++ vs)) obj
                 (<[obj := Vertex_init c id_ custom]> h)) vs in
  (forall y, obj ∈ connected (h' !!! y) <-> y ∈ connected (h' !!! obj))
  /\ (mutual h -> mutual h').
Proof.
  intros Hobj Hunref Hvs. cbv zeta. split.
  - intros y. rewrite !connect_new_connected by done.
    rewrite (decide_True (P := obj = obj)) by done.
    destruct (decide (y = obj)) as [->|Hne]; [done|].
    rewrite elem_of_app, elem_of_replicate_count.
    specialize (Hunref y). tauto.
  - intros Hm a b. rewrite !connect_new_connected by done.
    destruct (decide (b = obj)) as [->|Hb], (decide (a = obj)) as [->|Ha];
      rewrite ?elem_of_app, ?elem_of_replicate_count; try done.
    + pose proof (Hunref a). tauto.
    + pose proof (Hunref b). tauto.
    + rewrite !elem_of_replicate. specialize (Hm a b). tauto.
Qed.
End Construction.

Section ConstructionTheorem.
Import Cage.
Local Open Scope R_scope.

Lemma centroid_pair (a b : vec) :
  Utilities.centroid [a; b]
  = Val (Vec.mk ((Vec.x a + Vec.x b) / 2) ((Vec.y a + Vec.y b) / 2)
                ((Vec.z a + Vec.z b) / 2)).
Proof.
  unfold Utilities.centroid, Vec.scale, Vec.sum, Vec.add. simpl.
  do 2 f_equal; lra.
Qed.

Lemma Edge_init_unfold (h : heap) v1 v2 id_ custom :
  Edge_init h v1 v2 id_ custom
  = Val (new_loc h,
         foldl (fun h' v => alter (set_connected (fun l => l ++ [new_loc h])) v h')
           (alter (set_connected (fun l => l ++ [v1; v2])) (new_loc h)
              (<[new_loc h :=
                   Vertex_init
                     (Vec.mk ((Vec.x (coord (h !!! v1)) + Vec.x (coord (h !!! v2))) / 2)
                             ((Vec.y (coord (h !!! v1)) + Vec.y (coord (h !!! v2))) / 2)
                             ((Vec.z (coord (h !!! v1)) + Vec.z (coord (h !!! v2))) / 2))
                     id_ custom]> h))
           [v1; v2]).
Proof. unfold Edge_init. rewrite centroid_pair. reflexivity. Qed.

(** C10 (edge construction).  In a store whose [connected] lists
    mention existing objects only, [Edge(v1, v2)] returns a new object
    placed at the centroid (arithmetic mean) of the two vertices, whose
    [connected] list is [[v1; v2]]; every other object gets the new
    object appended to its [connected] list once per occurrence among
    the arguments and is otherwise untouched; afterwards the new object
    is in [y.connected] exactly when [y] is in its [connected] list,
    and connectivity that was mutual stays mutual.  The same holds for
    [Vertex.vertex_init] over a non-empty tuple of vertices. *)
Theorem edge_construction (h : heap) (v1 v2 : loc) (id_ : option nat)
    (custom : bool) (vs : list loc) :
  closed h ->
  is_Some (h !! v1) -> is_Some (h !! v2) ->
  vs <> [] -> Forall (fun v => is_Some (h !! v)) vs ->
  (exists e h',
     Edge_init h v1 v2 id_ custom = Val (e, h')
     /\ h !! e = None
     /\ Utilities.centroid [coord (h !!! v1); coord (h !!! v2)]
        = Val (coord (h' !!! e))
     /\ coord (h' !!! e)
        = Vec.mk ((Vec.x (coord (h !!! v1)) + Vec.x (coord (h !!! v2))) / 2)
                 ((Vec.y (coord (h !!! v1)) + Vec.y (coord (h !!! v2))) / 2)
                 ((Vec.z (coord (h !!! v1)) + Vec.z (coord (h !!! v2))) / 2)
     /\ connected (h' !!! e) = [v1; v2]
     /\ (forall y, y <> e ->
           connected (h' !!! y)
           = connected (h !!! y) ++ replicate (count_occ Nat.eq_dec [v1; v2] y) e
           /\ coord (h' !!! y) = coord (h !!! y))
     /\ (forall y, e ∈ connected (h' !!! y) <-> y ∈ connected (h' !!! e))
     /\ (mutual h -> mutual h'))
  /\ (exists o h',
        vertex_init h vs = Val (o, h')
        /\ h !! o = None
        /\ Utilities.centroid (map (fun v => coord (h !!! v)) vs)
           = Val (coord (h' !!! o))
        /\ connected (h' !!! o) = vs
        /\ (forall y, y <> o ->
              connected (h' !!! y)
              = connected (h !!! y) ++ replicate (count_occ Nat.eq_dec vs y) o
              /\ coord (h' !!! y) = coord (h !!! y))
        /\ (forall y, o ∈ connected (h' !!! y) <-> y ∈ connected (h' !!! o))
        /\ (mutual h -> mutual h')).
Proof.
  intros Hcl H1 H2 Hne Hvs.
  pose proof (new_loc_fresh h) as Hfresh.
  assert (Hunref : forall y, new_loc h ∉ connected (h !!! y))
    by (intros; by apply closed_unreferenced).
  assert (Hcoord : forall c i cu ws y, y <> new_loc h ->
    coord (foldl (fun h' v => alter (set_connected (fun l => l ++ [new_loc h])) v h')
             (alter (set_connected (fun l => l ++ ws)) (new_loc h)
                (<[new_loc h := Vertex_init c i cu]> h)) ws !!! y)
    = coord (h !!! y)).
  { intros c i cu ws y Hy.
    rewrite lookup_total_alt, connect_new_lookup, decide_False by done.
    rewrite (lookup_total_alt h). by destruct (h !! y). }
  split.
  - assert (H12 : Forall (fun v => is_Some (h !! v)) [v1; v2])
      by (by repeat constructor).
    rewrite Edge_init_unfold, centroid_pair.
    set (c := Vec.mk ((Vec.x (coord (h !!! v1)) + Vec.x (coord (h !!! v2))) / 2)
                     ((Vec.y (coord (h !!! v1)) + Vec.y (coord (h !!! v2))) / 2)
                     ((Vec.z (coord (h !!! v1)) + Vec.z (coord (h !!! v2))) / 2)).
    eexists _, _. split; [reflexivity|].
    destruct (connect_new_mutual h (new_loc h) c id_ custom [v1; v2]
                Hfresh Hunref H12) as [Hnew Hmut].
    pose proof (fun y => connect_new_connected h (new_loc h) c id_ custom [v1; v2] y
                           Hfresh H12) as Hc.
    split_and!.
    + done.
    + f_equal. rewrite lookup_total_alt, connect_new_lookup, decide_True by done.
      done.
    + rewrite lookup_total_alt, connect_new_lookup, decide_True by done. done.
    + by rewrite Hc, decide_True.
    + intros y Hy. split; [by rewrite Hc, decide_False|by apply Hcoord].
    + exact Hnew.
    + exact Hmut.
  - unfold vertex_init.
    destruct vs as [|w ws] eqn:Evs; [done|]. rewrite <- Evs in *.
    assert (Hcen : exists c, Utilities.centroid (map (fun v => coord (h !!! v)) vs)
                             = Val c).
    { rewrite Evs. simpl. eauto. }
    destruct Hcen as [c Hcen]. rewrite Hcen. cbn [obind].
    eexists _, _. split; [reflexivity|].
    destruct (connect_new_mutual h (new_loc h) c None false vs Hfresh Hunref Hvs)
      as [Hnew Hmut].
    pose proof (fun y => connect_new_connected h (new_loc h) c None false vs y
                           Hfresh Hvs) as Hc.
    split_and!.
    + done.
    + f_equal. rewrite lookup_total_alt, connect_new_lookup, decide_True by done.
      done.
    + by rewrite Hc, decide_True.
    + intros y Hy. split; [by rewrite Hc, decide_False|by apply Hcoord].
    + exact Hnew.
    + exact Hmut.
Qed.
End ConstructionTheorem.

Lemma line_heap_closed : Cage.closed Examples.line_heap.
Proof.
  intros l v Hl. unfold Examples.line_heap in Hl.
  repeat (apply lookup_insert_Some in Hl as [[<- <-]|[_ Hl]];
          [simpl; repeat constructor; eexists; reflexivity|]).
  by rewrite lookup_empty in Hl.
Qed.

Lemma edge_construction_witness :
  exists e h',
    Cage.Edge_init Examples.line_heap 0 1 None false = Val (e, h')
    /\ Cage.connected (h' !!! e) = [0; 1]
    /\ (forall y, e ∈ Cage.connected (h' !!! y) <-> y ∈ Cage.connected (h' !!! e)).
Proof.
  destruct (edge_construction Examples.line_heap 0 1 None false [0; 1])
    as [(e & h' & He & _ & _ & _ & Hc & _ & Hm & _) _].
  - exact line_heap_closed.
  - eexists. reflexivity.
  - eexists. reflexivity.
  - discriminate.
  - repeat constructor; eexists; reflexivity.
  - exists e, h'. by split_and!.
Defined.

(** ** Vectors, norms and angles *)

Section VectorFacts.
Local Open Scope R_scope.
Implicit Types (a b v : vec) (k : R).

Lemma vec_eq a b :
  Vec.x a = Vec.x b -> Vec.y a = Vec.y b -> Vec.z a = Vec.z b -> a = b.
Proof. destruct a, b. simpl. by intros -> -> ->. Qed.

Lemma dot_self_nonneg v : 0 <= Vec.dot v v.
Proof. unfold Vec.dot. nra. Qed.

Lemma dot_self_0 v : Vec.dot v v = 0 -> v = Vec.zero.
Proof.
  unfold Vec.dot. intros H. apply vec_eq; simpl; nra.
Qed.

Lemma norm_nonneg v : 0 <= Vec.norm v.
Proof. apply sqrt_pos. Qed.

Lemma norm_0_iff v : Vec.norm v = 0 <-> v = Vec.zero.
Proof.
  unfold Vec.norm. split.
  - intros H. apply dot_self_0, sqrt_eq_0; [apply dot_self_nonneg|done].
  - intros ->. unfold Vec.dot. simpl.
    replace (0 * 0 + 0 * 0 + 0 * 0) with 0 by lra. apply sqrt_0.
Qed.

Lemma norm_scale k v : Vec.norm (Vec.scale k v) = Rabs k * Vec.norm v.
Proof.
  unfold Vec.norm.
  replace (Vec.dot (Vec.scale k v) (Vec.scale k v)) with (Rsqr k * Vec.dot v v)
    by (unfold Vec.dot, Vec.scale, Rsqr; simpl; lra).
  rewrite sqrt_mult; [|apply Rle_0_sqr|apply dot_self_nonneg].
  by rewrite sqrt_Rsqr_abs.
Qed.

Lemma dot_scale_l k a b : Vec.dot (Vec.scale k a) b = k * Vec.dot a b.
Proof. unfold Vec.dot, Vec.scale. simpl. lra. Qed.

Lemma cross_scale k1 k2 a b :
  Vec.cross (Vec.scale k1 a) (Vec.scale k2 b) = Vec.scale (k1 * k2) (Vec.cross a b).
Proof. unfold Vec.cross, Vec.scale. simpl. apply vec_eq; simpl; lra. Qed.

Lemma scale_zero_iff k v : Vec.scale k v = Vec.zero <-> k = 0 \/ v = Vec.zero.
Proof.
  rewrite <- !norm_0_iff, norm_scale. split.
  - intros [H|H]%Rmult_integral; [left|by right].
    by destruct (Req_dec k 0) as [?|?%Rabs_no_R0].
  - intros [->| ->]; [rewrite Rabs_R0|]; lra.
Qed.

Lemma normalize_vector_unit v :
  v <> Vec.zero ->
  Utilities.normalize_vector v = Val (Vec.scale (/ Vec.norm v) v)
  /\ Vec.norm (Vec.scale (/ Vec.norm v) v) = 1.
Proof.
  intros Hv. assert (Hn : Vec.norm v <> 0) by (by rewrite norm_0_iff).
  pose proof (norm_nonneg v).
  unfold Utilities.normalize_vector. rewrite decide_False by done.
  split; [done|]. rewrite norm_scale, Rabs_pos_eq.
  - by apply Rinv_l.
  - left. apply Rinv_0_lt_compat. lra.
Qed.

Lemma clamp_opp t : Utilities.clamp (-1) 1 (- t) = - Utilities.clamp (-1) 1 t.
Proof.
  unfold Utilities.clamp.
  destruct (Rltb_spec (- t) (-1)), (Rltb_spec t (-1)), (Rltb_spec 1 (- t)),
    (Rltb_spec 1 t); lra.
Qed.

Lemma vector_angle_defined a b :
  a <> Vec.zero -> b <> Vec.zero ->
  Utilities.vector_angle a b
  = Val (acos (Utilities.clamp (-1) 1
                 (Vec.dot a b / (Vec.norm a * Vec.norm b)))).
Proof.
  intros Ha Hb. unfold Utilities.vector_angle.
  rewrite decide_False; [done|].
  intros [?%norm_0_iff|?%norm_0_iff]%Rmult_integral; done.
Qed.

Lemma vector_angle_opp a b theta :
  a <> Vec.zero -> b <> Vec.zero ->
  Utilities.vector_angle a b = Val theta ->
  Utilities.vector_angle (Vec.scale (-1) a) b = Val (PI - theta).
Proof.
  intros Ha Hb.
  assert (Ha' : Vec.scale (-1) a <> Vec.zero).
  { rewrite scale_zero_iff. intros [?|?]; [lra|done]. }
  rewrite (vector_angle_defined a b), (vector_angle_defined (Vec.scale (-1) a) b)
    by done.
  intros [= <-]. f_equal. rewrite <- acos_opp, <- clamp_opp. do 2 f_equal.
  rewrite dot_scale_l, norm_scale, (Rabs_left (-1)) by lra.
  field. rewrite !norm_0_iff. done.
Qed.

(** The sign convention shared by [edge_plane_normal] and
    [get_bonder_plane_normal]: flip the normal when its angle to the
    reference exceeds a right angle. *)
Lemma flipped_normal_angle a b :
  a <> Vec.zero -> b <> Vec.zero ->
  exists theta,
    Utilities.vector_angle
      (if Utilities.gt_float (Utilities.vector_angle a b) (PI / 2)
       then Vec.scale (-1) a else a) b = Val theta
    /\ theta <= PI / 2.
Proof.
  intros Ha Hb.
  destruct (Utilities.vector_angle a b) as [theta| |] eqn:Hab;
    try (rewrite vector_angle_defined in Hab by done; discriminate).
  simpl. destruct (Rltb_spec (PI / 2) theta).
  - exists (PI - theta). split; [by apply vector_angle_opp|lra].
  - exists theta. split; [done|lra].
Qed.
End VectorFacts.

(** ** The plane-normal sign convention *)

Section PlaneNormalFacts.
Local Open Scope R_scope.
Import Cage BuildingBlock.

Lemma cross_zero_l b : Vec.cross Vec.zero b = Vec.zero.
Proof. unfold Vec.cross. apply vec_eq; simpl; lra. Qed.

Lemma cross_zero_r a : Vec.cross a Vec.zero = Vec.zero.
Proof. unfold Vec.cross. apply vec_eq; simpl; lra. Qed.

Lemma unit_nonzero v : Vec.norm v = 1 -> v <> Vec.zero.
Proof. intros Hn Hv%norm_0_iff. lra. Qed.

Lemma norm_flip v : Vec.norm (Vec.scale (-1) v) = Vec.norm v.
Proof. rewrite norm_scale, (Rabs_left (-1)) by lra. lra. Qed.

Lemma inv_norm_nonzero v : v <> Vec.zero -> / Vec.norm v <> 0.
Proof. intros Hv. apply Rinv_neq_0_compat. by rewrite norm_0_iff. Qed.

(** [edge_plane_normal] on a vertex with three or more connected
    positions, the first three not on a line, away from the origin. *)
Lemma edge_plane_normal_angle (h : heap) self scale c0 c1 c2 rest :
  connected (h !!! self) = c0 :: c1 :: c2 :: rest ->
  scale <> 0 ->
  Vec.cross (Vec.sub (coord (h !!! c0)) (coord (h !!! c1)))
            (Vec.sub (coord (h !!! c0)) (coord (h !!! c2))) <> Vec.zero ->
  coord (h !!! c0) <> Vec.zero ->
  exists n theta,
    edge_plane_normal h self scale = Val n
    /\ Vec.norm n = 1
    /\ Utilities.vector_angle n (Vec.scale scale (coord (h !!! c0))) = Val theta
    /\ theta <= PI / 2.
Proof.
  intros Hconn Hs Hcross Hc0.
  set (e1 := Vec.sub (coord (h !!! c0)) (coord (h !!! c1))) in *.
  set (e2 := Vec.sub (coord (h !!! c0)) (coord (h !!! c2))) in *.
  assert (He1 : Vec.scale scale e1 <> Vec.zero).
  { rewrite scale_zero_iff. intros [?|E]; [done|].
    apply Hcross. by rewrite E, cross_zero_l. }
  assert (He2 : Vec.scale scale e2 <> Vec.zero).
  { rewrite scale_zero_iff. intros [?|E]; [done|].
    apply Hcross. by rewrite E, cross_zero_r. }
  destruct (normalize_vector_unit _ He1) as [Hn1 _].
  destruct (normalize_vector_unit _ He2) as [Hn2 _].
  set (v1 := Vec.scale (/ Vec.norm (Vec.scale scale e1)) (Vec.scale scale e1)) in *.
  set (v2 := Vec.scale (/ Vec.norm (Vec.scale scale e2)) (Vec.scale scale e2)) in *.
  assert (Hv : Vec.cross v1 v2 <> Vec.zero).
  { unfold v1, v2. rewrite !cross_scale, !scale_zero_iff.
    intros [H|[H|H]]; [|by apply Rmult_integral in H as [?|?]|done].
    apply Rmult_integral in H as [H|H]; by apply inv_norm_nonzero in H. }
  destruct (normalize_vector_unit _ Hv) as [Hn Hunit].
  set (n0 := Vec.scale (/ Vec.norm (Vec.cross v1 v2)) (Vec.cross v1 v2)) in *.
  assert (Href : Vec.scale scale (coord (h !!! c0)) <> Vec.zero).
  { rewrite scale_zero_iff. by intros [?|?]. }
  destruct (flipped_normal_angle n0 (Vec.scale scale (coord (h !!! c0))))
    as (theta & Hth & Hle); [by apply unit_nonzero|done|].
  unfold edge_plane_normal, edge_direction_vectors. rewrite Hconn.
  cbn [combinations2 map app take]. fold e1 e2. rewrite Hn1, Hn2.
  cbn [obind]. rewrite Hn. cbn [obind].
  destruct (Utilities.gt_float _ _); eexists _, theta;
    (split; [reflexivity|]); (split; [|done]);
    [by rewrite norm_flip|done].
Qed.

(** With fewer than three connected positions the generator yields
    fewer than two direction vectors and the unpacking raises. *)
Lemma edge_plane_normal_two_edges (h : heap) self scale c0 c1 :
  connected (h !!! self) = [c0; c1] ->
  edge_plane_normal h self scale
  = Raise (ValueError "not enough values to unpack (expected 2, got 1)").
Proof.
  intros Hconn. unfold edge_plane_normal, edge_direction_vectors.
  by rewrite Hconn.
Qed.

Section BonderPlane.
Variable svd_last_row : list vec -> vec.
Hypothesis svd_unit : forall m, Vec.norm (svd_last_row m) = 1.

Lemma not_allclose_nonzero v :
  allclose_zero v (1 / 100000) = false -> v <> Vec.zero.
Proof.
  intros Hf ->. unfold allclose_zero, Rleb in Hf. simpl in Hf.
  rewrite Rabs_R0 in Hf.
  destruct (Rle_dec 0 (1 / 100000)) as [_|Hn]; [done|]. apply Hn. lra.
Qed.

Lemma get_bonder_plane_normal_angle self fg_ids cs ids bc c :
  (3 <= length (default_fg_ids self fg_ids))%nat ->
  get_bonder_centroids self (Some (default_fg_ids self fg_ids)) = Val cs ->
  get_bonder_ids self (Some (default_fg_ids self fg_ids)) = Val ids ->
  get_centroid self (Some ids) = Val bc ->
  get_centroid self None = Val c ->
  exists n,
    get_bonder_plane_normal svd_last_row self fg_ids = Val n
    /\ Vec.norm n = 1
    /\ (allclose_zero (Vec.sub c bc) (1 / 100000) = false ->
        exists theta,
          Utilities.vector_angle n (Vec.sub c bc) = Val theta
          /\ theta <= PI / 2)
    /\ (allclose_zero (Vec.sub c bc) (1 / 100000) = true ->
        n = svd_last_row (map (fun c' => Vec.sub c' bc) cs)).
Proof.
  intros Hlen Hcs Hids Hbc Hc.
  set (n0 := svd_last_row (map (fun c' => Vec.sub c' bc) cs)).
  unfold get_bonder_plane_normal.
  destruct (Nat.ltb_spec (length (default_fg_ids self fg_ids)) 3); [lia|].
  rewrite Hcs. cbn [obind]. rewrite Hids. cbn [obind]. rewrite Hbc. cbn [obind].
  unfold get_centroid_centroid_direction_vector.
  rewrite Hids. cbn [obind]. rewrite Hbc. cbn [obind]. rewrite Hc. cbn [obind].
  fold n0.
  destruct (allclose_zero (Vec.sub c bc) (1 / 100000)) eqn:Hclose; cbn [negb andb].
  - exists n0. split; [done|]. split; [apply svd_unit|]. split; done.
  - destruct (flipped_normal_angle n0 (Vec.sub c bc)) as (theta & Hth & Hle);
      [apply unit_nonzero, svd_unit|by apply not_allclose_nonzero|].
    destruct (Utilities.gt_float _ _); eexists;
      (split; [reflexivity|]);
      (split; [by rewrite ?norm_flip; apply svd_unit|]);
      (split; [intros _; by exists theta|done]).
Qed.
End BonderPlane.
End PlaneNormalFacts.

(** ** When [get_bonder_plane_normal] raises *)

Section RaiseFacts.
Import BuildingBlock.













Lemma py_index_invalid {A} (l : list A) i :
  ~ valid_index l i -> py_index l i = Raise IndexError.
Proof.
  unfold valid_index, py_index. intros Hi.
  rewrite (proj2 (andb_false_iff _ _)); [done|].
  rewrite Z.leb_gt, Z.ltb_ge. destruct (Z.ltb_spec i 0); lia.
Qed.



End RaiseFacts.

Section ReturnFacts.
Import BuildingBlock.
Variable svd_last_row : list vec -> vec.



End ReturnFacts.


(** ** The flat building block *)

Section FlatBlock.
Import BuildingBlock Examples.
Local Open Scope R_scope.

Lemma centroid_single p : Utilities.centroid [p] = Val p.
Proof.
  unfold Utilities.centroid, Vec.sum, Vec.scale, Vec.add. simpl. f_equal.
  apply vec_eq; simpl; rewrite Rinv_1; lra.
Qed.

Lemma flat_block_bonder_centroids z :
  get_bonder_centroids (flat_block z) (Some (range 3)) = Val flat_rows.
Proof.
  change (get_bonder_centroids (flat_block z) (Some (range 3)))
    with (do a <- Utilities.centroid [Vec.mk 1 0 0];
          do r <- (do b <- Utilities.centroid [Vec.mk 0 1 0];
                   do r' <- (do c <- Utilities.centroid [Vec.mk (-1) (-1) 0];
                             do r'' <- Val []; Val (c :: r''));
                   Val (b :: r'));
          Val (a :: r)).
  by rewrite !centroid_single.
Qed.

Lemma flat_block_bonder_ids z :
  get_bonder_ids (flat_block z) (Some (range 3)) = Val [0; 1; 2]%nat.
Proof. reflexivity. Qed.

Lemma flat_block_bonder_centroid z :
  get_centroid (flat_block z) (Some [0; 1; 2]%nat) = Val Vec.zero.
Proof.
  change (get_centroid (flat_block z) (Some [0; 1; 2]%nat))
    with (Utilities.centroid flat_rows).
  unfold Utilities.centroid, flat_rows, Vec.sum, Vec.scale, Vec.add, Vec.zero.
  simpl. f_equal. apply vec_eq; simpl; lra.
Qed.

Lemma flat_block_centroid z :
  get_centroid (flat_block z) None = Val (Vec.mk 0 0 (z / 4)).
Proof.
  change (get_centroid (flat_block z) None)
    with (Utilities.centroid (flat_rows ++ [Vec.mk 0 0 z])).
  unfold Utilities.centroid, flat_rows, Vec.sum, Vec.scale, Vec.add, Vec.zero.
  simpl. f_equal. apply vec_eq; simpl; lra.
Qed.

Lemma flat_block_direction z :
  get_centroid_centroid_direction_vector (flat_block z) (Some (range 3))
  = Val (Vec.mk 0 0 (z / 4)).
Proof.
  unfold get_centroid_centroid_direction_vector.
  rewrite flat_block_bonder_ids. cbn [obind].
  rewrite flat_block_bonder_centroid. cbn [obind].
  rewrite flat_block_centroid. cbn [obind].
  f_equal. apply vec_eq; simpl; lra.
Qed.

Lemma Rleb_true a b : a <= b -> Rleb a b = true.
Proof. unfold Rleb. by destruct (Rle_dec a b). Qed.

Lemma Rleb_false a b : b < a -> Rleb a b = false.
Proof. unfold Rleb. destruct (Rle_dec a b); [lra|done]. Qed.

(** A reference of height at most 1/400000 is within the tolerance:
    the fitted normal is returned as it is. *)
Lemma flat_block_unflipped fit z :
  Rabs z <= 1 / 25000 ->
  get_bonder_plane_normal fit (flat_block z) None = Val (fit flat_rows).
Proof.
  intros Hz. unfold get_bonder_plane_normal.
  change (default_fg_ids (flat_block z) None) with (range 3).
  change (length (range 3) <? 3)%nat with false. cbv iota.
  rewrite flat_block_bonder_centroids. cbn [obind].
  rewrite flat_block_bonder_ids. cbn [obind].
  rewrite flat_block_bonder_centroid. cbn [obind].
  rewrite flat_block_direction. cbn [obind].
  assert (Hclose : allclose_zero (Vec.mk 0 0 (z / 4)) (1 / 100000) = true).
  { unfold allclose_zero. simpl. rewrite Rabs_R0.
    rewrite !Rleb_true; [done|..]; try lra.
    unfold Rdiv. rewrite Rabs_mult, (Rabs_pos_eq (/ 4)) by lra. lra. }
  rewrite Hclose. cbn [negb andb]. f_equal. f_equal.
  unfold flat_rows. simpl. repeat f_equal; apply vec_eq; simpl; lra.
Qed.

Lemma norm_z t : Vec.norm (Vec.mk 0 0 t) = Rabs t.
Proof.
  unfold Vec.norm, Vec.dot. simpl.
  replace (0 * 0 + 0 * 0 + t * t) with (Rsqr t) by (unfold Rsqr; lra).
  apply sqrt_Rsqr_abs.
Qed.

(** Two opposite vectors on the z axis are at angle pi. *)
Lemma opposite_angle t s :
  t * s < 0 ->
  Utilities.vector_angle (Vec.mk 0 0 t) (Vec.mk 0 0 s) = Val PI.
Proof.
  intros Hts. unfold Utilities.vector_angle. rewrite !norm_z.
  assert (Hq : Rabs t * Rabs s = - (t * s)).
  { rewrite <- Rabs_mult. rewrite Rabs_left by done. done. }
  rewrite Hq, decide_False by lra. f_equal.
  replace (Vec.dot (Vec.mk 0 0 t) (Vec.mk 0 0 s) / - (t * s)) with (- (1))
    by (unfold Vec.dot; simpl; field; split; intros ->; lra).
  rewrite clamp_opp.
  replace (Utilities.clamp (-1) 1 1) with 1.
  - rewrite acos_opp, acos_1. lra.
  - unfold Utilities.clamp. rewrite !Rltb_false; [done|lra..].
Qed.

(** The plane z = 0 has two unit normals. *)
Lemma flat_rows_normals n :
  Vec.norm n = 1 -> Forall (fun r => Vec.dot r n = 0) flat_rows ->
  n = Vec.mk 0 0 1 \/ n = Vec.mk 0 0 (-1).
Proof.
  intros Hn Hrows. destruct n as [a b c].
  apply Forall_cons in Hrows as [Ha Hrows].
  apply Forall_cons in Hrows as [Hb _].
  unfold Vec.dot in Ha, Hb. simpl in Ha, Hb.
  assert (a = 0) as -> by lra. assert (b = 0) as -> by lra.
  rewrite norm_z in Hn.
  destruct (Rcase_abs c) as [Hc|Hc].
  - rewrite Rabs_left in Hn by done. right. f_equal. lra.
  - rewrite Rabs_right in Hn by done. left. by f_equal.
Qed.
End FlatBlock.

(** C4 (plane-normal sign convention), as the code has it.
    For a vertex with three or more connected positions, the first three
    of which are not on a line (so that the first two edge-direction
    vectors exist and are not parallel), a non-zero scale and a first
    connected position away from the origin, [edge_plane_normal] returns
    a unit normal at an angle of at most pi/2 to the scaled position of
    the first connected position.  For a building block on which the
    centroids exist (three or more functional groups) and a unit fitted
    normal, [get_bonder_plane_normal] returns a unit normal; its angle
    to the centroid-to-bonder-centroid vector is at most pi/2 when that
    vector is not within 1e-5 of zero in every component; when it is, the
    fitted normal is returned as it is. *)
Theorem plane_normal_sign_convention
    (h : Cage.heap) (self : nat) (scale : R) (c0 c1 c2 : nat) (rest : list nat)
    (svd_last_row : list vec -> vec) (bb : BuildingBlock.BuildingBlock)
    (fg_ids : option (list Z)) (cs : list vec) (ids : list nat) (bc c : vec) :
  Cage.connected (h !!! self) = c0 :: c1 :: c2 :: rest ->
  scale <> 0%R ->
  Vec.cross (Vec.sub (Cage.coord (h !!! c0)) (Cage.coord (h !!! c1)))
            (Vec.sub (Cage.coord (h !!! c0)) (Cage.coord (h !!! c2))) <> Vec.zero ->
  Cage.coord (h !!! c0) <> Vec.zero ->
  (forall m, Vec.norm (svd_last_row m) = 1%R) ->
  (3 <= length (BuildingBlock.default_fg_ids bb fg_ids))%nat ->
  BuildingBlock.get_bonder_centroids bb
    (Some (BuildingBlock.default_fg_ids bb fg_ids)) = Val cs ->
  BuildingBlock.get_bonder_ids bb
    (Some (BuildingBlock.default_fg_ids bb fg_ids)) = Val ids ->
  BuildingBlock.get_centroid bb (Some ids) = Val bc ->
  BuildingBlock.get_centroid bb None = Val c ->
  (exists n theta,
     Cage.edge_plane_normal h self scale = Val n
     /\ Vec.norm n = 1%R
     /\ Utilities.vector_angle n (Vec.scale scale (Cage.coord (h !!! c0))) = Val theta
     /\ (theta <= PI / 2)%R)
  /\ (exists n,
        BuildingBlock.get_bonder_plane_normal svd_last_row bb fg_ids = Val n
        /\ Vec.norm n = 1%R
        /\ (BuildingBlock.allclose_zero (Vec.sub c bc) (1 / 100000) = false ->
            exists theta,
              Utilities.vector_angle n (Vec.sub c bc) = Val theta
              /\ (theta <= PI / 2)%R)
        /\ (BuildingBlock.allclose_zero (Vec.sub c bc) (1 / 100000) = true ->
            n = svd_last_row (map (fun c' => Vec.sub c' bc) cs))).
Proof.
  intros Hconn Hs Hcross Hc0 Hsvd Hlen Hcs Hids Hbc Hc. split.
  - by eapply edge_plane_normal_angle.
  - by eapply get_bonder_plane_normal_angle.
Qed.

Lemma plane_normal_sign_convention_witness :
  (exists n theta,
     Cage.edge_plane_normal Examples.corner_heap 0 1 = Val n
     /\ Vec.norm n = 1%R
     /\ Utilities.vector_angle n (Vec.scale 1 (Vec.mk 1 0 0)) = Val theta
     /\ (theta <= PI / 2)%R)
  /\ (exists n,
        BuildingBlock.get_bonder_plane_normal Examples.fit_up
          (Examples.flat_block (-4)) None = Val n
        /\ Vec.norm n = 1%R).
Proof.
  destruct (plane_normal_sign_convention Examples.corner_heap 0 1 1 2 3 []
              Examples.fit_up (Examples.flat_block (-4)) None
              Examples.flat_rows [0; 1; 2] Vec.zero (Vec.mk 0 0 (-4 / 4)))
    as [Hedge (n & Hn & Hunit & _)].
  - reflexivity.
  - lra.
  - change (Vec.cross (Vec.sub (Vec.mk 1 0 0) (Vec.mk 0 1 0))
                      (Vec.sub (Vec.mk 1 0 0) (Vec.mk 0 0 1)) <> Vec.zero).
    intros [= H1 H2 H3]. lra.
  - change (Vec.mk 1 0 0 <> Vec.zero). intros [= H1]. lra.
  - intros m. unfold Examples.fit_up. rewrite norm_z, Rabs_R1. done.
  - simpl. lia.
  - apply flat_block_bonder_centroids.
  - apply flat_block_bonder_ids.
  - apply flat_block_bonder_centroid.
  - apply flat_block_centroid.
  - split; [exact Hedge|]. by exists n.
Defined.

(** C4, as stated, fails for [get_bonder_plane_normal]: the guard
    against a vanishing reference leaves the fitted normal alone when
    the reference is within 1e-5 of zero, whatever its direction.  The
    two flat blocks have the same bonder centroids, in the plane z = 0,
    whose only unit normals are (0,0,1) and (0,0,-1); their references
    are (0,0,-1/400000) and (0,0,1/400000).  Whichever normal the
    decomposition yields, it is returned for both blocks, and for one of
    them it is at angle pi to the reference. *)
Lemma plane_normal_small_reference :
  (forall n, Vec.norm n = 1%R ->
             Forall (fun r => Vec.dot r n = 0%R) Examples.flat_rows ->
             n = Vec.mk 0 0 1 \/ n = Vec.mk 0 0 (-1))
  /\ (BuildingBlock.get_bonder_plane_normal Examples.fit_up
        (Examples.flat_block (-1 / 100000)) None = Val (Vec.mk 0 0 1)
      /\ BuildingBlock.get_centroid_centroid_direction_vector
           (Examples.flat_block (-1 / 100000)) (Some (range 3))
         = Val (Vec.mk 0 0 (-1 / 100000 / 4))
      /\ Utilities.vector_angle (Vec.mk 0 0 1) (Vec.mk 0 0 (-1 / 100000 / 4))
         = Val PI)
  /\ (BuildingBlock.get_bonder_plane_normal Examples.fit_down
        (Examples.flat_block (1 / 100000)) None = Val (Vec.mk 0 0 (-1))
      /\ BuildingBlock.get_centroid_centroid_direction_vector
           (Examples.flat_block (1 / 100000)) (Some (range 3))
         = Val (Vec.mk 0 0 (1 / 100000 / 4))
      /\ Utilities.vector_angle (Vec.mk 0 0 (-1)) (Vec.mk 0 0 (1 / 100000 / 4))
         = Val PI)
  /\ (PI / 2 < PI)%R.
Proof.
  split_and!.
  - apply flat_rows_normals.
  - rewrite flat_block_unflipped; [done|]. rewrite Rabs_left; lra.
  - apply flat_block_direction.
  - apply opposite_angle. lra.
  - rewrite flat_block_unflipped; [done|]. rewrite Rabs_right; lra.
  - apply flat_block_direction.
  - apply opposite_angle. lra.
  - pose proof PI_RGT_0. lra.
Qed.



(** ** Cloning a bond *)

Section CloneFacts.
Import Bond.
Implicit Types (h : heap) (b : Bond).

Lemma fresh_unused h : h !! fresh (dom h) = None.
Proof. apply (not_elem_of_dom (D := gset nat)). apply is_fresh. Qed.



End CloneFacts.



(** ** Rotations *)

Section RotationFacts.
Import Molecule.
Local Open Scope R_scope.

Lemma rotate_sub angle axis a b :
  rotate angle axis (Vec.sub a b)
  = Vec.sub (rotate angle axis a) (rotate angle axis b).
Proof.
  unfold rotate, Vec.sub, Vec.add, Vec.scale, Vec.cross, Vec.dot.
  apply vec_eq; simpl; ring.
Qed.

Lemma rotate_dot angle axis v :
  Vec.dot axis axis = 1 ->
  Vec.dot (rotate angle axis v) (rotate angle axis v) = Vec.dot v v.
Proof.
  destruct axis as [kx ky kz], v as [vx vy vz].
  unfold rotate, Vec.add, Vec.scale, Vec.cross, Vec.dot. simpl.
  pose proof (sin2_cos2 angle) as Hsc. unfold Rsqr in Hsc.
  generalize dependent (cos angle). generalize (sin angle).
  intros s c Hsc Hk. nsatz.
Qed.

Lemma norm_sq v : Vec.norm v * Vec.norm v = Vec.dot v v.
Proof. unfold Vec.norm. apply sqrt_sqrt, dot_self_nonneg. Qed.

Lemma moved_distance angle axis origin p q :
  Vec.norm axis = 1 ->
  Vec.euclidean (Vec.add origin (rotate angle axis (Vec.sub p origin)))
                (Vec.add origin (rotate angle axis (Vec.sub q origin)))
  = Vec.euclidean p q.
Proof.
  intros Hk. unfold Vec.euclidean, Vec.norm. f_equal.
  replace (Vec.sub (Vec.add origin (rotate angle axis (Vec.sub p origin)))
                   (Vec.add origin (rotate angle axis (Vec.sub q origin))))
    with (rotate angle axis (Vec.sub p q)).
  - apply rotate_dot. by rewrite <- norm_sq, Hk, Rmult_1_l.
  - replace (Vec.sub p q) with (Vec.sub (Vec.sub p origin) (Vec.sub q origin))
      by (apply vec_eq; simpl; ring).
    rewrite rotate_sub. apply vec_eq; simpl; ring.
Qed.

(** C8 (rotation is an isometry).  For a unit axis, any angle and any
    origin, [apply_rotation_about_axis] leaves the distance between
    every two atoms as it was; in particular it changes by at most
    1e-10. *)
Theorem rotation_isometry (m : Molecule) (angle : R) (axis origin : vec)
    (atom1_id atom2_id : nat) :
  Vec.norm axis = 1 ->
  get_atom_distance (apply_rotation_about_axis m angle axis origin)
    atom1_id atom2_id
  = get_atom_distance m atom1_id atom2_id
  /\ forall d d',
       get_atom_distance m atom1_id atom2_id = Val d ->
       get_atom_distance (apply_rotation_about_axis m angle axis origin)
         atom1_id atom2_id = Val d' ->
       Rabs (d' - d) <= 1 / 10000000000.
Proof.
  intros Hk.
  assert (Heq : get_atom_distance (apply_rotation_about_axis m angle axis origin)
                  atom1_id atom2_id
                = get_atom_distance m atom1_id atom2_id).
  { unfold get_atom_distance, apply_rotation_about_axis. simpl.
    rewrite !list_lookup_fmap.
    destruct (position_matrix m !! atom1_id) as [p|]; simpl; [|done].
    destruct (position_matrix m !! atom2_id) as [q|]; simpl; [|done].
    f_equal. by apply moved_distance. }
  split; [done|]. intros d d' Hd Hd'. rewrite Heq, Hd in Hd'.
  injection Hd' as <-. replace (d - d) with 0 by lra. rewrite Rabs_R0. lra.
Qed.
End RotationFacts.

Lemma rotation_isometry_witness :
  Molecule.get_atom_distance
    (Molecule.apply_rotation_about_axis
       (Molecule.mkMolecule [Vec.mk 1 0 0; Vec.mk 0 2 0]) (PI / 2)
       (Vec.mk 0 0 1) (Vec.mk 1 1 1)) 0 1
  = Molecule.get_atom_distance (Molecule.mkMolecule [Vec.mk 1 0 0; Vec.mk 0 2 0]) 0 1.
Proof.
  refine (proj1 (rotation_isometry (Molecule.mkMolecule [Vec.mk 1 0 0; Vec.mk 0 2 0])
                   (PI / 2) (Vec.mk 0 0 1) (Vec.mk 1 1 1) 0 1 _)).
  rewrite norm_z, Rabs_R1. reflexivity.
Defined.

(** ** Scaling a vertex *)

(** C9 (scaling).  After [apply_scale(s)] the position of a vertex is
    [s] times what it was and nothing else has changed, the
    custom-position flag included; [apply_scale(1.0)] changes nothing at
    all. *)
Theorem scale_multiplicative (v : TopologyGraph.Vertex) (s : R) :
  let v' := TopologyGraph.apply_scale v s in
  TopologyGraph.get_position v' = Vec.scale s (TopologyGraph.get_position v)
  /\ TopologyGraph.id v' = TopologyGraph.id v
  /\ TopologyGraph.edge_ids v' = TopologyGraph.edge_ids v
  /\ TopologyGraph.cell v' = TopologyGraph.cell v
  /\ TopologyGraph.custom_position v' = TopologyGraph.custom_position v
  /\ TopologyGraph.attributes v' = TopologyGraph.attributes v
  /\ TopologyGraph.apply_scale v 1 = v.
Proof.
  cbv zeta. split_and!; try reflexivity.
  destruct v as [i [px py pz] e c cp a]. unfold TopologyGraph.apply_scale. simpl.
  f_equal. apply vec_eq; simpl; lra.
Qed.

(* ================================================================== *)
(** * Part III: further properties of the code *)
(* ================================================================== *)

(** ** More on the atom-to-position matcher *)

Section PairMore.
Import Cage.
Context {BondType : Type}.
Implicit Types (h : heap) (acc : list (atom_id * loc)).

Lemma greedy_pairs_keeps cands : forall acc x,
  x ∈ acc -> x ∈ greedy_pairs acc cands.
Proof.
  induction cands as [|[[d a] p] rest IH]; intros acc x Hx; simpl; [done|].
  destruct (uses_atom_or_position acc a p); apply IH; [done|].
  apply elem_of_app. by left.
Qed.

Lemma greedy_pairs_from cands : forall acc a p,
  (a, p) ∈ greedy_pairs acc cands ->
  (a, p) ∈ acc \/ exists d, (d, a, p) ∈ cands.
Proof.
  induction cands as [|[[d a'] p'] rest IH]; intros acc a p Hin; simpl in Hin.
  - by left.
  - destruct (uses_atom_or_position acc a' p').
    + destruct (IH _ _ _ Hin) as [?|[d' ?]]; [by left|].
      right. exists d'. by right.
    + destruct (IH _ _ _ Hin) as [Hacc|[d' ?]].
      * apply elem_of_app in Hacc as [?|Hx]; [by left|].
        apply list_elem_of_singleton in Hx as [= -> ->].
        right. exists d. by left.
      * right. exists d'. by right.
Qed.

Lemma greedy_pairs_covers cands : forall acc d a p,
  (d, a, p) ∈ cands ->
  a ∈ (greedy_pairs acc cands).*1 \/ p ∈ (greedy_pairs acc cands).*2.
Proof.
  induction cands as [|[[d' a'] p'] rest IH]; intros acc d a p Hin.
  - by apply elem_of_nil in Hin.
  - apply elem_of_cons in Hin as [[= -> -> ->]|Hin]; simpl.
    + destruct (uses_atom_or_position acc a' p') eqn:Hu.
      * apply uses_atom_or_position_true in Hu as [Ha|Hp]; [left|right].
        -- apply list_elem_of_fmap in Ha as (x & -> & Hx).
           apply list_elem_of_fmap. exists x. split; [done|].
           by apply greedy_pairs_keeps.
        -- apply list_elem_of_fmap in Hp as (x & -> & Hx).
           apply list_elem_of_fmap. exists x. split; [done|].
           by apply greedy_pairs_keeps.
      * left. apply list_elem_of_fmap. exists (a', p'). split; [done|].
        apply greedy_pairs_keeps, elem_of_app. right. by left.
    + destruct (uses_atom_or_position acc a' p'); by eapply IH.
Qed.

Lemma elem_of_pair_candidates h scale (m : MacroMolecule BondType) vertex d a p :
  (d, a, p) ∈ pair_candidates h scale m vertex
  <-> a ∈ bonder_ids (h !!! vertex) /\ p ∈ connected (h !!! vertex)
      /\ d = Vec.euclidean (atom_coords m a) (Vec.scale scale (coord (h !!! p))).
Proof.
  unfold pair_candidates. rewrite list_elem_of_In, in_flat_map. split.
  - intros (b & Hb & Hin). apply in_map_iff in Hin as (q & [= <- <- <-] & Hq).
    by rewrite !list_elem_of_In.
  - intros (Ha & Hp & ->). exists a. rewrite <- list_elem_of_In. split; [done|].
    apply in_map_iff. exists p. by rewrite <- list_elem_of_In.
Qed.

(** The pairs stored on a vertex, whether or not the vertex exists. *)
Lemma stored_pairs h scale (m : MacroMolecule BondType) vertex :
  atom_position_pairs (pair_bonders_with_positions h scale m vertex !!! vertex)
  = greedy_pairs [] (stable_sort key_lt (pair_candidates h scale m vertex)).
Proof.
  destruct (h !! vertex) as [v|] eqn:Hv; [by apply pair_bonders_stored|].
  rewrite pair_bonders_dangling by done.
  unfold pair_candidates. by rewrite (lookup_total_alt h), Hv.
Qed.

(** X1.  [pair_bonders_with_positions] pairs only bonder atoms of the
    vertex with positions connected to it, and the pairing cannot be
    extended: of a bonder atom and a connected position at least one is
    paired.  So every bonder atom gets a position when there are enough
    positions, and every position an atom when there are enough atoms. *)
Theorem pairing_maximal h scale (m : MacroMolecule BondType) vertex :
  let pairs :=
    atom_position_pairs (pair_bonders_with_positions h scale m vertex !!! vertex) in
  Forall (fun ap => ap.1 ∈ bonder_ids (h !!! vertex)
                    /\ ap.2 ∈ connected (h !!! vertex)) pairs
  /\ Forall (fun a => Forall (fun p => a ∈ pairs.*1 \/ p ∈ pairs.*2)
                        (connected (h !!! vertex)))
            (bonder_ids (h !!! vertex)).
Proof.
  cbv zeta. rewrite stored_pairs. split.
  - apply Forall_forall. intros [a p] Hin.
    apply greedy_pairs_from in Hin as [[]%elem_of_nil|[d Hd]].
    rewrite stable_sort_perm in Hd.
    apply elem_of_pair_candidates in Hd. simpl. tauto.
  - apply Forall_forall. intros a Ha. apply Forall_forall. intros p Hp.
    eapply (greedy_pairs_covers _ []). rewrite stable_sort_perm.
    apply elem_of_pair_candidates. eauto.
Qed.
End PairMore.

Section PairOrder.
Import Cage.
Context {BondType : Type}.
Implicit Types (h : heap) (acc : list (atom_id * loc)).

Lemma greedy_pairs_prefix cands : forall acc,
  exists more, greedy_pairs acc cands = acc ++ more.
Proof.
  induction cands as [|[[d a] p] rest IH]; intros acc; simpl.
  - exists []. by rewrite app_nil_r.
  - destruct (uses_atom_or_position acc a p); [apply IH|].
    destruct (IH (acc ++ [(a, p)])) as [more ->].
    exists ((a, p) :: more). by rewrite <- app_assoc.
Qed.

Lemma pair_candidates_nonempty h scale (m : MacroMolecule BondType) vertex :
  bonder_ids (h !!! vertex) <> [] -> connected (h !!! vertex) <> [] ->
  pair_candidates h scale m vertex <> [].
Proof.
  intros Hb Hc Hnil.
  destruct (bonder_ids (h !!! vertex)) as [|a ?] eqn:Ea; [done|].
  destruct (connected (h !!! vertex)) as [|p ?] eqn:Ep; [done|].
  assert (Hin : (Vec.euclidean (atom_coords m a) (Vec.scale scale (coord (h !!! p))), a, p)
                ∈ pair_candidates h scale m vertex).
  { apply elem_of_pair_candidates. rewrite Ea, Ep. split_and!; [left|left|done]. }
  rewrite Hnil in Hin. by apply elem_of_nil in Hin.
Qed.

(** X2.  When the vertex has a bonder atom and a connected position,
    the first pair [pair_bonders_with_positions] stores is a nearest
    one: no bonder atom of the vertex is closer to any connected
    position (scaled) than the atom of the first pair is to its
    position. *)
Theorem nearest_pair_first h scale (m : MacroMolecule BondType) vertex :
  bonder_ids (h !!! vertex) <> [] -> connected (h !!! vertex) <> [] ->
  exists a0 p0 rest,
    atom_position_pairs (pair_bonders_with_positions h scale m vertex !!! vertex)
    = (a0, p0) :: rest
    /\ a0 ∈ bonder_ids (h !!! vertex) /\ p0 ∈ connected (h !!! vertex)
    /\ forall a p, a ∈ bonder_ids (h !!! vertex) -> p ∈ connected (h !!! vertex) ->
         (Vec.euclidean (atom_coords m a0) (Vec.scale scale (coord (h !!! p0)))
          <= Vec.euclidean (atom_coords m a) (Vec.scale scale (coord (h !!! p))))%R.
Proof.
  intros Hb Hc. rewrite stored_pairs.
  pose proof (pair_candidates_nonempty h scale m vertex Hb Hc) as Hne.
  pose proof (stable_sort_perm key_lt (pair_candidates h scale m vertex)) as Hperm.
  assert (Hsorted : Sorted by_distance
            (stable_sort key_lt (pair_candidates h scale m vertex))).
  { apply stable_sort_Sorted;
      [apply key_lt_by_distance|apply not_key_lt_by_distance]. }
  destruct (stable_sort key_lt (pair_candidates h scale m vertex))
    as [|[[d0 a0] p0] sorted] eqn:Es.
  { by apply Permutation_nil in Hperm. }
  simpl. destruct (greedy_pairs_prefix sorted [(a0, p0)]) as [rest ->].
  exists a0, p0, rest.
  assert (H0 : (d0, a0, p0) ∈ pair_candidates h scale m vertex).
  { rewrite <- Hperm. by left. }
  apply elem_of_pair_candidates in H0 as (Ha0 & Hp0 & Hd0).
  split_and!; [done..|].
  intros a p Ha Hp. rewrite <- Hd0.
  set (d := Vec.euclidean (atom_coords m a) (Vec.scale scale (coord (h !!! p)))).
  assert (Hin : (d, a, p) ∈ (d0, a0, p0) :: sorted).
  { rewrite Hperm. apply elem_of_pair_candidates. done. }
  apply Sorted_StronglySorted in Hsorted; [|apply by_distance_trans].
  apply StronglySorted_inv in Hsorted as [_ Hall].
  apply elem_of_cons in Hin as [[= <- _ _]|Hin]; [lra|].
  rewrite Forall_forall in Hall.
  exact (Hall _ Hin).
Qed.

(** The store after the pairing loop. *)
Lemma pair_loop_heap vertex cands : forall st acc h0,
  ps_heap st = alter (set_atom_position_pairs (fun _ => acc)) vertex h0 ->
  (forall a, a ∈ paired_ids st <-> a ∈ acc.*1) ->
  (forall p, p ∈ paired_pos st <-> p ∈ acc.*2) ->
  ps_heap (foldl (pair_step vertex) st cands)
  = alter (set_atom_position_pairs (fun _ => greedy_pairs acc cands)) vertex h0.
Proof.
  induction cands as [|[[d a] p] rest IH]; intros st acc h0 Hst Hids Hpos; simpl.
  - done.
  - assert (Hcond : bool_decide (a ∈ paired_ids st) || bool_decide (p ∈ paired_pos st)
                    = uses_atom_or_position acc a p).
    { apply eq_true_iff_eq. rewrite uses_atom_or_position_true, orb_true_iff,
        !bool_decide_eq_true, Hids, Hpos. done. }
    rewrite Hcond. destruct (uses_atom_or_position acc a p).
    + by apply IH.
    + apply IH; simpl.
      * rewrite Hst, alter_alter_eq. by apply alter_ext.
      * intros a'. rewrite fmap_app, elem_of_union, elem_of_singleton,
          elem_of_app, Hids. simpl. rewrite list_elem_of_singleton. tauto.
      * intros p'. rewrite fmap_app, elem_of_union, elem_of_singleton,
          elem_of_app, Hpos. simpl. rewrite list_elem_of_singleton. tauto.
Qed.

Lemma pair_bonders_heap h scale (m : MacroMolecule BondType) vertex :
  pair_bonders_with_positions h scale m vertex
  = alter (set_atom_position_pairs
             (fun _ => greedy_pairs []
                         (stable_sort key_lt (pair_candidates h scale m vertex))))
          vertex h.
Proof.
  unfold pair_bonders_with_positions. rewrite position_distances_candidates.
  apply pair_loop_heap; simpl; [done|set_solver..].
Qed.

Lemma pair_candidates_ext h h' scale (m : MacroMolecule BondType) vertex :
  (forall l, coord (h' !!! l) = coord (h !!! l)
             /\ connected (h' !!! l) = connected (h !!! l)
             /\ bonder_ids (h' !!! l) = bonder_ids (h !!! l)) ->
  pair_candidates h' scale m vertex = pair_candidates h scale m vertex.
Proof.
  intros Hsame. unfold pair_candidates.
  destruct (Hsame vertex) as (_ & -> & ->).
  apply flat_map_ext. intros b.
  apply map_ext. intros p. by destruct (Hsame p) as (-> & _).
Qed.

Lemma lookup_total_set_pairs h f vertex l :
  coord (alter (set_atom_position_pairs f) vertex h !!! l) = coord (h !!! l)
  /\ connected (alter (set_atom_position_pairs f) vertex h !!! l) = connected (h !!! l)
  /\ bonder_ids (alter (set_atom_position_pairs f) vertex h !!! l) = bonder_ids (h !!! l).
Proof.
  rewrite !lookup_total_alt, lookup_alter.
  case_decide; [subst|done]. by destruct (h !! l).
Qed.

(** X3.  [pair_bonders_with_positions] touches the vertex it is given
    and nothing else, and on that vertex only [atom_position_pairs];
    the pairs stored before the call are discarded, so the result does
    not depend on them and a second call changes nothing. *)
Theorem pairing_replaces_old_pairs h scale (m : MacroMolecule BondType) vertex :
  let h' := pair_bonders_with_positions h scale m vertex in
  (forall l, l <> vertex -> h' !! l = h !! l)
  /\ (dom h' = dom h
      /\ coord (h' !!! vertex) = coord (h !!! vertex)
      /\ custom_position (h' !!! vertex) = custom_position (h !!! vertex)
      /\ connected (h' !!! vertex) = connected (h !!! vertex)
      /\ bonder_ids (h' !!! vertex) = bonder_ids (h !!! vertex)
      /\ distances (h' !!! vertex) = distances (h !!! vertex)
      /\ id (h' !!! vertex) = id (h !!! vertex))
  /\ (forall old,
        pair_bonders_with_positions
          (alter (set_atom_position_pairs (fun _ => old)) vertex h) scale m vertex
        = h')
  /\ pair_bonders_with_positions h' scale m vertex = h'.
Proof.
  cbv zeta. rewrite pair_bonders_heap.
  set (pairs := greedy_pairs [] _).
  assert (Hold : forall old,
    pair_bonders_with_positions
      (alter (set_atom_position_pairs (fun _ => old)) vertex h) scale m vertex
    = alter (set_atom_position_pairs (fun _ => pairs)) vertex h).
  { intros old. rewrite pair_bonders_heap, alter_alter_eq.
    rewrite (pair_candidates_ext h) by (intros; apply lookup_total_set_pairs).
    by apply alter_ext. }
  split_and!.
  - intros l Hl. by rewrite lookup_alter_ne.
  - apply dom_alter_L.
  - rewrite !lookup_total_alt, lookup_alter_eq. by destruct (h !! vertex).
  - rewrite !lookup_total_alt, lookup_alter_eq. by destruct (h !! vertex).
  - rewrite !lookup_total_alt, lookup_alter_eq. by destruct (h !! vertex).
  - rewrite !lookup_total_alt, lookup_alter_eq. by destruct (h !! vertex).
  - rewrite !lookup_total_alt, lookup_alter_eq. by destruct (h !! vertex).
  - rewrite !lookup_total_alt, lookup_alter_eq. by destruct (h !! vertex).
  - exact Hold.
  - apply Hold.
Qed.
End PairOrder.

Lemma nearest_pair_first_witness :
  exists a0 p0 rest,
    Cage.atom_position_pairs
      (Cage.pair_bonders_with_positions Examples.line_heap 1 Examples.line_mol 2%nat !!! 2%nat)
    = (a0, p0) :: rest
    /\ a0 ∈ Cage.bonder_ids (Examples.line_heap !!! 2%nat)
    /\ p0 ∈ Cage.connected (Examples.line_heap !!! 2%nat)
    /\ forall a p, a ∈ Cage.bonder_ids (Examples.line_heap !!! 2%nat) ->
         p ∈ Cage.connected (Examples.line_heap !!! 2%nat) ->
         (Vec.euclidean (Cage.atom_coords Examples.line_mol a0)
            (Vec.scale 1 (Cage.coord (Examples.line_heap !!! p0)))
          <= Vec.euclidean (Cage.atom_coords Examples.line_mol a)
               (Vec.scale 1 (Cage.coord (Examples.line_heap !!! p))))%R.
Proof.
  apply (nearest_pair_first Examples.line_heap 1 Examples.line_mol 2%nat).
  - vm_compute. discriminate.
  - vm_compute. discriminate.
Defined.

(** ** More on the bonding loop *)

Section JoinMore.
Import Cage.
Context {BondType : Type}.
Variable determine_bond_type :
  MacroMolecule BondType -> atom_id -> atom_id -> BondType.
Implicit Types (h : heap) (m : MacroMolecule BondType).

Lemma elem_of_bond_candidates h m p d a1 a2 :
  (d, a1, a2) ∈ bond_candidates h m p
  <-> exists v, (a1, v) ∈ atom_position_pairs (h !!! p)
                /\ a2 ∈ bonder_ids (h !!! v)
                /\ d = atom_distance m a1 a2.
Proof.
  unfold bond_candidates. rewrite list_elem_of_In, in_flat_map. split.
  - intros ([a v] & Hav & Hin).
    apply in_map_iff in Hin as (b & [= <- <- <-] & Hb).
    exists v. by rewrite !list_elem_of_In.
  - intros (v & Hav & Hb & ->). exists (a1, v).
    rewrite <- list_elem_of_In. split; [done|].
    apply in_map_iff. exists a2. by rewrite <- list_elem_of_In.
Qed.

Lemma record_distances_fields positions : forall h m l,
  let v' := record_distances h m positions !!! l in
  let v := h !!! l in
  coord v' = coord v /\ connected v' = connected v
  /\ bonder_ids v' = bonder_ids v
  /\ atom_position_pairs v' = atom_position_pairs v.
Proof.
  induction positions as [|q r IH]; intros h m l; [done|].
  rewrite record_distances_fold. simpl. rewrite <- record_distances_fold.
  destruct (IH (record_position m h q) m l) as (-> & -> & -> & ->).
  rewrite record_position_alter. apply lookup_total_set_distances.
Qed.

Lemma new_bonds_from_pairs h m positions_A a1 a2 :
  (forall p, p ∈ positions_A -> distances (h !!! p) = []) ->
  (a1, a2) ∈ (new_bonds m (join_mols determine_bond_type h m positions_A)).*1 ->
  exists p v, p ∈ positions_A
    /\ (a1, v) ∈ atom_position_pairs (h !!! p)
    /\ a2 ∈ bonder_ids (h !!! v).
Proof.
  intros Hfl (p & d & Hp & Hd)%new_bonds_from_candidates.
  rewrite (Hfl p Hp) in Hd. simpl in Hd.
  apply elem_of_bond_candidates in Hd as (v & Hav & Hb & _).
  by exists p, v.
Qed.

(** X4.  Run on flushed distances, [join_mols] either returns or
    raises the [RuntimeError] of [AddBond].  When it returns, the
    molecule has the bonds it had, in their order, with the new ones
    behind them, and every new bond joins an atom that some position
    of [positions_A] is paired with to a bonder atom of the object that
    atom is paired with, two different atoms that the molecule had not
    bonded.  When it raises, the bonds of the molecule are as they
    were, and some such pair of atoms is a pair of an atom with itself
    or of two atoms the molecule had bonded already. *)
Theorem join_mols_bonds_from_pairs h m positions_A :
  (forall p, p ∈ positions_A -> distances (h !!! p) = []) ->
  match Rdkit.join_mols determine_bond_type h m positions_A with
  | inr r =>
      mol_bonds (jr_mol r) = mol_bonds m ++ new_bonds m r
      /\ Forall (fun b =>
                   (exists p v,
                      p ∈ positions_A
                      /\ (b.1.1, v) ∈ atom_position_pairs (h !!! p)
                      /\ b.1.2 ∈ bonder_ids (h !!! v))
                   /\ b.1.1 <> b.1.2
                   /\ Rdkit.GetBondBetweenAtoms (mol_bonds m) b.1.1 b.1.2 = false)
                (new_bonds m r)
  | inl (e, r) =>
      e = Rdkit.RuntimeError
      /\ mol_bonds (jr_mol r) = mol_bonds m
      /\ exists p v a1 a2,
           p ∈ positions_A
           /\ (a1, v) ∈ atom_position_pairs (h !!! p)
           /\ a2 ∈ bonder_ids (h !!! v)
           /\ (a1 = a2 \/ Rdkit.GetBondBetweenAtoms (mol_bonds m) a1 a2 = true)
  end.
Proof.
  intros Hfl.
  pose proof (join_mols_cases determine_bond_type h m positions_A) as Hc.
  cbv zeta in Hc.
  destruct (Rdkit.join_mols _ _ _ _) as [[[] r]|r].
  - destruct Hc as (Hn & Hm & _). split; [done|]. split; [done|].
    apply not_Forall_Exists in Hn;
      [|intros b; unfold Rdkit.addable; solve_decision].
    apply Exists_exists in Hn as ([a1 a2] & Hin & Hbad).
    unfold Rdkit.addable in Hbad. simpl in Hbad.
    destruct (new_bonds_from_pairs h m positions_A a1 a2 Hfl Hin)
      as (p & v & Hp & Hav & Hb).
    exists p, v, a1, a2. split_and!; [done..|].
    destruct (decide (a1 = a2)) as [|Hne]; [by left|right].
    destruct (Rdkit.GetBondBetweenAtoms (mol_bonds m) a1 a2); [done|].
    by destruct Hbad.
  - destruct Hc as [-> Hall]. split.
    + apply (join_mols_new_bonds determine_bond_type h m positions_A).
    + apply Forall_forall. intros [[a1 a2] t] Hb. simpl.
      assert (Hin : (a1, a2)
                ∈ (new_bonds m (join_mols determine_bond_type h m positions_A)).*1).
      { apply list_elem_of_fmap. by exists (a1, a2, t). }
      split; [by apply (new_bonds_from_pairs h m positions_A)|].
      apply (proj1 (Forall_forall _ _) Hall (a1, a2) Hin).
Qed.

(** X5.  [join_mols] never clears [distances]: a position of
    [positions_A] (existing, listed once) holds afterwards what it held
    before followed by its candidates, each a paired atom of the
    position with a bonder atom of the object it is paired with.  No
    other object changes, and positions, connections, bonder atoms and
    pairs stay as they were. *)
Theorem join_mols_appends_distances h m positions_A :
  NoDup positions_A ->
  (forall p, p ∈ positions_A -> is_Some (h !! p)) ->
  let r := join_mols determine_bond_type h m positions_A in
  Forall (fun p => distances (jr_heap r !!! p)
                   = distances (h !!! p) ++ bond_candidates h m p) positions_A
  /\ (forall l, l ∉ positions_A -> jr_heap r !!! l = h !!! l)
  /\ (forall l, coord (jr_heap r !!! l) = coord (h !!! l)
                /\ connected (jr_heap r !!! l) = connected (h !!! l)
                /\ bonder_ids (jr_heap r !!! l) = bonder_ids (h !!! l)
                /\ atom_position_pairs (jr_heap r !!! l)
                   = atom_position_pairs (h !!! l)).
Proof.
  intros Hnd Hall. cbv zeta. unfold join_mols. simpl. split_and!.
  - apply Forall_forall. intros p Hp.
    by rewrite record_distances_spec.
  - intros l Hl. by apply record_distances_frame.
  - intros l. apply record_distances_fields.
Qed.
End JoinMore.

Lemma join_mols_bonds_from_pairs_witness :
  match Cage.Rdkit.join_mols Examples.single_bond Examples.line_heap
          Examples.line_mol [0; 1] with
  | inr r =>
      Cage.mol_bonds (Cage.jr_mol r)
      = Cage.mol_bonds Examples.line_mol ++ Cage.new_bonds Examples.line_mol r
      /\ Forall (fun b =>
                   (exists p v,
                      p ∈ [0; 1]
                      /\ (b.1.1, v) ∈ Cage.atom_position_pairs (Examples.line_heap !!! p)
                      /\ b.1.2 ∈ Cage.bonder_ids (Examples.line_heap !!! v))
                   /\ b.1.1 <> b.1.2
                   /\ Cage.Rdkit.GetBondBetweenAtoms
                        (Cage.mol_bonds Examples.line_mol) b.1.1 b.1.2 = false)
                (Cage.new_bonds Examples.line_mol r)
  | inl (e, r) =>
      e = Cage.Rdkit.RuntimeError
      /\ Cage.mol_bonds (Cage.jr_mol r) = Cage.mol_bonds Examples.line_mol
      /\ exists p v a1 a2,
           p ∈ [0; 1]
           /\ (a1, v) ∈ Cage.atom_position_pairs (Examples.line_heap !!! p)
           /\ a2 ∈ Cage.bonder_ids (Examples.line_heap !!! v)
           /\ (a1 = a2
               \/ Cage.Rdkit.GetBondBetweenAtoms
                    (Cage.mol_bonds Examples.line_mol) a1 a2 = true)
  end.
Proof.
  apply (join_mols_bonds_from_pairs Examples.single_bond Examples.line_heap
           Examples.line_mol [0; 1]).
  intros p Hp. destruct (line_heap_flushed p Hp) as (v & Hv & Hd).
  by rewrite (lookup_total_correct _ _ _ Hv).
Defined.

Lemma join_mols_appends_distances_witness :
  let r := Cage.join_mols Examples.single_bond Examples.line_heap
             Examples.line_mol [0; 1] in
  Forall (fun p => Cage.distances (Cage.jr_heap r !!! p)
                   = Cage.distances (Examples.line_heap !!! p)
                     ++ Cage.bond_candidates Examples.line_heap Examples.line_mol p)
         [0; 1]
  /\ (forall l, l ∉ [0; 1] -> Cage.jr_heap r !!! l = Examples.line_heap !!! l)
  /\ (forall l, Cage.coord (Cage.jr_heap r !!! l) = Cage.coord (Examples.line_heap !!! l)
                /\ Cage.connected (Cage.jr_heap r !!! l)
                   = Cage.connected (Examples.line_heap !!! l)
                /\ Cage.bonder_ids (Cage.jr_heap r !!! l)
                   = Cage.bonder_ids (Examples.line_heap !!! l)
                /\ Cage.atom_position_pairs (Cage.jr_heap r !!! l)
                   = Cage.atom_position_pairs (Examples.line_heap !!! l)).
Proof.
  apply (join_mols_appends_distances Examples.single_bond Examples.line_heap
           Examples.line_mol [0; 1]).
  - apply NoDup_cons. split; [|apply NoDup_singleton].
    intros ?%list_elem_of_singleton. lia.
  - intros p Hp. destruct (line_heap_flushed p Hp) as (v & Hv & _). by exists v.
Defined.

(** ** The geometry of a vertex and its connections *)

Section VertexGeometry.
Import Cage.
Local Open Scope R_scope.
Implicit Types (h : heap).

Lemma combinations2_length {A} (l : list A) :
  (2 * length (combinations2 l) = length l * (length l - 1))%nat.
Proof.
  induction l as [|a r IH]; simpl; [done|].
  rewrite length_app, length_map. nia.
Qed.

Lemma foldl_snoc_map {A B} (f : A -> B) (l : list A) : forall acc,
  foldl (fun acc x => acc ++ [f x]) acc l = acc ++ map f l.
Proof.
  induction l as [|a r IH]; intros acc; simpl.
  - by rewrite app_nil_r.
  - by rewrite IH, <- app_assoc.
Qed.

Lemma normalize_vector_outcome (v : vec) :
  Utilities.normalize_vector v = NaN
  \/ exists u, Utilities.normalize_vector v = Val u.
Proof. unfold Utilities.normalize_vector. case_decide; eauto. Qed.

(** X6.  A vertex with [n] connections yields [n (n - 1) / 2]
    direction vectors, one for each pair of connections.  Its
    coordinate matrix has one row for each connection, holding the
    coordinates of the connection times the scale, except that without
    connections it is the matrix of shape (1, 0): one row without
    entries.  [edge_plane_normal] fails to unpack two direction vectors
    exactly when the vertex has fewer than three connections, the
    message telling how many vectors there were; with three or more it
    raises no [ValueError]. *)
Theorem edge_direction_vectors_count h self scale :
  let n := length (connected (h !!! self)) in
  (2 * length (edge_direction_vectors h self scale) = n * (n - 1))%nat
  /\ edge_coord_matrix h self scale
     = match connected (h !!! self) with
       | [] => [[]]
       | cs => map (fun e => [scale * Vec.x (coord (h !!! e));
                              scale * Vec.y (coord (h !!! e));
                              scale * Vec.z (coord (h !!! e))]) cs
       end
  /\ length (edge_coord_matrix h self scale) = Nat.max 1 n
  /\ match n with
     | 0%nat | 1%nat =>
         edge_plane_normal h self scale
         = Raise (ValueError "not enough values to unpack (expected 2, got 0)")
     | 2%nat =>
         edge_plane_normal h self scale
         = Raise (ValueError "not enough values to unpack (expected 2, got 1)")
     | _ => no_value_error (edge_plane_normal h self scale)
     end.
Proof.
  cbv zeta.
  assert (Hm : edge_coord_matrix h self scale
     = match connected (h !!! self) with
       | [] => [[]]
       | cs => map (fun e => [scale * Vec.x (coord (h !!! e));
                              scale * Vec.y (coord (h !!! e));
                              scale * Vec.z (coord (h !!! e))]) cs
       end).
  { unfold edge_coord_matrix. rewrite foldl_snoc_map. simpl.
    destruct (connected (h !!! self)) as [|c cs]; [done|].
    unfold np_matrix. cbn [map]. by rewrite map_map. }
  split_and!.
  - unfold edge_direction_vectors. rewrite length_map. apply combinations2_length.
  - exact Hm.
  - rewrite Hm. destruct (connected (h !!! self)) as [|c cs]; [done|].
    rewrite length_map. simpl. lia.
  - unfold edge_plane_normal, edge_direction_vectors.
    destruct (connected (h !!! self)) as [|c0 [|c1 [|c2 rest]]];
      [reflexivity..|].
    cbn [combinations2 map app take length].
    intros msg.
    destruct (normalize_vector_outcome
                (Vec.scale scale (Vec.sub (coord (h !!! c0)) (coord (h !!! c1)))))
      as [->|[u1 ->]]; [done|].
    destruct (normalize_vector_outcome
                (Vec.scale scale (Vec.sub (coord (h !!! c0)) (coord (h !!! c2)))))
      as [->|[u2 ->]]; [done|].
    cbn [obind].
    destruct (normalize_vector_outcome (Vec.cross u1 u2)) as [->|[u ->]]; [done|].
    cbn [obind]. by destruct (Utilities.gt_float _ _).
Qed.

Lemma normalize_vector_scale s (v : vec) :
  0 < s ->
  Utilities.normalize_vector (Vec.scale s v) = Utilities.normalize_vector v.
Proof.
  intros Hs. unfold Utilities.normalize_vector.
  rewrite norm_scale, Rabs_pos_eq by lra.
  destruct (decide (Vec.norm v = 0)) as [Hv|Hv].
  - rewrite decide_True; [done|]. rewrite Hv. lra.
  - rewrite decide_False.
    + f_equal. apply vec_eq; simpl; field; split; lra.
    + intros [?|?]%Rmult_integral; lra.
Qed.

Lemma vector_angle_scale_r s a b :
  0 < s ->
  Utilities.vector_angle a (Vec.scale s b) = Utilities.vector_angle a b.
Proof.
  intros Hs. unfold Utilities.vector_angle.
  rewrite norm_scale, Rabs_pos_eq by lra.
  destruct (decide (Vec.norm a * Vec.norm b = 0)) as [Hz|Hz].
  - rewrite decide_True; [done|].
    rewrite <- Rmult_assoc, (Rmult_comm (Vec.norm a) s), Rmult_assoc, Hz. lra.
  - assert (Ha : Vec.norm a <> 0) by (intros E; apply Hz; rewrite E; lra).
    assert (Hb : Vec.norm b <> 0) by (intros E; apply Hz; rewrite E; lra).
    rewrite decide_False.
    + do 3 f_equal. unfold Vec.dot, Vec.scale. simpl. field. split_and!; lra.
    + intros [?|[?|?]%Rmult_integral]%Rmult_integral; lra.
Qed.

(** X7.  The direction vectors between the connections of a vertex and
    the plane normal [edge_plane_normal] do not depend on the scale, as
    long as it is positive: scaling the topology moves no direction. *)
Theorem edge_plane_normal_scale_free h self s :
  0 < s ->
  edge_direction_vectors h self s = edge_direction_vectors h self 1
  /\ edge_plane_normal h self s = edge_plane_normal h self 1.
Proof.
  intros Hs.
  assert (Hdirs : edge_direction_vectors h self s = edge_direction_vectors h self 1).
  { unfold edge_direction_vectors. apply map_ext. intros [e1 e2].
    rewrite (normalize_vector_scale s), (normalize_vector_scale 1) by lra. done. }
  split; [done|].
  unfold edge_plane_normal. rewrite Hdirs.
  destruct (take 2 (edge_direction_vectors h self 1)) as [|d1 [|d2 [|? ?]]]; try done.
  destruct d1 as [u1| |]; [|done..]. destruct d2 as [u2| |]; [|done..].
  cbn [obind].
  destruct (Utilities.normalize_vector (Vec.cross u1 u2)) as [u| |]; [|done..].
  cbn [obind]. destruct (connected (h !!! self)) as [|c0 ?]; [done|].
  rewrite (vector_angle_scale_r s), (vector_angle_scale_r 1) by lra. done.
Qed.

Lemma foldl_add_sum {A} (g : A -> vec) (l : list A) : forall acc,
  foldl (fun acc e => Vec.add acc (g e)) acc l = Vec.add acc (Vec.sum (map g l)).
Proof.
  induction l as [|a r IH]; intros acc; simpl.
  - apply vec_eq; simpl; lra.
  - rewrite IH. apply vec_eq; simpl; lra.
Qed.

Lemma sum_scale {A} s (f : A -> vec) (l : list A) :
  Vec.sum (map (fun e => Vec.scale s (f e)) l) = Vec.scale s (Vec.sum (map f l)).
Proof.
  induction l as [|a r IH]; simpl.
  - apply vec_eq; simpl; lra.
  - rewrite IH. apply vec_eq; simpl; lra.
Qed.

Lemma edge_centroid_nonempty h self s c :
  Utilities.centroid (map (fun e => coord (h !!! e)) (connected (h !!! self))) = Val c ->
  edge_centroid h self s = inr (Vec.scale s c).
Proof.
  unfold Utilities.centroid, edge_centroid.
  destruct (connected (h !!! self)) as [|c0 rest] eqn:E; [done|].
  intros [= <-]. f_equal. rewrite foldl_add_sum, sum_scale, length_map.
  apply vec_eq; simpl; lra.
Qed.

(** X8.  [edge_centroid] of a vertex without connections divides by
    zero; otherwise it is the centroid of the connected positions
    multiplied by the scale. *)
Theorem edge_centroid_scaled_centroid h self s :
  match Utilities.centroid
          (map (fun e => coord (h !!! e)) (connected (h !!! self))) with
  | Val c => edge_centroid h self s = inr (Vec.scale s c)
  | _ => connected (h !!! self) = []
         /\ edge_centroid h self s = inl ZeroDivisionError
  end.
Proof.
  destruct (Utilities.centroid _) as [c| |] eqn:E.
  - by apply edge_centroid_nonempty.
  - unfold Utilities.centroid in E. by destruct (map _ _).
  - unfold Utilities.centroid, edge_centroid in *.
    by destruct (connected (h !!! self)).
Qed.

(** X9.  An object made by [Vertex.vertex_init] from existing vertices
    sits where [edge_centroid] at scale 1 puts it: at the centroid of
    the positions it is connected to. *)
Theorem vertex_init_at_edge_centroid h vs :
  vs <> [] ->
  Forall (fun v => is_Some (h !! v)) vs ->
  exists o h',
    vertex_init h vs = Val (o, h')
    /\ edge_centroid h' o 1 = inr (coord (h' !!! o)).
Proof.
  intros Hne Hvs. unfold vertex_init.
  destruct (Utilities.centroid (map (fun v => coord (h !!! v)) vs)) as [c| |] eqn:Hc;
    [|unfold Utilities.centroid in Hc; by destruct vs..].
  cbn [obind]. eexists _, _. split; [reflexivity|].
  pose proof (new_loc_fresh h) as Hfresh.
  assert (Hconn := connect_new_connected h (new_loc h) c None false vs (new_loc h)
                     Hfresh Hvs).
  rewrite decide_True in Hconn by done.
  assert (Hcoord : forall y,
    coord (foldl (fun h' v => alter (set_connected (fun l => l ++ [new_loc h])) v h')
             (alter (set_connected (fun l => l ++ vs)) (new_loc h)
                (<[new_loc h := Vertex_init c None false]> h)) vs !!! y)
    = if decide (y = new_loc h) then c else coord (h !!! y)).
  { intros y. rewrite lookup_total_alt, connect_new_lookup.
    case_decide; [done|]. rewrite (lookup_total_alt h). by destruct (h !! y). }
  rewrite Hcoord, decide_True by done.
  replace c with (Vec.scale 1 c) at 2 by (apply vec_eq; simpl; lra).
  apply edge_centroid_nonempty. rewrite Hconn, <- Hc. f_equal.
  apply map_ext_in. intros y Hy%list_elem_of_In. rewrite Hcoord.
  rewrite decide_False; [done|]. intros ->.
  eapply Forall_forall in Hvs; [|done]. rewrite Hfresh in Hvs. by destruct Hvs.
Qed.
End VertexGeometry.

Lemma edge_plane_normal_scale_free_witness :
  Cage.edge_plane_normal Examples.corner_heap 0 2
  = Cage.edge_plane_normal Examples.corner_heap 0 1.
Proof.
  refine (proj2 (edge_plane_normal_scale_free Examples.corner_heap 0%nat 2 _)).
  lra.
Defined.

Lemma vertex_init_at_edge_centroid_witness :
  exists o h',
    Cage.vertex_init Examples.line_heap [0; 1] = Val (o, h')
    /\ Cage.edge_centroid h' o 1 = inr (Cage.coord (h' !!! o)).
Proof.
  apply (vertex_init_at_edge_centroid Examples.line_heap [0; 1]).
  - discriminate.
  - repeat constructor; eexists; reflexivity.
Defined.

(** ** The direction of an edge *)

Section EdgeDirection.
Import Cage.
Local Open Scope R_scope.
Context {BondType : Type}.
Implicit Types (h : heap) (mm : option (MacroMolecule BondType)).

(** The store [Edge(v1, v2)] leaves behind, at the new edge and at its
    two vertices. *)
Lemma Edge_init_store h v1 v2 id_ custom :
  is_Some (h !! v1) -> is_Some (h !! v2) ->
  exists h',
    Edge_init h v1 v2 id_ custom = Val (new_loc h, h')
    /\ connected (h' !!! new_loc h) = [v1; v2]
    /\ custom_position (h' !!! new_loc h) = custom
    /\ coord (h' !!! v1) = coord (h !!! v1)
    /\ coord (h' !!! v2) = coord (h !!! v2).
Proof.
  intros H1 H2. rewrite Edge_init_unfold. eexists. split; [reflexivity|].
  pose proof (new_loc_fresh h) as Hfresh.
  assert (H12 : Forall (fun v => is_Some (h !! v)) [v1; v2])
    by (by repeat constructor).
  assert (Hold : forall c y, is_Some (h !! y) ->
    coord (foldl (fun h' v => alter (set_connected (fun l => l ++ [new_loc h])) v h')
             (alter (set_connected (fun l => l ++ [v1; v2])) (new_loc h)
                (<[new_loc h := Vertex_init c id_ custom]> h)) [v1; v2] !!! y)
    = coord (h !!! y)).
  { intros c y [w Hy]. rewrite lookup_total_alt, connect_new_lookup.
    rewrite decide_False by (intros ->; rewrite Hfresh in Hy; done).
    by rewrite (lookup_total_alt h), Hy. }
  split_and!.
  - by rewrite connect_new_connected, decide_True.
  - rewrite lookup_total_alt, connect_new_lookup, decide_True by done. done.
  - by apply Hold.
  - by apply Hold.
Qed.

(** X10.  For a new edge [Edge(v1, v2)] between two existing vertices
    at different places, [direction] without a molecule (or with
    [custom_position] set) is the unit vector running from [v2] to
    [v1], whatever the scale; the edge made from the same vertices in
    the other order points the opposite way; and once a third object is
    appended to the edge's [connected], [direction] fails to unpack. *)
Theorem edge_direction_between_vertices h v1 v2 id_ custom mm scale :
  is_Some (h !! v1) -> is_Some (h !! v2) ->
  coord (h !!! v1) <> coord (h !!! v2) ->
  custom = true \/ mm = None ->
  let d := Vec.sub (coord (h !!! v1)) (coord (h !!! v2)) in
  exists e h' e2 h2,
    Edge_init h v1 v2 id_ custom = Val (e, h')
    /\ direction h' e mm scale = Val (Vec.scale (/ Vec.norm d) d)
    /\ Vec.norm (Vec.scale (/ Vec.norm d) d) = 1
    /\ Edge_init h v2 v1 id_ custom = Val (e2, h2)
    /\ direction h2 e2 mm scale = Val (Vec.scale (-1) (Vec.scale (/ Vec.norm d) d))
    /\ forall v3,
         direction (alter (set_connected (fun l => l ++ [v3])) e h') e mm scale
         = Raise (ValueError "too many values to unpack").
Proof.
  intros H1 H2 Hne Hcase. cbv zeta.
  destruct (Edge_init_store h v1 v2 id_ custom H1 H2)
    as (h' & He & Hconn & Hcustom & Hc1 & Hc2).
  destruct (Edge_init_store h v2 v1 id_ custom H2 H1)
    as (h2 & He2 & Hconn2 & Hcustom2 & Hd2 & Hd1).
  set (d := Vec.sub (coord (h !!! v1)) (coord (h !!! v2))).
  assert (Hd : d <> Vec.zero).
  { intros E. apply Hne. unfold d in E. injection E as Ex Ey Ez.
    apply vec_eq; lra. }
  destruct (normalize_vector_unit d Hd) as [Hn Hunit].
  assert (Hopp : Vec.sub (coord (h !!! v2)) (coord (h !!! v1)) = Vec.scale (-1) d).
  { apply vec_eq; simpl; lra. }
  assert (Hback : Utilities.normalize_vector (Vec.scale (-1) d)
                  = Val (Vec.scale (-1) (Vec.scale (/ Vec.norm d) d))).
  { assert (Hd' : Vec.scale (-1) d <> Vec.zero).
    { rewrite scale_zero_iff. intros [?|?]; [lra|done]. }
    destruct (normalize_vector_unit _ Hd') as [-> _]. f_equal.
    rewrite norm_flip. apply vec_eq; simpl; lra. }
  assert (Hdir : forall hh e, custom_position (hh !!! e) = custom ->
    direction hh e mm scale
    = obind (unpack2 (connected (hh !!! e)))
        (fun vs => Utilities.normalize_vector
                     (Vec.sub (coord (hh !!! vs.1)) (coord (hh !!! vs.2))))).
  { intros hh e Hcu. unfold direction. rewrite Hcu.
    destruct Hcase as [->| ->]; [by destruct mm|done]. }
  exists (new_loc h), h', (new_loc h), h2. split_and!.
  - done.
  - rewrite Hdir, Hconn by done. simpl. by rewrite Hc1, Hc2.
  - done.
  - done.
  - rewrite Hdir, Hconn2 by done. simpl. by rewrite Hd1, Hd2, Hopp.
  - intros v3.
    assert (Hthree :
      connected (alter (set_connected (fun l => l ++ [v3])) (new_loc h) h'
                 !!! new_loc h) = [v1; v2; v3]
      /\ custom_position (alter (set_connected (fun l => l ++ [v3])) (new_loc h) h'
                          !!! new_loc h) = custom).
    { rewrite lookup_total_alt, lookup_alter_eq.
      rewrite lookup_total_alt in Hconn, Hcustom.
      destruct (h' !! new_loc h) as [w|]; simpl in *; [by rewrite Hconn|done]. }
    destruct Hthree as [Hc3 Hcu3]. by rewrite Hdir, Hc3.
Qed.

(** The atoms paired with [self], as a filter over the pairs of its
    connections. *)
Lemma bonders_paired_with_filter h self :
  bonders_paired_with h self
  = flat_map (fun v => (filter (fun ap => ap.2 = self)
                          (atom_position_pairs (h !!! v))).*1)
             (connected (h !!! self)).
Proof.
  unfold bonders_paired_with.
  assert (Hinner : forall pairs found,
    foldl (fun found '(bonder, edge) =>
             if decide (edge = self) then found ++ [bonder] else found)
          found pairs
    = found ++ (filter (fun ap : atom_id * loc => ap.2 = self) pairs).*1).
  { induction pairs as [|[a p] r IH]; intros found; simpl.
    - by rewrite app_nil_r.
    - rewrite IH, filter_cons. simpl.
      destruct (decide (p = self)); [|done]. by rewrite <- app_assoc. }
  assert (Houter : forall vs found,
    foldl (fun found v =>
             foldl (fun found '(bonder, edge) =>
                      if decide (edge = self) then found ++ [bonder] else found)
                   found (atom_position_pairs (h !!! v)))
          found vs
    = found ++ flat_map (fun v => (filter (fun ap : atom_id * loc => ap.2 = self)
                                     (atom_position_pairs (h !!! v))).*1) vs).
  { induction vs as [|v r IH]; intros found; simpl.
    - by rewrite app_nil_r.
    - by rewrite IH, Hinner, <- app_assoc. }
  apply (Houter _ []).
Qed.

Lemma filter_unpaired (pairs : list (atom_id * loc)) self :
  self ∉ pairs.*2 ->
  filter (fun ap : atom_id * loc => ap.2 = self) pairs = [].
Proof.
  induction pairs as [|[a p] r IH]; simpl; [done|].
  intros Hnot. rewrite filter_cons. simpl.
  destruct (decide (p = self)) as [->|]; [set_solver|].
  apply IH. set_solver.
Qed.

Lemma paired_once_length (pairs : list (atom_id * loc)) self :
  NoDup pairs.*2 ->
  (length (filter (fun ap : atom_id * loc => ap.2 = self) pairs) <= 1)%nat.
Proof.
  induction pairs as [|[a p] r IH]; simpl; [lia|].
  intros [Hp Hnd]%NoDup_cons. rewrite filter_cons. simpl.
  destruct (decide (p = self)) as [->|]; [|by apply IH].
  simpl. rewrite filter_unpaired by done. simpl. lia.
Qed.

(** X11.  When every object connected to [self] has paired each
    position with at most one atom (as [pair_bonders_with_positions]
    leaves it), at most one atom per connection is paired with [self]:
    [bonder_centroid] averages over at most as many atoms as [self] has
    connections, an edge between two vertices gets at most two, and
    [direction] with a molecule raises [IndexError] exactly when fewer
    than two atoms are paired with the edge. *)
Theorem paired_bonders_bounded h self (m : MacroMolecule BondType) scale :
  Forall (fun v => NoDup (atom_position_pairs (h !!! v)).*2) (connected (h !!! self)) ->
  (length (bonders_paired_with h self) <= length (connected (h !!! self)))%nat
  /\ (custom_position (h !!! self) = false ->
      (direction h self (Some m) scale = Raise IndexError
       <-> (length (bonders_paired_with h self) < 2)%nat)
      /\ (bonder_centroid h self (Some m) scale = NaN
          <-> bonders_paired_with h self = [])).
Proof.
  intros Hall. split.
  - rewrite bonders_paired_with_filter.
    induction Hall as [|v r Hv Hr IH]; simpl; [lia|].
    rewrite length_app, length_fmap.
    pose proof (paired_once_length _ self Hv). lia.
  - intros Hcu. unfold direction, bonder_centroid. rewrite Hcu. split.
    + destruct (bonders_paired_with h self) as [|b0 [|b1 bs]]; simpl;
        [split; [lia|done]..|].
      split; [|lia]. unfold Utilities.normalize_vector. by case_decide.
    + assert (Hcount : forall bs c n,
        foldl (fun '(centroid, count) bonder =>
                 (Vec.add centroid (atom_coords m bonder), S count))
              (c, n) bs
        = (foldl (fun c b => Vec.add c (atom_coords m b)) c bs, (n + length bs)%nat)).
      { induction bs as [|b r IH]; intros c n; simpl.
        - by rewrite Nat.add_0_r.
        - rewrite IH. f_equal. lia. }
      rewrite Hcount. simpl.
      destruct (bonders_paired_with h self) as [|b0 bs]; simpl; [done|].
      split; [done|discriminate].
Qed.
End EdgeDirection.

Lemma edge_direction_between_vertices_witness :
  exists e h' e2 h2,
    Cage.Edge_init Examples.line_heap 0 1 None false = Val (e, h')
    /\ Cage.direction h' e (None : option (Cage.MacroMolecule unit)) 5
       = Val (Vec.scale (/ Vec.norm (Vec.sub (Cage.coord (Examples.line_heap !!! 0%nat))
                                           (Cage.coord (Examples.line_heap !!! 1%nat))))
                (Vec.sub (Cage.coord (Examples.line_heap !!! 0%nat))
                         (Cage.coord (Examples.line_heap !!! 1%nat))))
    /\ Vec.norm (Vec.scale (/ Vec.norm (Vec.sub (Cage.coord (Examples.line_heap !!! 0%nat))
                                               (Cage.coord (Examples.line_heap !!! 1%nat))))
                   (Vec.sub (Cage.coord (Examples.line_heap !!! 0%nat))
                            (Cage.coord (Examples.line_heap !!! 1%nat)))) = 1%R
    /\ Cage.Edge_init Examples.line_heap 1 0 None false = Val (e2, h2)
    /\ Cage.direction h2 e2 (None : option (Cage.MacroMolecule unit)) 5
       = Val (Vec.scale (-1)
                (Vec.scale (/ Vec.norm (Vec.sub (Cage.coord (Examples.line_heap !!! 0%nat))
                                              (Cage.coord (Examples.line_heap !!! 1%nat))))
                   (Vec.sub (Cage.coord (Examples.line_heap !!! 0%nat))
                            (Cage.coord (Examples.line_heap !!! 1%nat)))))
    /\ forall v3,
         Cage.direction (alter (Cage.set_connected (fun l => l ++ [v3])) e h') e
           (None : option (Cage.MacroMolecule unit)) 5
         = Raise (ValueError "too many values to unpack").
Proof.
  apply (edge_direction_between_vertices Examples.line_heap 0%nat 1%nat None false
           None 5%R).
  - eexists. reflexivity.
  - eexists. reflexivity.
  - change (Cage.coord (Examples.line_heap !!! 0%nat)) with (Vec.mk 4 0 0).
    change (Cage.coord (Examples.line_heap !!! 1%nat)) with (Vec.mk 1 0 0).
    intros [= ?]. lra.
  - by right.
Defined.

Lemma paired_bonders_bounded_witness :
  (length (Cage.bonders_paired_with Examples.line_heap 2)
   <= length (Cage.connected (Examples.line_heap !!! 2%nat)))%nat.
Proof.
  refine (proj1 (paired_bonders_bounded Examples.line_heap 2%nat
                   Examples.line_mol 1%R _)).
  change (Cage.connected (Examples.line_heap !!! 2%nat)) with [0%nat; 1%nat].
  change (Cage.atom_position_pairs (Examples.line_heap !!! 0%nat)) with [(0%nat, 2%nat)].
  repeat constructor; simpl.
  - change (Cage.atom_position_pairs (Examples.line_heap !!! 0%nat)) with [(0%nat, 2%nat)].
    simpl. set_solver.
  - change (Cage.atom_position_pairs (Examples.line_heap !!! 1%nat)) with [(1%nat, 2%nat)].
    simpl. set_solver.
Defined.

(** ** Connecting the vertices of a topology class *)

Section Connect.
Import Cage.
Implicit Types (h : heap) (cls : TopologyClass) (conns : list (loc * loc)).

(** The loop of [connect]: what it appends to [y.connected]. *)
Lemma connect_loop_lookup conns : forall h y,
  foldl (fun h '(v1, v2) =>
           alter (set_connected (fun l => l ++ [v1])) v2
             (alter (set_connected (fun l => l ++ [v2])) v1 h)) h conns !! y
  = set_connected
      (fun l => l ++ flat_map (fun c => (if decide (c.1 = y) then [c.2] else [])
                                        ++ (if decide (c.2 = y) then [c.1] else []))
                              conns)
      <$> h !! y.
Proof.
  induction conns as [|[a b] r IH]; intros h y.
  - simpl. destruct (h !! y) as [[]|]; simpl; [|done].
    unfold set_connected. simpl. by rewrite app_nil_r.
  - cbn [foldl flat_map fst snd]. rewrite IH, !lookup_alter.
    repeat case_decide; subst; try done;
      destruct (h !! y) as [w|]; simpl; try done;
      f_equal; destruct w; unfold set_connected; simpl;
      by rewrite <- ?app_assoc.
Qed.

Lemma elem_of_connect_added conns (x y : loc) :
  x ∈ flat_map (fun c => (if decide (c.1 = y) then [c.2] else [])
                         ++ (if decide (c.2 = y) then [c.1] else [])) conns
  <-> (y, x) ∈ conns \/ (x, y) ∈ conns.
Proof.
  rewrite list_elem_of_In, in_flat_map. split.
  - intros ([a b] & Hin%list_elem_of_In & Hx). simpl in Hx.
    apply in_app_iff in Hx as [Hx|Hx].
    + destruct (decide (a = y)) as [->|]; [|done].
      destruct Hx as [<-|[]]. by left.
    + destruct (decide (b = y)) as [->|]; [|done].
      destruct Hx as [<-|[]]. by right.
  - intros [Hin|Hin]; apply list_elem_of_In in Hin.
    + exists (y, x). split; [done|]. simpl. rewrite decide_True by done.
      apply in_app_iff. left. by left.
    + exists (x, y). split; [done|]. simpl. rewrite (decide_True (P := y = y)) by done.
      apply in_app_iff. right. by left.
Qed.

Lemma connect_loop_connected conns h y :
  Forall (fun c => is_Some (h !! c.1) /\ is_Some (h !! c.2)) conns ->
  connected
    (foldl (fun h '(v1, v2) =>
              alter (set_connected (fun l => l ++ [v1])) v2
                (alter (set_connected (fun l => l ++ [v2])) v1 h)) h conns !!! y)
  = connected (h !!! y)
    ++ flat_map (fun c => (if decide (c.1 = y) then [c.2] else [])
                          ++ (if decide (c.2 = y) then [c.1] else [])) conns.
Proof.
  intros Hall. rewrite lookup_total_alt, connect_loop_lookup, (lookup_total_alt h).
  destruct (h !! y) as [w|] eqn:Hy; simpl; [done|].
  symmetry. apply elem_of_nil_inv. intros x Hx.
  rewrite Forall_forall in Hall.
  apply elem_of_connect_added in Hx as [Hx|Hx]; apply Hall in Hx;
    simpl in Hx; rewrite Hy in Hx; destruct Hx as [[? ?] [? ?]]; done.
Qed.

(** X12.  [connect] works once per class: a second call changes
    nothing, so no connection is appended twice.  The first call, on
    existing vertices, makes the two vertices of every entry of
    [connections] members of each other's [connected], keeps mutual
    connectivity mutual, and moves no vertex. *)
Theorem connect_once cls h :
  Forall (fun c => is_Some (h !! c.1) /\ is_Some (h !! c.2)) (connections cls) ->
  let cls' := (connect cls h).1 in
  let h' := (connect cls h).2 in
  connect cls' h' = (cls', h')
  /\ (cls_connected cls = false ->
      Forall (fun c => c.2 ∈ connected (h' !!! c.1) /\ c.1 ∈ connected (h' !!! c.2))
             (connections cls))
  /\ (mutual h -> mutual h')
  /\ (forall y, coord (h' !!! y) = coord (h !!! y)).
Proof.
  intros Hall. cbv zeta. unfold connect.
  destruct (cls_connected cls) eqn:Hflag; simpl.
  - rewrite Hflag. split_and!; done.
  - split_and!.
    + done.
    + intros _. apply Forall_forall. intros [a b] Hin. simpl.
      rewrite !connect_loop_connected, !elem_of_app, !elem_of_connect_added by done.
      tauto.
    + intros Hm a b.
      rewrite !connect_loop_connected, !elem_of_app, !elem_of_connect_added by done.
      specialize (Hm a b). tauto.
    + intros y. rewrite lookup_total_alt, connect_loop_lookup, (lookup_total_alt h).
      by destruct (h !! y).
Qed.
End Connect.

Lemma connect_once_witness :
  let cls := Cage.mkTopologyClass [(0%nat, 1%nat)] false in
  Cage.connect (Cage.connect cls Examples.line_heap).1
               (Cage.connect cls Examples.line_heap).2
  = ((Cage.connect cls Examples.line_heap).1, (Cage.connect cls Examples.line_heap).2).
Proof.
  refine (proj1 (connect_once (Cage.mkTopologyClass [(0%nat, 1%nat)] false)
                   Examples.line_heap _)).
  repeat constructor; eexists; reflexivity.
Defined.

(** ** The plane of a building block *)

Section BonderPlaneFacts.
Import BuildingBlock.
Local Open Scope R_scope.
Variable svd_last_row : list vec -> vec.
Implicit Types (self : BuildingBlock).

Lemma py_index_first {A} (l : list A) a :
  py_index l 0 = Val a -> exists r, l = a :: r.
Proof.
  destruct l as [|b r]; [done|]. unfold py_index. simpl.
  intros [= ->]. by exists r.
Qed.

Lemma obind_Val {A B} (m : outcome A) (k : A -> outcome B) b :
  obind m k = Val b -> exists a, m = Val a /\ k a = Val b.
Proof. destruct m as [a| |]; [|done..]. simpl. eauto. Qed.

Lemma omap_length {A B} (f : A -> outcome B) xs : forall ys,
  omap f xs = Val ys -> length ys = length xs.
Proof.
  induction xs as [|x r IH]; intros ys; simpl.
  - by intros [= <-].
  - intros (b & _ & (bs & Hbs & [= <-])%obind_Val)%obind_Val.
    simpl. f_equal. by apply IH.
Qed.

(** What [get_bonder_plane_normal] has computed when it returns. *)
Lemma get_bonder_plane_normal_Val self fg_ids n :
  get_bonder_plane_normal svd_last_row self fg_ids = Val n ->
  (3 <= length (default_fg_ids self fg_ids))%nat
  /\ exists centroids atom_ids bonder_centroid,
       get_bonder_centroids self fg_ids = Val centroids
       /\ get_bonder_ids self fg_ids = Val atom_ids
       /\ get_centroid self (Some atom_ids) = Val bonder_centroid
       /\ let fitted :=
            svd_last_row (map (fun c => Vec.sub c bonder_centroid) centroids) in
          n = fitted \/ n = Vec.scale (-1) fitted.
Proof.
  unfold get_bonder_plane_normal.
  destruct (length (default_fg_ids self fg_ids) <? 3)%nat eqn:Hlen; [done|].
  apply Nat.ltb_ge in Hlen. intros Hn. split; [done|].
  apply obind_Val in Hn as (cs & Hcs & Hn).
  apply obind_Val in Hn as (ids & Hids & Hn).
  apply obind_Val in Hn as (bc & Hbc & Hn).
  apply obind_Val in Hn as (cc & Hcc & Hn).
  exists cs, ids, bc. split_and!; [done..|].
  cbv zeta. destruct (_ && _); injection Hn as <-; auto.
Qed.

(** X13.  When [get_bonder_plane_normal] returns, it returns the
    normal fitted to the bonder centroids (relative to the centroid of
    all bonder atoms) or its negation, so a vector of the same length;
    and it was given at least three functional groups, one centroid
    each. *)
Theorem plane_normal_is_fitted_or_opposite self fg_ids n :
  get_bonder_plane_normal svd_last_row self fg_ids = Val n ->
  exists centroids atom_ids bonder_centroid,
    get_bonder_centroids self fg_ids = Val centroids
    /\ get_bonder_ids self fg_ids = Val atom_ids
    /\ get_centroid self (Some atom_ids) = Val bonder_centroid
    /\ (3 <= length centroids)%nat
    /\ let fitted :=
         svd_last_row (map (fun c => Vec.sub c bonder_centroid) centroids) in
       (n = fitted \/ n = Vec.scale (-1) fitted)
       /\ Vec.norm n = Vec.norm fitted.
Proof.
  intros Hn.
  destruct (get_bonder_plane_normal_Val self fg_ids n Hn)
    as (Hlen & cs & ids & bc & Hcs & Hids & Hbc & Hfit).
  exists cs, ids, bc. split_and!; [done..| |].
  - unfold get_bonder_centroids in Hcs. by rewrite (omap_length _ _ _ Hcs).
  - cbv zeta in *. split; [done|].
    destruct Hfit as [->| ->]; [done|apply norm_flip].
Qed.

(** X14.  [get_bonder_plane] indexes the first functional-group id
    before it fits anything: without ids it raises [IndexError], where
    [get_bonder_plane_normal] reports that three functional groups are
    needed. *)
Theorem bonder_plane_without_ids self fg_ids :
  default_fg_ids self fg_ids = [] ->
  get_bonder_plane svd_last_row self fg_ids = Raise IndexError
  /\ get_bonder_plane_normal svd_last_row self fg_ids = Raise insufficient_fgs.
Proof.
  intros Hnil. unfold get_bonder_plane, get_bonder_plane_normal.
  by rewrite Hnil.
Qed.

(** X15.  When [get_bonder_plane] returns [[a, b, c, d]], the vector
    [(a, b, c)] is what [get_bonder_plane_normal] returns for the same
    ids, and the bonder centroid of the first functional group given
    satisfies the equation [a x + b y + c z = d]. *)
Theorem bonder_plane_through_first_centroid self fg_ids n d :
  get_bonder_plane svd_last_row self fg_ids = Val (n, d) ->
  get_bonder_plane_normal svd_last_row self fg_ids = Val n
  /\ exists c0 rest,
       get_bonder_centroids self fg_ids = Val (c0 :: rest)
       /\ Vec.x n * Vec.x c0 + Vec.y n * Vec.y c0 + Vec.z n * Vec.z c0 = d.
Proof.
  unfold get_bonder_plane. intros Hp.
  apply obind_Val in Hp as (i0 & Hi0 & Hp).
  apply obind_Val in Hp as (fg & Hfg & Hp).
  apply obind_Val in Hp as (c0 & Hc0 & Hp).
  apply obind_Val in Hp as (n' & Hn & [= -> <-]).
  assert (Hsame : get_bonder_plane_normal svd_last_row self fg_ids = Val n).
  { by destruct fg_ids. }
  split; [done|].
  destruct (get_bonder_plane_normal_Val self fg_ids n Hsame)
    as (_ & cs & _ & _ & Hcs & _).
  apply py_index_first in Hi0 as [r Hr].
  unfold get_bonder_centroids in *. rewrite Hr in *. simpl in Hcs.
  rewrite Hfg in Hcs. cbn [obind] in Hcs. rewrite Hc0 in Hcs. cbn [obind] in Hcs.
  apply obind_Val in Hcs as (rest & Hrest & [= <-]).
  exists c0, rest. simpl. rewrite Hfg. cbn [obind]. rewrite Hc0. cbn [obind].
  by rewrite Hrest.
Qed.

(** X16.  [get_bonder_distances] and [get_bonder_direction_vectors]
    fail together and with the same exception; otherwise they yield one
    entry for each pair of functional-group ids, in the same order, the
    distance being the length of the direction vector, but with the two
    ids exchanged: the distance carries [(id1, id2)], the vector
    [(id2, id1)]. *)
Theorem bonder_distances_and_directions self fg_ids :
  match get_bonder_distances self fg_ids,
        get_bonder_direction_vectors self fg_ids with
  | Val ds, Val vs =>
      Forall2 (fun d v => d.1.1 = v.1.2 /\ d.1.2 = v.1.1 /\ d.2 = Vec.norm v.2)
              ds vs
      /\ (2 * length ds
          = length (default_fg_ids self fg_ids)
            * (length (default_fg_ids self fg_ids) - 1))%nat
  | NaN, NaN => True
  | Raise e, Raise e' => e = e'
  | _, _ => False
  end.
Proof.
  unfold get_bonder_distances, get_bonder_direction_vectors.
  destruct (indexed_bonder_centroids self fg_ids) as [cs| |] eqn:Hcs;
    cbn [obind]; [|done..].
  split.
  - induction (combinations2 cs) as [|[[i1 c1] [i2 c2]] r IH]; simpl;
      constructor; done.
  - rewrite length_map, combinations2_length.
    unfold indexed_bonder_centroids in Hcs.
    by rewrite (omap_length _ _ _ Hcs).
Qed.

Lemma omap_displaced (ps : list vec) d ids : forall qs,
  omap (fun a : nat => py_index ps (Z.of_nat a)) ids = Val qs ->
  omap (fun a : nat => py_index (map (Vec.add d) ps) (Z.of_nat a)) ids
  = Val (map (Vec.add d) qs).
Proof.
  induction ids as [|a r IH]; intros qs; simpl.
  - by intros [= <-].
  - intros (q & Hq & (qs' & Hqs & [= <-])%obind_Val)%obind_Val.
    rewrite (IH _ Hqs).
    assert (Hq' : py_index (map (Vec.add d) ps) (Z.of_nat a) = Val (Vec.add d q)).
    { unfold py_index in *. rewrite length_map.
      destruct (Z.of_nat a <? 0)%Z;
        destruct (_ && _); try done;
        rewrite list_lookup_fmap;
        destruct (ps !! _); simpl; by inversion Hq. }
    by rewrite Hq'.
Qed.

Lemma centroid_displaced d (qs : list vec) c :
  Utilities.centroid qs = Val c ->
  Utilities.centroid (map (Vec.add d) qs) = Val (Vec.add d c).
Proof.
  unfold Utilities.centroid. destruct qs as [|q r] eqn:E; [done|].
  rewrite <- E. intros [= <-].
  assert (Hlen : length qs <> 0%nat) by (by rewrite E).
  destruct (map (Vec.add d) qs) eqn:Em.
  { apply (f_equal length) in Em. rewrite length_map in Em. done. }
  rewrite <- Em, length_map. f_equal.
  assert (Hn : INR (length qs) <> 0) by (by apply not_0_INR).
  assert (Hsum : Vec.sum (map (Vec.add d) qs)
                 = Vec.add (Vec.scale (INR (length qs)) d) (Vec.sum qs)).
  { clear. induction qs as [|q r IH].
    - apply vec_eq; simpl; lra.
    - cbn [map Vec.sum foldr length]. fold (Vec.sum (map (Vec.add d) r)).
      fold (Vec.sum r). rewrite IH, S_INR. apply vec_eq; simpl; lra. }
  rewrite Hsum. apply vec_eq; simpl; field; done.
Qed.

(** X17.  [set_centroid] puts the centroid of the chosen atoms on the
    given position, when the centroid can be computed at all; it keeps
    the functional groups and moves every atom by the same vector, so
    no distance within the molecule changes. *)
Theorem set_centroid_places_centroid self position atom_ids c :
  get_centroid self atom_ids = Val c ->
  exists moved,
    set_centroid self position atom_ids = Val moved
    /\ get_centroid moved atom_ids = Val position
    /\ functional_groups moved = functional_groups self
    /\ position_matrix moved
       = map (Vec.add (Vec.sub position c)) (position_matrix self)
    /\ forall p q, Vec.euclidean (Vec.add (Vec.sub position c) p)
                                 (Vec.add (Vec.sub position c) q)
                   = Vec.euclidean p q.
Proof.
  intros Hc. unfold set_centroid. rewrite Hc. cbn [obind].
  eexists. split; [reflexivity|]. split_and!; [|done..|].
  - unfold get_centroid in *. simpl. rewrite length_map.
    destruct (match atom_ids with
              | Some ids => ids
              | None => seq 0 (length (position_matrix self))
              end) as [|a r]; [done|].
    apply obind_Val in Hc as (qs & Hqs & Hcen).
    rewrite (omap_displaced _ _ _ _ Hqs). cbn [obind].
    rewrite (centroid_displaced _ _ _ Hcen). f_equal.
    apply vec_eq; simpl; lra.
  - intros p q. unfold Vec.euclidean. f_equal. apply vec_eq; simpl; lra.
Qed.
End BonderPlaneFacts.

Lemma plane_normal_is_fitted_or_opposite_witness :
  exists centroids atom_ids bonder_centroid,
    BuildingBlock.get_bonder_centroids (Examples.flat_block 0) None = Val centroids
    /\ BuildingBlock.get_bonder_ids (Examples.flat_block 0) None = Val atom_ids
    /\ BuildingBlock.get_centroid (Examples.flat_block 0) (Some atom_ids)
       = Val bonder_centroid
    /\ (3 <= length centroids)%nat
    /\ (Examples.fit_up Examples.flat_rows
        = Examples.fit_up (map (fun c => Vec.sub c bonder_centroid) centroids)
        \/ Examples.fit_up Examples.flat_rows
           = Vec.scale (-1)
               (Examples.fit_up (map (fun c => Vec.sub c bonder_centroid) centroids)))
       /\ Vec.norm (Examples.fit_up Examples.flat_rows)
          = Vec.norm (Examples.fit_up
                        (map (fun c => Vec.sub c bonder_centroid) centroids)).
Proof.
  apply (plane_normal_is_fitted_or_opposite Examples.fit_up (Examples.flat_block 0)
           None (Examples.fit_up Examples.flat_rows)).
  apply flat_block_unflipped. rewrite Rabs_R0. lra.
Defined.

Lemma bonder_plane_without_ids_witness :
  BuildingBlock.get_bonder_plane Examples.fit_up
    (BuildingBlock.mkBuildingBlock [] []) None = Raise IndexError
  /\ BuildingBlock.get_bonder_plane_normal Examples.fit_up
       (BuildingBlock.mkBuildingBlock [] []) None
     = Raise BuildingBlock.insufficient_fgs.
Proof.
  apply (bonder_plane_without_ids Examples.fit_up
           (BuildingBlock.mkBuildingBlock [] []) None).
  reflexivity.
Defined.

Lemma bonder_plane_through_first_centroid_witness :
  BuildingBlock.get_bonder_plane_normal Examples.fit_up (Examples.flat_block 0) None
  = Val (Examples.fit_up Examples.flat_rows).
Proof.
  refine (proj1 (bonder_plane_through_first_centroid Examples.fit_up
                   (Examples.flat_block 0) None (Examples.fit_up Examples.flat_rows)
                   (Vec.dot (Examples.fit_up Examples.flat_rows) (Vec.mk 1 0 0)) _)).
  unfold BuildingBlock.get_bonder_plane.
  change (BuildingBlock.default_fg_ids (Examples.flat_block 0) None) with (range 3).
  change (py_index (range 3) 0) with (@Val Z 0%Z). cbn [obind].
  change (py_index (BuildingBlock.functional_groups (Examples.flat_block 0)) 0)
    with (Val (BuildingBlock.mkFunctionalGroup [0%nat])). cbn [obind].
  change (BuildingBlock.get_centroid (Examples.flat_block 0)
            (Some (BuildingBlock.get_fg_bonder_ids
                     (BuildingBlock.mkFunctionalGroup [0%nat]))))
    with (Utilities.centroid [Vec.mk 1 0 0]).
  rewrite centroid_single. cbn [obind].
  change (Some (range 3)) with (Some (BuildingBlock.default_fg_ids
                                        (Examples.flat_block 0) None)).
  assert (H : BuildingBlock.get_bonder_plane_normal Examples.fit_up
                (Examples.flat_block 0)
                (Some (BuildingBlock.default_fg_ids (Examples.flat_block 0) None))
              = Val (Examples.fit_up Examples.flat_rows)).
  { apply (flat_block_unflipped Examples.fit_up 0). rewrite Rabs_R0. lra. }
  rewrite H. reflexivity.
Defined.

Lemma set_centroid_places_centroid_witness :
  exists moved,
    BuildingBlock.set_centroid (Examples.flat_block 0) (Vec.mk 1 2 3)
      (Some [0; 1; 2]%nat) = Val moved
    /\ BuildingBlock.get_centroid moved (Some [0; 1; 2]%nat) = Val (Vec.mk 1 2 3).
Proof.
  destruct (set_centroid_places_centroid (Examples.flat_block 0) (Vec.mk 1 2 3)
              (Some [0; 1; 2]%nat) Vec.zero (flat_block_bonder_centroid 0))
    as (moved & Hm & Hc & _).
  exists moved. by split.
Defined.

(** ** Bonds and the atoms they hold *)

Section BondFacts.
Import Bond.
Implicit Types (h : heap) (b : Bond).

Lemma alloc_spec h o :
  h !! (alloc h o).1 = None
  /\ (alloc h o).2 !! (alloc h o).1 = Some o
  /\ forall l, l <> (alloc h o).1 -> (alloc h o).2 !! l = h !! l.
Proof.
  unfold alloc. simpl. split_and!.
  - apply fresh_unused.
  - by rewrite lookup_insert_eq.
  - intros l Hl. by rewrite lookup_insert_ne.
Qed.

Lemma Atom_clone_spec h atom a :
  h !! atom = Some (OAtom a) ->
  exists c h',
    Atom_clone h atom = inr (c, h')
    /\ h !! c = None
    /\ h' !! c = Some (OAtom a)
    /\ forall l, l <> c -> h' !! l = h !! l.
Proof.
  intros Ha. unfold Atom_clone. rewrite Ha.
  destruct (alloc_spec h (OAtom a)) as (Hnew & Hat & Hold).
  destruct (alloc h (OAtom a)) as [c h'] eqn:E. simpl in *.
  exists c, h'. by split_and!.
Qed.

(** X18.  A bond made by [Bond(atom1, atom2, order, periodicity)]
    holds two new atom objects, copies of the atoms given and different
    from each other even when the same atom is given twice; nothing
    that existed is changed; [to_dict] reports the ids of the given
    atoms with the order and periodicity.  [get_atom1] hands out yet
    another copy and leaves the bond as it is.  [dangerous_init] holds
    the very objects it is given. *)
Theorem bond_holds_copies h atom1 atom2 a1 a2 order periodicity :
  h !! atom1 = Some (OAtom a1) ->
  h !! atom2 = Some (OAtom a2) ->
  (exists self h' b,
     Bond_init h atom1 atom2 order periodicity = inr (self, h')
     /\ h !! self = None
     /\ h' !! self = Some (OBond b)
     /\ (forall l, is_Some (h !! l) -> h' !! l = h !! l)
     /\ h !! _atom1 b = None /\ h !! _atom2 b = None
     /\ _atom1 b <> _atom2 b
     /\ h' !! _atom1 b = Some (OAtom a1)
     /\ h' !! _atom2 b = Some (OAtom a2)
     /\ to_dict h' self
        = inr (mkBondDict (atom_id a1) (atom_id a2) order periodicity)
     /\ exists c h'',
          get_atom1 h' self = inr (c, h'')
          /\ h' !! c = None
          /\ h'' !! c = Some (OAtom a1)
          /\ forall l, is_Some (h' !! l) -> h'' !! l = h' !! l)
  /\ (let '(self, h') := dangerous_init h atom1 atom2 order periodicity in
      h !! self = None
      /\ h' !! self = Some (OBond (mkBond atom1 atom2 order periodicity ∅))
      /\ forall l, is_Some (h !! l) -> h' !! l = h !! l).
Proof.
  intros H1 H2. split.
  - unfold Bond_init.
    destruct (alloc_spec h (OBond (mkBond 0 0 0 (0, 0, 0)%Z ∅)))
      as (Hs & _ & Hs_old).
    destruct (alloc h (OBond (mkBond 0 0 0 (0, 0, 0)%Z ∅))) as [self h0] eqn:E0.
    simpl in Hs, Hs_old.
    assert (Hne1 : atom1 <> self) by (intros ->; congruence).
    assert (Hne2 : atom2 <> self) by (intros ->; congruence).
    destruct (Atom_clone_spec h0 atom1 a1) as (c1 & h1 & -> & Hc1 & Hc1' & Hold1).
    { by rewrite Hs_old. }
    assert (Hc1s : c1 <> self).
    { intros ->. unfold alloc in E0. injection E0 as <- <-.
      by rewrite lookup_insert_eq in Hc1. }
    assert (Hc1a : atom2 <> c1).
    { intros ->. rewrite Hs_old in Hc1 by done. congruence. }
    destruct (Atom_clone_spec h1 atom2 a2) as (c2 & h2 & -> & Hc2 & Hc2' & Hold2).
    { rewrite Hold1, Hs_old by done. done. }
    assert (Hc12 : c1 <> c2) by (intros ->; congruence).
    assert (Hc2s : c2 <> self).
    { intros ->. rewrite Hold1 in Hc2 by done.
      unfold alloc in E0. injection E0 as <- <-.
      by rewrite lookup_insert_eq in Hc2. }
    assert (Hh1 : h !! c1 = None) by (by rewrite <- Hs_old).
    assert (Hh2 : h !! c2 = None).
    { rewrite <- Hs_old, <- Hold1 by done. done. }
    set (b := mkBond c1 c2 order periodicity ∅).
    set (h' := <[self := OBond b]> h2).
    assert (Hext : forall l, is_Some (h !! l) -> h' !! l = h !! l).
    { intros l [o Hl]. unfold h'.
      rewrite lookup_insert_ne, Hold2, Hold1, Hs_old; [done|congruence..]. }
    assert (Hb1 : h' !! c1 = Some (OAtom a1)).
    { unfold h'. rewrite lookup_insert_ne, Hold2 by done. done. }
    assert (Hb2 : h' !! c2 = Some (OAtom a2)).
    { unfold h'. by rewrite lookup_insert_ne. }
    assert (Hself : h' !! self = Some (OBond b)).
    { unfold h'. by rewrite lookup_insert_eq. }
    exists self, h', b. split_and!; try done.
    + unfold to_dict, get_id. rewrite Hself. simpl. by rewrite Hb1, Hb2.
    + unfold get_atom1. rewrite Hself. simpl.
      destruct (Atom_clone_spec h' c1 a1 Hb1) as (c & h'' & -> & Hc & Hc' & Hold).
      exists c, h''. split_and!; [done..|].
      intros l [o Hl]. apply Hold. intros ->. congruence.
  - unfold dangerous_init.
    destruct (alloc_spec h (OBond (mkBond atom1 atom2 order periodicity ∅)))
      as (Hs & Hat & Hold).
    destruct (alloc h _) as [self h']. simpl in *. split_and!; [done..|].
    intros l [o Hl]. apply Hold. intros ->. congruence.
Qed.

(** The bond [clone] makes when no atom map is given. *)
Lemma clone_plain h self b a1 a2 :
  h !! self = Some (OBond b) ->
  h !! _atom1 b = Some (OAtom a1) ->
  h !! _atom2 b = Some (OAtom a2) ->
  exists c h' f1 f2,
    clone h self None = inr (c, h')
    /\ h !! c = None
    /\ h' !! c = Some (OBond (mkBond f1 f2 (_order b) (_periodicity b)
                                (filter (fun kv => negb (is_private kv.1))
                                        (attributes b))))
    /\ h' !! f1 = Some (OAtom a1)
    /\ h' !! f2 = Some (OAtom a2)
    /\ forall l, is_Some (h !! l) -> h' !! l = h !! l.
Proof.
  intros Hself H1 H2. unfold clone. rewrite Hself.
  set (public := filter (fun kv => negb (is_private kv.1)) (attributes b)).
  destruct (alloc_spec h (OBond (mkBond 0 0 0 (0, 0, 0)%Z public)))
    as (Hs & _ & Hs_old).
  destruct (alloc h (OBond (mkBond 0 0 0 (0, 0, 0)%Z public))) as [c h0] eqn:E0.
  simpl in Hs, Hs_old.
  assert (Hold0 : forall l, is_Some (h !! l) -> h0 !! l = h !! l).
  { intros l [o Hl]. apply Hs_old. intros ->. congruence. }
  unfold get_id at 1. rewrite (Hold0 (_atom1 b)), H1 by done.
  destruct (Atom_clone_spec h0 (_atom1 b) a1) as (f1 & h1 & -> & Hf1 & Hf1' & Hold1).
  { by rewrite Hold0. }
  assert (Hold01 : forall l, is_Some (h !! l) -> h1 !! l = h !! l).
  { intros l Hl. rewrite Hold1; [by apply Hold0|].
    intros ->. rewrite Hold0 in Hf1 by done. rewrite Hf1 in Hl. by destruct Hl. }
  unfold get_id. rewrite (Hold01 (_atom2 b)), H2 by done.
  destruct (Atom_clone_spec h1 (_atom2 b) a2) as (f2 & h2 & -> & Hf2 & Hf2' & Hold2).
  { by rewrite Hold01. }
  assert (Hold02 : forall l, is_Some (h !! l) -> h2 !! l = h !! l).
  { intros l Hl. rewrite Hold2; [by apply Hold01|].
    intros ->. rewrite Hold01 in Hf2 by done. rewrite Hf2 in Hl. by destruct Hl. }
  assert (Hcf1 : f1 <> c).
  { intros ->. unfold alloc in E0. injection E0 as <- <-.
    by rewrite lookup_insert_eq in Hf1. }
  assert (Hcf2 : f2 <> c).
  { intros ->. unfold alloc in E0. injection E0 as <- <-.
    rewrite Hold1 in Hf2 by done. by rewrite lookup_insert_eq in Hf2. }
  assert (Hf12 : f1 <> f2) by (intros ->; congruence).
  simpl. rewrite !lookup_empty. simpl.
  exists c, (<[c := OBond (mkBond f1 f2 (_order b) (_periodicity b) public)]> h2),
    f1, f2.
  split_and!.
  - done.
  - done.
  - by rewrite lookup_insert_eq.
  - rewrite lookup_insert_ne, Hold2 by done. done.
  - by rewrite lookup_insert_ne.
  - intros l Hl. rewrite lookup_insert_ne; [by apply Hold02|].
    intros ->. rewrite Hs in Hl. by destruct Hl.
Qed.

(** X19.  Cloning a bond without an atom map changes nothing that
    [to_dict], [get_order], [get_periodicity] or [is_periodic] report:
    the clone answers as the original does, and the original answers
    after the call as it did before. *)
Theorem clone_same_dict h self b a1 a2 :
  h !! self = Some (OBond b) ->
  h !! _atom1 b = Some (OAtom a1) ->
  h !! _atom2 b = Some (OAtom a2) ->
  exists c h',
    clone h self None = inr (c, h')
    /\ c <> self
    /\ to_dict h self
       = inr (mkBondDict (atom_id a1) (atom_id a2) (_order b) (_periodicity b))
    /\ to_dict h' c = to_dict h self
    /\ to_dict h' self = to_dict h self
    /\ get_order h' c = get_order h self
    /\ get_periodicity h' c = get_periodicity h self
    /\ is_periodic h' c = is_periodic h self.
Proof.
  intros Hself H1 H2.
  destruct (clone_plain h self b a1 a2 Hself H1 H2)
    as (c & h' & f1 & f2 & Hclone & Hnew & Hc & Hf1 & Hf2 & Hold).
  exists c, h'. split; [done|].
  assert (Hself' : h' !! self = Some (OBond b)) by (by rewrite Hold, Hself).
  assert (H1' : h' !! _atom1 b = Some (OAtom a1)) by (by rewrite Hold, H1).
  assert (H2' : h' !! _atom2 b = Some (OAtom a2)) by (by rewrite Hold, H2).
  split; [intros ->; congruence|].
  unfold to_dict, get_order, get_periodicity, is_periodic, get_id.
  rewrite Hself, Hself', Hc. simpl. rewrite H1, H2, H1', H2', Hf1, Hf2.
  by split_and!.
Qed.
End BondFacts.

Lemma bond_holds_copies_witness :
  exists self h' b,
    Bond.Bond_init Examples.bond_heap 0 0 2 (0, 0, 0)%Z = inr (self, h')
    /\ h' !! self = Some (Bond.OBond b)
    /\ Bond._atom1 b <> Bond._atom2 b
    /\ Bond.to_dict h' self = inr (Bond.mkBondDict 0 0 2 (0, 0, 0)%Z).
Proof.
  destruct (bond_holds_copies Examples.bond_heap 0 0 (Bond.mkAtom 0 6 0)
              (Bond.mkAtom 0 6 0) 2 (0, 0, 0)%Z)
    as [(self & h' & b & Hi & _ & Hb & _ & _ & _ & Hne & _ & _ & Hd & _) _];
    [reflexivity..|].
  exists self, h', b. by split_and!.
Defined.

Lemma clone_same_dict_witness :
  exists c h',
    Bond.clone Examples.bond_heap 3 None = inr (c, h')
    /\ Bond.to_dict h' c = Bond.to_dict Examples.bond_heap 3.
Proof.
  destruct (clone_same_dict Examples.bond_heap 3 Examples.tagged_bond
              (Bond.mkAtom 0 6 0) (Bond.mkAtom 5 6 0))
    as (c & h' & Hc & _ & _ & Hd & _); [reflexivity..|].
  exists c, h'. by split.
Defined.

(** ** Assigning building blocks to positions *)

Section BbMapsFacts.
Import CageTopology.
Context {BB : Type}.
Variable n_fgs : BB -> nat.
Implicit Types (bbs : list BB) (bb_map lk_map : gmap nat BB).

Lemma max_fgs_bound bbs m :
  max_fgs n_fgs bbs = Val m -> Forall (fun bb => n_fgs bb <= m) bbs.
Proof.
  destruct bbs as [|b0 rest]; [done|]. simpl. intros [= <-].
  assert (Hgen : forall r k,
    k <= foldl (fun m b => Nat.max m (n_fgs b)) k r
    /\ Forall (fun bb => n_fgs bb <= foldl (fun m b => Nat.max m (n_fgs b)) k r) r).
  { induction r as [|b r IH]; intros k; simpl; [by split|].
    destruct (IH (Nat.max k (n_fgs b))) as [Hk Hr].
    split; [lia|]. constructor; [lia|done]. }
  destruct (Hgen rest (n_fgs b0)). by constructor.
Qed.

Lemma py_index_elem {A} (l : list A) i a : py_index l i = Val a -> a ∈ l.
Proof.
  unfold py_index. destruct (_ && _); [|done].
  destruct (l !! _) eqn:E; [|done]. intros [= <-].
  by eapply list_elem_of_lookup_2.
Qed.

Lemma assign_lookup (bb : BB) positions : forall map_ pos,
  assign bb positions map_ !! pos
  = if decide (pos ∈ positions) then Some bb else map_ !! pos.
Proof.
  unfold assign. induction positions as [|p r IH]; intros map_ pos.
  - cbn [foldl]. case_decide as Hin; [by apply elem_of_nil in Hin|done].
  - cbn [foldl]. rewrite IH.
    destruct (decide (pos ∈ r)) as [Hr|Hr].
    + case_decide as Hin; [done|]. exfalso. apply Hin. by right.
    + destruct (decide (pos = p)) as [->|Hne].
      * rewrite lookup_insert_eq. case_decide as Hin; [done|].
        exfalso. apply Hin. by left.
      * rewrite lookup_insert_ne by done. case_decide as Hin; [|done].
        apply elem_of_cons in Hin as [?|?]; done.
Qed.

Lemma bb_maps_loop bbs m assignments : forall bb_map lk_map bb_map' lk_map',
  ofold (fun '(bb_map, lk_map) '(bb_index, positions) =>
           do bb <- py_index bbs bb_index;
           if decide (n_fgs bb = m)
           then Val (assign bb positions bb_map, lk_map)
           else Val (bb_map, assign bb positions lk_map))
        assignments (bb_map, lk_map) = Val (bb_map', lk_map') ->
  (forall pos bb, bb_map !! pos = Some bb -> bb ∈ bbs /\ n_fgs bb = m) ->
  (forall pos bb, lk_map !! pos = Some bb -> bb ∈ bbs /\ n_fgs bb <> m) ->
  (forall pos bb, bb_map' !! pos = Some bb -> bb ∈ bbs /\ n_fgs bb = m)
  /\ (forall pos bb, lk_map' !! pos = Some bb -> bb ∈ bbs /\ n_fgs bb <> m)
  /\ (forall pos, is_Some (bb_map' !! pos) \/ is_Some (lk_map' !! pos)
        <-> (is_Some (bb_map !! pos) \/ is_Some (lk_map !! pos))
            \/ exists a, a ∈ assignments /\ pos ∈ a.2).
Proof.
  induction assignments as [|[i ps] r IH]; intros bm lm bm' lm'; simpl.
  - intros [= <- <-] Hb Hl. split_and!; [done..|].
    intros pos. split; [by left|]. intros [?|(a & []%elem_of_nil & _)]. done.
  - destruct (py_index bbs i) as [bb| |] eqn:Hbb; [|done..]. cbn [obind].
    apply py_index_elem in Hbb.
    destruct (decide (n_fgs bb = m)) as [Hm|Hm]; cbn [obind]; intros Hfold Hb Hl.
    + apply IH in Hfold as (Hb' & Hl' & Hdom); [|..|done].
      * split_and!; [done..|]. intros pos. rewrite Hdom, assign_lookup.
        destruct (decide (pos ∈ ps)) as [Hin|Hin].
        -- split; [|by left; left]. intros _. right. exists (i, ps). split; [by left|done].
        -- split.
           ++ intros [?|(a & Ha & Hpa)]; [by left|]. right. exists a. split; [by right|done].
           ++ intros [?|(a & [->|Ha]%elem_of_cons & Hpa)]; [by left|done|].
              right. by exists a.
      * intros pos b. rewrite assign_lookup. case_decide; [|by apply Hb].
        by intros [= <-].
    + apply IH in Hfold as (Hb' & Hl' & Hdom); [|done|].
      * split_and!; [done..|]. intros pos. rewrite Hdom, assign_lookup.
        destruct (decide (pos ∈ ps)) as [Hin|Hin].
        -- split; [|by left; right]. intros _. right. exists (i, ps). split; [by left|done].
        -- split.
           ++ intros [?|(a & Ha & Hpa)]; [by left|]. right. exists a. split; [by right|done].
           ++ intros [?|(a & [->|Ha]%elem_of_cons & Hpa)]; [by left|done|].
              right. by exists a.
      * intros pos b. rewrite assign_lookup. case_decide; [|by apply Hl].
        by intros [= <-].
Qed.

(** X20.  With the building blocks assigned by the caller, [_bb_maps]
    puts a position into [bb_map] only with a building block of the
    molecule that has the most functional groups of all, into [lk_map]
    only with one that has fewer; and the positions that end up in one
    of the two maps are exactly the positions listed in
    [bb_assignments]. *)
Theorem bb_maps_classify bbs assignments bb_map lk_map :
  _bb_maps n_fgs bbs assignments = Val (bb_map, lk_map) ->
  exists bb_fgs,
    max_fgs n_fgs bbs = Val bb_fgs
    /\ Forall (fun bb => n_fgs bb <= bb_fgs) bbs
    /\ (forall pos bb, bb_map !! pos = Some bb -> bb ∈ bbs /\ n_fgs bb = bb_fgs)
    /\ (forall pos bb, lk_map !! pos = Some bb -> bb ∈ bbs /\ n_fgs bb < bb_fgs)
    /\ (forall pos, is_Some (bb_map !! pos) \/ is_Some (lk_map !! pos)
          <-> exists a, a ∈ assignments /\ pos ∈ a.2).
Proof.
  unfold _bb_maps.
  destruct (max_fgs n_fgs bbs) as [m| |] eqn:Hmax; [|done..]. cbn [obind].
  intros Hloop. exists m. split; [done|].
  pose proof (max_fgs_bound _ _ Hmax) as Hbound. split; [done|].
  apply bb_maps_loop in Hloop as (Hb & Hl & Hdom);
    [|intros pos bb; by rewrite lookup_empty..].
  split_and!; [done| |].
  - intros pos bb Hbb. destruct (Hl pos bb Hbb) as [Hin Hne]. split; [done|].
    rewrite Forall_forall in Hbound. specialize (Hbound bb Hin). lia.
  - intros pos. rewrite Hdom, !lookup_empty. split.
    + intros [[[? ?]|[? ?]]|?]; done.
    + by right.
Qed.
End BbMapsFacts.

Lemma bb_maps_classify_witness :
  exists bb_fgs,
    CageTopology.max_fgs (fun n : nat => n) [3; 2] = Val bb_fgs
    /\ Forall (fun bb => bb <= bb_fgs) [3; 2].
Proof.
  destruct (bb_maps_classify (fun n : nat => n) [3; 2]
              [(0%Z, [0; 1]); (1%Z, [2])]
              (<[1 := 3]> (<[0 := 3]> ∅)) (<[2 := 2]> ∅))
    as (m & Hm & Hall & _); [reflexivity|].
  exists m. by split.
Defined.

(** ** The atoms of a functional group *)

Section BromoFacts.
Import Bond Bromo.
Implicit Types (h : heap).

Lemma mapped_cases h h2 atom_map atoms :
  Forall (fun x => is_Some (h !! x)) atoms ->
  (forall l, is_Some (h !! l) -> h2 !! l = h !! l) ->
  match mapped h2 atom_map atoms with
  | inr held =>
      Forall2 (fun given kept =>
                 exists a, h !! given = Some (OAtom a)
                           /\ dict_get atom_map (atom_id a) = inr kept)
              atoms held
  | inl e =>
      Exists (fun given =>
                match h !! given with
                | Some (OAtom a) => dict_get atom_map (atom_id a) = inl e
                | _ => e = AttributeError
                end) atoms
  end.
Proof.
  intros Hall Hkeep. induction Hall as [|x r Hx Hr IH]; simpl; [constructor|].
  unfold id_of. rewrite (Hkeep x Hx).
  destruct (h !! x) as [[a| |]|] eqn:Ex; simpl;
    try (apply Exists_cons_hd; by rewrite Ex).
  destruct (dict_get atom_map (atom_id a)) as [e|kept] eqn:Hk; simpl.
  { apply Exists_cons_hd. by rewrite Ex. }
  destruct (mapped h2 atom_map r) as [e|held]; simpl.
  - by apply Exists_cons_tl.
  - constructor; [by exists a|done].
Qed.

(** X21.  [Bromo(bromine, atom, bonders, deleters)] keeps clones, never
    the atoms it is given: [_bromine] and [_atom] are new objects, and
    every bonder and deleter it holds is one of these two, chosen by
    the id of the atom given; a bonder or deleter whose id is neither
    the bromine's nor the atom's is refused with [KeyError].  When
    bromine and atom carry the same id, the dict keeps one clone only,
    and [_bromine] is the copy of [atom]. *)
Theorem bromo_holds_clones h bromine atom ab aa bonders deleters :
  h !! bromine = Some (OAtom ab) ->
  h !! atom = Some (OAtom aa) ->
  Forall (fun x => is_Some (h !! x)) (bonders ++ deleters) ->
  match Bromo_init h bromine atom bonders deleters with
  | inr (fg, h') =>
      let kept_for := fun given kept =>
        exists a, h !! given = Some (OAtom a)
                  /\ ((atom_id a = atom_id aa /\ kept = _atom fg)
                      \/ (atom_id a = atom_id ab /\ kept = _bromine fg)) in
      h !! _bromine fg = None /\ h !! _atom fg = None
      /\ (forall l, is_Some (h !! l) -> h' !! l = h !! l)
      /\ h' !! _atom fg = Some (OAtom aa)
      /\ (if decide (atom_id ab = atom_id aa)
          then _bromine fg = _atom fg /\ _atoms fg = [_atom fg]
          else h' !! _bromine fg = Some (OAtom ab)
               /\ _atoms fg = [_bromine fg; _atom fg])
      /\ Forall2 kept_for bonders (_bonders fg)
      /\ Forall2 kept_for deleters (_deleters fg)
  | inl AttributeError =>
      Exists (fun given => forall a, h !! given <> Some (OAtom a)) (bonders ++ deleters)
  | inl (KeyError key) =>
      key <> atom_id ab /\ key <> atom_id aa
      /\ Exists (fun given => exists a, h !! given = Some (OAtom a) /\ atom_id a = key)
                (bonders ++ deleters)
  end.
Proof.
  intros Hb Ha Hall. apply Forall_app in Hall as [Hbond Hdel].
  unfold Bromo_init, id_of at 1, clone_atom at 1. rewrite Hb.
  cbn [ebind].
  destruct (alloc_spec h (OAtom ab)) as (Hcb & Hcb' & Hold1).
  destruct (alloc h (OAtom ab)) as [cb h1]. simpl in Hcb, Hcb', Hold1.
  assert (Hkeep1 : forall l, is_Some (h !! l) -> h1 !! l = h !! l).
  { intros l [o Hl]. apply Hold1. intros ->. congruence. }
  unfold id_of at 1, clone_atom at 1. rewrite (Hkeep1 atom), Ha by done.
  cbn [ebind].
  destruct (alloc_spec h1 (OAtom aa)) as (Hca & Hca' & Hold2).
  destruct (alloc h1 (OAtom aa)) as [ca h2]. simpl in Hca, Hca', Hold2.
  assert (Hne : cb <> ca) by (intros ->; congruence).
  assert (Hkeep2 : forall l, is_Some (h !! l) -> h2 !! l = h !! l).
  { intros l Hl. rewrite Hold2; [by apply Hkeep1|].
    intros ->. rewrite Hkeep1 in Hca by done. rewrite Hca in Hl. by destruct Hl. }
  assert (Hhca : h !! ca = None).
  { destruct (h !! ca) eqn:E; [|done].
    rewrite Hkeep1 in Hca by (by rewrite E). congruence. }
  unfold id_of at 1. rewrite (Hkeep2 bromine), Hb by done. cbn [ebind].
  set (atom_map := dict_set (dict_set [] (atom_id ab) cb) (atom_id aa) ca).
  assert (Hget : forall k,
    dict_get atom_map k
    = if decide (k = atom_id aa) then inr ca
      else if decide (k = atom_id ab) then inr cb else inl (KeyError k)).
  { intros k. unfold atom_map. simpl.
    repeat (case_decide; simpl); try done; congruence. }
  assert (Hatoms : map snd atom_map
                   = if decide (atom_id ab = atom_id aa) then [ca] else [cb; ca]).
  { unfold atom_map. simpl. by destruct (decide (atom_id ab = atom_id aa)). }
  set (br := if decide (atom_id ab = atom_id aa) then ca else cb).
  assert (Hbr : dict_get atom_map (atom_id ab) = inr br).
  { rewrite Hget. unfold br. destruct (decide (atom_id ab = atom_id aa)); [done|].
    by rewrite decide_True. }
  rewrite Hbr. cbn [ebind].
  unfold id_of at 1. rewrite (Hkeep2 atom), Ha by done. cbn [ebind].
  rewrite (Hget (atom_id aa)), decide_True by done. cbn [ebind].
  assert (Hgood : forall atoms held,
    Forall2 (fun given kept =>
               exists a, h !! given = Some (OAtom a)
                         /\ dict_get atom_map (atom_id a) = inr kept) atoms held ->
    Forall2 (fun given kept =>
               exists a, h !! given = Some (OAtom a)
                 /\ ((atom_id a = atom_id aa /\ kept = ca)
                     \/ (atom_id a = atom_id ab /\ kept = br))) atoms held).
  { intros atoms held HF. eapply Forall2_impl; [exact HF|].
    intros x kept (a & Hx & Hk).
    exists a. split; [done|]. rewrite Hget in Hk. unfold br.
    destruct (decide (atom_id a = atom_id aa)) as [E|E].
    - left. split; [done|]. congruence.
    - destruct (decide (atom_id a = atom_id ab)) as [E'|E']; [|done].
      right. split; [done|]. rewrite decide_False by congruence. congruence. }
  assert (Hbad : forall atoms e,
    Exists (fun given =>
              match h !! given with
              | Some (OAtom a) => dict_get atom_map (atom_id a) = inl e
              | _ => e = AttributeError
              end) atoms ->
    match e with
    | AttributeError =>
        Exists (fun given => forall a, h !! given <> Some (OAtom a)) atoms
    | KeyError key =>
        key <> atom_id ab /\ key <> atom_id aa
        /\ Exists (fun given => exists a, h !! given = Some (OAtom a) /\ atom_id a = key)
                  atoms
    end).
  { intros atoms e Hex. apply Exists_exists in Hex as (x & Hin & Hx).
    destruct (h !! x) as [[a| |]|] eqn:Ex.
    - rewrite Hget in Hx.
      destruct (decide (atom_id a = atom_id aa)); [done|].
      destruct (decide (atom_id a = atom_id ab)); [done|]. injection Hx as <-.
      split_and!; [done..|]. apply Exists_exists. exists x. split; [done|]. by exists a.
    - subst e. apply Exists_exists. exists x. split; [done|]. congruence.
    - subst e. apply Exists_exists. exists x. split; [done|]. congruence.
    - subst e. apply Exists_exists. exists x. split; [done|]. congruence. }
  pose proof (mapped_cases h h2 atom_map bonders Hbond Hkeep2) as Hmb.
  pose proof (mapped_cases h h2 atom_map deleters Hdel Hkeep2) as Hmd.
  destruct (mapped h2 atom_map bonders) as [e|held_b]; cbn [ebind].
  { apply Hbad in Hmb. destruct e as [|key].
    - apply Exists_app. by left.
    - destruct Hmb as (? & ? & ?). split_and!; [done..|]. apply Exists_app. by left. }
  destruct (mapped h2 atom_map deleters) as [e|held_d]; cbn [ebind].
  { apply Hbad in Hmd. destruct e as [|key].
    - apply Exists_app. by right.
    - destruct Hmd as (? & ? & ?). split_and!; [done..|]. apply Exists_app. by right. }
  cbv zeta. cbn [_bromine _atom _atoms _bonders _deleters].
  split_and!.
  - unfold br. by destruct (decide _).
  - done.
  - done.
  - done.
  - rewrite Hatoms. unfold br.
    destruct (decide (atom_id ab = atom_id aa)); [done|].
    split; [|done]. by rewrite Hold2.
  - by apply Hgood.
  - by apply Hgood.
Qed.
End BromoFacts.

Lemma bromo_holds_clones_witness :
  match Bromo.Bromo_init Examples.bond_heap 0 1 [1] [0] with
  | inr (fg, h') =>
      Examples.bond_heap !! Bromo._bromine fg = None
      /\ Examples.bond_heap !! Bromo._atom fg = None
  | inl _ => True
  end.
Proof.
  pose proof (bromo_holds_clones Examples.bond_heap 0 1 (Bond.mkAtom 0 6 0)
                (Bond.mkAtom 5 6 0) [1] [0] eq_refl eq_refl) as H.
  destruct (Bromo.Bromo_init Examples.bond_heap 0 1 [1] [0]) as [e|[fg h']];
    [done|].
  destruct H as (H1 & H2 & _); [|by split].
  repeat constructor; eexists; reflexivity.
Defined.
